(** * Noctem wiki core: chunker, retriever, context assembler, ingestor, answer grounder

    A shallow embedding of
      - noctem/wiki/chunking.py   (v0.9.0)
      - noctem/wiki/retrieval.py  (v0.9.0)
      - noctem/wiki/ingestion.py  (v0.9.1)
      - noctem/wiki/query.py      (0.9.0 Learning)
    together with the properties of these modules.

    Conventions.  A Python [str] is a list of characters; characters are the
    code points below 256.  Python integers are [Z]; indices produced by the
    regular-expression scanner are [nat].  A finite Python float (a
    similarity score) is the rational [Q] it denotes, and an arithmetic
    operation on floats is the exact operation followed by rounding to
    the nearest binary64 number.  The relational store is a finite map
    from row id to row. *)

From Stdlib Require Import ZArith QArith List Ascii String Lia Bool.
From Stdlib Require Import Permutation Sorted DecimalString.
From Stdlib Require Import DecimalPos.
From Stdlib Require Import Qround Qabs Lqa.
From stdpp Require Import gmap strings list.
Import ListNotations.

(* ===================================================================== *)
(** * Python strings *)
(* ===================================================================== *)

Module PyStr.

Definition str := list ascii.

(** String literals of the source. *)
Definition lit (s : string) : str := list_ascii_of_string s.

Definition code (c : ascii) : N := N_of_ascii c.

(** [str.isspace] / the regex class [\s] on code points below 256:
    TAB..CR, FS..US, SPACE, NEL and NBSP. *)
Definition is_space (c : ascii) : bool :=
  let n := code c in
  (((9 <=? n) && (n <=? 13)) || ((28 <=? n) && (n <=? 32))
   || (n =? 133) || (n =? 160))%N.

Definition is_newline (c : ascii) : bool := (code c =? 10)%N.

Definition is_digit (c : ascii) : bool :=
  let n := code c in ((48 <=? n) && (n <=? 57))%N.

(** Truthiness of a string: [if s:]. *)
Definition nonempty (s : str) : bool :=
  match s with [] => false | _ :: _ => true end.

Fixpoint lstrip (s : str) : str :=
  match s with
  | [] => []
  | c :: s' => if is_space c then lstrip s' else s
  end.

Definition rstrip (s : str) : str := rev (lstrip (rev s)).

(** [s.strip()] *)
Definition strip (s : str) : str := rstrip (lstrip s).

(** [s.split()]: the maximal whitespace-delimited substrings of [s];
    [cur] is the token being read, last character first. *)
Fixpoint words_from (cur : str) (s : str) : list str :=
  match s with
  | [] => match cur with [] => [] | _ :: _ => [rev cur] end
  | c :: s' =>
      if is_space c then
        match cur with
        | [] => words_from [] s'
        | _ :: _ => rev cur :: words_from [] s'
        end
      else words_from (c :: cur) s'
  end.

Definition words (s : str) : list str := words_from [] s.

(** [len(s)] as a Python integer. *)
Definition len (s : str) : Z := Z.of_nat (length s).

(** [s[a:b]] for indices within range (an empty slice when [b <= a]). *)
Definition slice (a b : nat) (s : str) : str := firstn (b - a) (skipn a s).

(** [s[:p]] for an arbitrary Python integer [p]: a negative [p] counts
    from the end. *)
Definition py_prefix (s : str) (p : Z) : str :=
  if (0 <=? p)%Z then firstn (Z.to_nat p) s
  else firstn (Z.to_nat (len s + p)) s.

(** [s[-n:]] for [n > 0]. *)
Definition py_last (n : Z) (s : str) : str :=
  skipn (Z.to_nat (len s - n)) s.

(** [sep.join(parts)] *)
Fixpoint join (sep : str) (parts : list str) : str :=
  match parts with
  | [] => []
  | [p] => p
  | p :: ps => p ++ sep ++ join sep ps
  end.

(** [s.startswith(p)], returning the remainder. *)
Fixpoint strip_prefix (p s : str) : option str :=
  match p, s with
  | [], _ => Some s
  | a :: p', b :: s' => if Ascii.eqb a b then strip_prefix p' s' else None
  | _ :: _, [] => None
  end.

(** [needle in s] *)
Fixpoint contains (needle s : str) : bool :=
  match strip_prefix needle s with
  | Some _ => true
  | None => match s with [] => false | _ :: s' => contains needle s' end
  end.

(** [s.lower()] on code points below 256: A..Z and the Latin-1 capitals
    (all of 192..222 but the multiplication sign 215) move up by 32. *)
Definition lower_char (c : ascii) : ascii :=
  let n := code c in
  if (((65 <=? n) && (n <=? 90))
      || ((192 <=? n) && (n <=? 222) && negb (n =? 215)))%N
  then ascii_of_N (n + 32) else c.

Definition lower (s : str) : str := map lower_char s.

(** [str(n)] for a Python integer. *)
Definition of_Z (n : Z) : str := lit (NilEmpty.string_of_int (Z.to_int n)).

(** [s * n] *)
Fixpoint repeat_str (s : str) (n : nat) : str :=
  match n with O => [] | S k => s ++ repeat_str s k end.

(** Regular-expression scanning, [re.finditer]: the matcher [m] is given
    the character before the current position and the rest of the text,
    and answers the length of the match that starts here.  Matches are
    taken leftmost first and do not overlap: after a match of length
    [S n] the next [n] positions are stepped over.  The patterns of
    this program never match the empty string. *)
Fixpoint finditer_from (m : option ascii -> str -> option nat)
    (prev : option ascii) (skip : nat) (i : nat) (s : str) : list (nat * nat) :=
  match s with
  | [] => []
  | c :: s' =>
      match skip with
      | S k => finditer_from m (Some c) k (S i) s'
      | O =>
          match m prev s with
          | Some (S n) => (i, i + S n) :: finditer_from m (Some c) n (S i) s'
          | _ => finditer_from m (Some c) O (S i) s'
          end
      end
  end.

Definition finditer (m : option ascii -> str -> option nat) (s : str)
  : list (nat * nat) :=
  finditer_from m None O O s.

(** Length of the whitespace run at the head of [s]: what a greedy [\s*]
    takes. *)
Fixpoint space_run (s : str) : nat :=
  match s with
  | c :: s' => if is_space c then S (space_run s') else O
  | [] => O
  end.

End PyStr.

(* ===================================================================== *)
(** * Python floats *)
(* ===================================================================== *)

Module PyFloat.
Local Open Scope Z_scope.

(** Precision and least exponent of binary64. *)
Definition PREC : Z := 53.
Definition EMIN : Z := -1074.

(** [2 ** e] as a rational. *)
Definition pow2 (e : Z) : Q := Qpower 2 e.

(** [floor(log2 a)] for a positive rational [a]. *)
Definition floor_log2 (a : Q) : Z :=
  let l := Z.log2 (Qnum a) - Z.log2 (Zpos (Qden a)) in
  if Qle_bool (pow2 l) a then l else l - 1.

(** The integer nearest to [x], the even one of the two when [x] lies
    half way. *)
Definition round_half_even (x : Q) : Z :=
  let f := Qfloor x in
  match Qcompare (x - inject_Z f) (1 # 2) with
  | Lt => f
  | Gt => f + 1
  | Eq => if Z.even f then f else f + 1
  end.

(** Rounding to the nearest binary64 number, ties to even: the result
    is [m * 2 ** e] with [e] the exponent of the last place of [x], not
    below [EMIN], in lowest terms.  Overflow to infinity is left out:
    the floats of this program are similarity scores multiplied by
    weights of magnitude at most 1, and reciprocals of 64-bit integers. *)
Definition round64 (x : Q) : Q :=
  if Qeq_bool x 0 then 0%Q
  else
    let a := Qabs x in
    let e := Z.max (floor_log2 a - (PREC - 1)) EMIN in
    let m := round_half_even (a * pow2 (- e)) in
    let y := Qred (inject_Z m * pow2 e) in
    if Qle_bool 0 x then y else Qopp y.

(** [float(n)] for an integer [n]. *)
Definition of_int (n : Z) : Q := round64 (inject_Z n).

(** [x / y] on floats, for [y] other than 0. *)
Definition fdiv (x y : Q) : Q := round64 (x / y).

(** [x * y] on floats. *)
Definition fmul (x y : Q) : Q := round64 (x * y).

End PyFloat.

(* ===================================================================== *)
(** * Chunker (noctem/wiki/chunking.py) *)
(* ===================================================================== *)

Module Chunking.
Import PyStr.
Local Open Scope Z_scope.

Definition CHARS_PER_TOKEN : Z := 4.
Definition MIN_CHUNK_TOKENS : Z := 300.
Definition MAX_CHUNK_TOKENS : Z := 1000.
Definition OVERLAP_TOKENS : Z := 100.

Record TextChunk := {
  content : str;
  page_or_section : option str;
  chunk_index : Z;
  start_char : Z;
  end_char : Z;
  token_count : Z
}.

Definition estimate_tokens (text : str) : Z := len text / CHARS_PER_TOKEN.

Definition tokens_to_chars (tokens : Z) : Z := tokens * CHARS_PER_TOKEN.

(** ** Section labels *)

Fixpoint digit_run (s : str) : str :=
  match s with
  | c :: s' => if is_digit c then c :: digit_run s' else []
  | [] => []
  end.

(** The pattern [\[PAGE (\d+)\]] tried at the head of [s]; the answer is
    group 1. *)
Definition match_page_marker (s : str) : option str :=
  match strip_prefix (lit "[PAGE ") s with
  | Some r =>
      let ds := digit_run r in
      match ds, skipn (length ds) r with
      | _ :: _, c :: _ => if Ascii.eqb c "]" then Some ds else None
      | _, _ => None
      end
  | None => None
  end.

(** [re.search]: the leftmost position where the pattern matches. *)
Fixpoint search_page_marker (s : str) : option str :=
  match match_page_marker s with
  | Some ds => Some ds
  | None => match s with [] => None | _ :: s' => search_page_marker s' end
  end.

Definition extract_page_number (text : str) : option str :=
  match search_page_marker text with
  | Some ds => Some (lit "p." ++ ds)
  | None => None
  end.

Fixpoint hash_run (s : str) : nat :=
  match s with
  | c :: s' => if Ascii.eqb c "#" then S (hash_run s') else O
  | [] => O
  end.

(** For [\s+(.+)$] at the head of [r] (whose first character is
    whitespace): the number of characters [\s+] keeps.  Greedy [\s+] takes
    the whole run and gives characters back until a character other than
    a newline follows for [.+]; [j] is the number of characters taken
    when the head of [r] is included. *)
Fixpoint heading_title_start (r : str) (j : nat) (best : option nat) : option nat :=
  match r with
  | w :: r' =>
      if is_space w then
        let best' :=
          match r' with
          | c :: _ => if is_newline c then best else Some j
          | [] => best
          end in
        heading_title_start r' (S j) best'
      else best
  | [] => best
  end.

(** What [.+] takes: up to the end of the line. *)
Fixpoint line_prefix (s : str) : str :=
  match s with
  | c :: s' => if is_newline c then [] else c :: line_prefix s'
  | [] => []
  end.

(** The pattern [^(#{1,6})\s+(.+)$] tried at a line start, the head of
    [s]: group 2 and the length of the match. *)
Definition match_heading (s : str) : option (str * nat) :=
  let h := hash_run s in
  if ((1 <=? h) && (h <=? 6))%nat then
    let r := skipn h s in
    match heading_title_start r 1%nat None with
    | Some j =>
        let title := line_prefix (skipn j r) in
        Some (title, (h + j + length title)%nat)
    | None => None
    end
  else None.

(** With [re.MULTILINE], [^] holds at the start of the text and after a
    newline. *)
Definition at_line_start (prev : option ascii) : bool :=
  match prev with None => true | Some p => is_newline p end.

(** [re.findall(r"^(#{1,6})\s+(.+)$", text, re.MULTILINE)], keeping
    group 2 of every match. *)
Fixpoint findall_headings (prev : option ascii) (skip : nat) (s : str) : list str :=
  match s with
  | [] => []
  | c :: s' =>
      match skip with
      | S k => findall_headings (Some c) k s'
      | O =>
          if at_line_start prev then
            match match_heading s with
            | Some (title, S n) => title :: findall_headings (Some c) n s'
            | _ => findall_headings (Some c) O s'
            end
          else findall_headings (Some c) O s'
      end
  end.

Definition extract_markdown_section (text : str) : option str :=
  match rev (findall_headings None O text) with
  | title :: _ => Some (strip title)
  | [] => None
  end.

Definition find_section_context (full_text : str) (position : Z) : option str :=
  let text_before := py_prefix full_text position in
  let window :=
    if 500 <? len text_before then py_last 500 text_before else text_before in
  match extract_page_number window with
  | Some page => Some page
  | None =>
      match extract_markdown_section text_before with
      | Some (c :: section) => Some (lit "## " ++ c :: section)
      | _ => None
      end
  end.

(** ** Sentences and paragraphs *)

Definition is_terminator (c : ascii) : bool :=
  Ascii.eqb c "." || Ascii.eqb c "!" || Ascii.eqb c "?".

(** The pattern [(?<=[.!?])\s+] at the head of [s], [prev] being the
    character before it. *)
Definition match_sentence_gap (prev : option ascii) (s : str) : option nat :=
  match prev with
  | Some p =>
      if is_terminator p then
        match space_run s with O => None | S n => Some (S n) end
      else None
  | None => None
  end.

(** One past the index of the last newline in the whitespace run at the
    head of [s]; [i] counts the characters passed. *)
Fixpoint last_newline_in_run (s : str) (i : nat) (best : option nat) : option nat :=
  match s with
  | c :: s' =>
      if is_space c then
        last_newline_in_run s' (S i) (if is_newline c then Some (S i) else best)
      else best
  | [] => best
  end.

(** The pattern [\n\s*\n] at the head of [s]: greedy [\s*] takes the
    whole whitespace run and gives back up to its last newline. *)
Definition match_blank_line (prev : option ascii) (s : str) : option nat :=
  match s with
  | c :: s' =>
      if is_newline c then
        match last_newline_in_run s' O None with
        | Some n => Some (S n)
        | None => None
        end
      else None
  | [] => None
  end.

Definition append_if_nonempty (acc : list (str * nat)) (s : str) (pos : nat)
  : list (str * nat) :=
  if nonempty s then acc ++ [(s, pos)] else acc.

Fixpoint sentences_loop (text : str) (ms : list (nat * nat)) (current_pos : nat)
    (sentences : list (str * nat)) : list (str * nat) * nat :=
  match ms with
  | [] => (sentences, current_pos)
  | (mstart, mend) :: ms' =>
      let sentence := strip (slice current_pos (mstart + 1) text) in
      sentences_loop text ms' mend (append_if_nonempty sentences sentence current_pos)
  end.

Definition split_into_sentences (text : str) : list (str * nat) :=
  let '(sentences, current_pos) :=
    sentences_loop text (finditer match_sentence_gap text) O [] in
  if (current_pos <? length text)%nat then
    append_if_nonempty sentences (strip (skipn current_pos text)) current_pos
  else sentences.

Fixpoint paragraphs_loop (text : str) (ms : list (nat * nat)) (current_pos : nat)
    (paragraphs : list (str * nat)) : list (str * nat) * nat :=
  match ms with
  | [] => (paragraphs, current_pos)
  | (mstart, mend) :: ms' =>
      let para := strip (slice current_pos mstart text) in
      paragraphs_loop text ms' mend (append_if_nonempty paragraphs para current_pos)
  end.

Definition split_into_paragraphs (text : str) : list (str * nat) :=
  let '(paragraphs, current_pos) :=
    paragraphs_loop text (finditer match_blank_line text) O [] in
  if (current_pos <? length text)%nat then
    append_if_nonempty paragraphs (strip (skipn current_pos text)) current_pos
  else paragraphs.

(** ** Merge and split repair *)

Definition merge_pair (current next_chunk : TextChunk) : TextChunk :=
  {| content := content current ++ lit "

" ++ content next_chunk;
     page_or_section := page_or_section current;
     chunk_index := chunk_index current;
     start_char := start_char current;
     end_char := end_char next_chunk;
     token_count := token_count current + token_count next_chunk |}.

(** The two nested [while] loops of [_merge_small_chunks]: [current] is
    the chunk being grown, [rest] is [chunks[i+1:]]. *)
Fixpoint merge_loop (min_tokens : Z) (current : TextChunk) (rest : list TextChunk)
  : list TextChunk :=
  match rest with
  | [] => [current]
  | next_chunk :: rest' =>
      if token_count current <? min_tokens
      then merge_loop min_tokens (merge_pair current next_chunk) rest'
      else current :: merge_loop min_tokens next_chunk rest'
  end.

Definition _merge_small_chunks (chunks : list TextChunk) (min_tokens : Z)
  : list TextChunk :=
  match chunks with
  | [] => chunks
  | [_] => chunks
  | c :: rest => merge_loop min_tokens c rest
  end.

Definition sub_chunk (chunk : TextChunk) (current_text : str) (current_start : Z)
  : TextChunk :=
  {| content := strip current_text;
     page_or_section := page_or_section chunk;
     chunk_index := chunk_index chunk;
     start_char := current_start;
     end_char := current_start + len current_text;
     token_count := estimate_tokens current_text |}.

(** The loop over the sentences of one oversized chunk; the state is
    [(result, current_text, current_start)]. *)
Definition split_step (chunk : TextChunk) (max_tokens : Z)
    (st : list TextChunk * str * Z) (s : str * nat) : list TextChunk * str * Z :=
  let '(result, current_text, current_start) := st in
  let '(sentence, rel_pos) := s in
  let sentence_tokens := estimate_tokens sentence in
  let current_tokens := estimate_tokens current_text in
  if nonempty current_text && (max_tokens <? current_tokens + sentence_tokens) then
    (result ++ [sub_chunk chunk current_text current_start],
     sentence, start_char chunk + Z.of_nat rel_pos)
  else
    (result,
     (if nonempty current_text then current_text ++ lit " " ++ sentence else sentence),
     current_start).

Definition split_one (max_tokens : Z) (result : list TextChunk) (chunk : TextChunk)
  : list TextChunk :=
  if token_count chunk <=? max_tokens then result ++ [chunk]
  else
    let sentences := split_into_sentences (content chunk) in
    let '(result', current_text, current_start) :=
      fold_left (split_step chunk max_tokens) sentences
                (result, [], start_char chunk) in
    if nonempty (strip current_text)
    then result' ++ [sub_chunk chunk current_text current_start]
    else result'.

Definition _split_large_chunks (chunks : list TextChunk) (max_tokens : Z)
  : list TextChunk :=
  fold_left (split_one max_tokens) chunks [].

(** ** chunk_text *)

Record LoopState := {
  st_chunks : list TextChunk;
  st_chunk_index : Z;
  st_text : str;      (* current_chunk_text *)
  st_start : Z        (* current_chunk_start *)
}.

Definition finalize (text : str) (st : LoopState) : TextChunk :=
  {| content := strip (st_text st);
     page_or_section := find_section_context text (st_start st);
     chunk_index := st_chunk_index st;
     start_char := st_start st;
     end_char := st_start st + len (st_text st);
     token_count := estimate_tokens (st_text st) |}.

Definition chunk_step (text : str) (max_tokens overlap_chars : Z)
    (st : LoopState) (p : str * nat) : LoopState :=
  let '(para_text, para_start) := p in
  let para_tokens := estimate_tokens para_text in
  let current_tokens := estimate_tokens (st_text st) in
  if nonempty (st_text st) && (max_tokens <? current_tokens + para_tokens) then
    let chunks := st_chunks st ++ [finalize text st] in
    if (0 <? overlap_chars) && (overlap_chars <? len (st_text st)) then
      let overlap_text := py_last overlap_chars (st_text st) in
      {| st_chunks := chunks;
         st_chunk_index := st_chunk_index st + 1;
         st_text := overlap_text ++ lit "

" ++ para_text;
         st_start := Z.of_nat para_start - len overlap_text |}
    else
      {| st_chunks := chunks;
         st_chunk_index := st_chunk_index st + 1;
         st_text := para_text;
         st_start := Z.of_nat para_start |}
  else if nonempty (st_text st) then
    {| st_chunks := st_chunks st;
       st_chunk_index := st_chunk_index st;
       st_text := st_text st ++ lit "

" ++ para_text;
       st_start := st_start st |}
  else
    {| st_chunks := st_chunks st;
       st_chunk_index := st_chunk_index st;
       st_text := para_text;
       st_start := Z.of_nat para_start |}.

(** [for i, chunk in enumerate(chunks): chunk.chunk_index = i] *)
Fixpoint reindex (i : Z) (chunks : list TextChunk) : list TextChunk :=
  match chunks with
  | [] => []
  | c :: cs =>
      {| content := content c; page_or_section := page_or_section c;
         chunk_index := i; start_char := start_char c;
         end_char := end_char c; token_count := token_count c |}
      :: reindex (i + 1) cs
  end.

(** First pass of [chunk_text]: the chunks before merge and split. *)
Definition first_pass (text : str) (max_tokens overlap_tokens : Z)
  : list TextChunk :=
  let overlap_chars := tokens_to_chars overlap_tokens in
  let paragraphs :=
    match split_into_paragraphs text with
    | [] => [(strip text, O)]
    | ps => ps
    end in
  let st :=
    fold_left (chunk_step text max_tokens overlap_chars) paragraphs
      {| st_chunks := []; st_chunk_index := 0; st_text := []; st_start := 0 |} in
  if nonempty (strip (st_text st))
  then st_chunks st ++ [finalize text st]
  else st_chunks st.

Definition chunk_text (text : str) (file_type : str)
    (min_tokens max_tokens overlap_tokens : Z) : list TextChunk :=
  if nonempty (strip text) then
    let chunks := first_pass text max_tokens overlap_tokens in
    let chunks := _merge_small_chunks chunks min_tokens in
    let chunks := _split_large_chunks chunks max_tokens in
    reindex 0 chunks
  else [].

(** The scenario document ["# Intro\n\n" + "word " * 500]. *)
Definition intro_doc : str :=
  lit "# Intro

" ++ repeat_str (lit "word ") 500.

End Chunking.

(* ===================================================================== *)
(** * Records of the relational store (noctem/models.py) *)
(* ===================================================================== *)

Module Models.
Import PyStr.
Local Open Scope Z_scope.

(** Timestamps ([CURRENT_TIMESTAMP], [datetime]) are points of an
    abstract clock. *)
Definition timestamp := Z.

(** A row of table [sources]; a nullable column is an [option]. *)
Record SourceRow := {
  row_file_path : str;
  row_file_type : option str;
  row_file_name : option str;
  row_title : option str;
  row_author : option str;
  row_file_hash : option str;
  row_file_size_bytes : option Z;
  row_trust_level : option Z;
  row_status : option str;
  row_chunk_count : option Z;
  row_ingested_at : option timestamp;
  row_last_verified : option timestamp;
  row_error_message : option str;
  row_created_at : option timestamp
}.

Record Source := {
  id : option Z;
  file_path : str;
  file_type : option str;
  file_name : option str;
  title : option str;
  author : option str;
  file_hash : option str;
  file_size_bytes : option Z;
  trust_level : Z;
  status : str;
  chunk_count : Z;
  ingested_at : option timestamp;
  last_verified : option timestamp;
  error_message : option str;
  created_at : option timestamp
}.

(** [row[col] or default] for an integer column: NULL and 0 are falsy. *)
Definition int_or (v : option Z) (d : Z) : Z :=
  match v with
  | Some n => if n =? 0 then d else n
  | None => d
  end.

(** [row[col] or default] for a text column: NULL and the empty string
    are falsy. *)
Definition str_or (v : option str) (d : str) : str :=
  match v with
  | Some (c :: s) => c :: s
  | _ => d
  end.

(** [Source.from_row] *)
Definition Source_from_row (rowid : Z) (row : SourceRow) : Source :=
  {| id := Some rowid;
     file_path := row_file_path row;
     file_type := row_file_type row;
     file_name := row_file_name row;
     title := row_title row;
     author := row_author row;
     file_hash := row_file_hash row;
     file_size_bytes := row_file_size_bytes row;
     trust_level := int_or (row_trust_level row) 1;
     status := str_or (row_status row) (lit "pending");
     chunk_count := int_or (row_chunk_count row) 0;
     ingested_at := row_ingested_at row;
     last_verified := row_last_verified row;
     error_message := row_error_message row;
     created_at := row_created_at row |}.

(** A row of table [knowledge_chunks]. *)
Record ChunkRow := {
  crow_id : Z;
  crow_source_id : Z;
  crow_chunk_id : str;
  crow_content : str;
  crow_page_or_section : option str;
  crow_chunk_index : option Z;
  crow_token_count : option Z;
  crow_start_char : option Z;
  crow_end_char : option Z
}.

Record KnowledgeChunk := {
  kc_id : option Z;
  source_id : Z;
  chunk_id : str;
  content : str;
  page_or_section : option str;
  chunk_index : Z;
  token_count : option Z;
  start_char : option Z;
  end_char : option Z;
  (* transient fields, populated at runtime *)
  source : option Source;
  similarity_score : option Q
}.

(** [KnowledgeChunk.from_row] *)
Definition KnowledgeChunk_from_row (row : ChunkRow) : KnowledgeChunk :=
  {| kc_id := Some (crow_id row);
     source_id := crow_source_id row;
     chunk_id := crow_chunk_id row;
     content := crow_content row;
     page_or_section := crow_page_or_section row;
     chunk_index := int_or (crow_chunk_index row) 0;
     token_count := crow_token_count row;
     start_char := crow_start_char row;
     end_char := crow_end_char row;
     source := None;
     similarity_score := None |}.

(** The relational store: [sources] by primary key, [knowledge_chunks]
    in row order. *)
Record Db := {
  sources : gmap Z SourceRow;
  knowledge_chunks : list ChunkRow
}.

Definition str_eqb (a b : str) : bool := bool_decide (a = b).

(** [SELECT * FROM knowledge_chunks WHERE chunk_id = ?] with [fetchone] *)
Definition get_chunk_by_id (db : Db) (cid : str) : option KnowledgeChunk :=
  match List.find (fun r => str_eqb (crow_chunk_id r) cid) (knowledge_chunks db) with
  | Some row => Some (KnowledgeChunk_from_row row)
  | None => None
  end.

(** [SELECT * FROM sources WHERE id = ?] with [fetchone] *)
Definition get_source_by_id (db : Db) (sid : Z) : option Source :=
  match sources db !! sid with
  | Some row => Some (Source_from_row sid row)
  | None => None
  end.

End Models.

(* ===================================================================== *)
(** * Retriever and context assembler (noctem/wiki/retrieval.py) *)
(* ===================================================================== *)

Module Retrieval.
Import PyStr Models.
Local Open Scope Z_scope.

Record SearchResult := {
  chunk : KnowledgeChunk;
  sr_source : option Source;
  sr_similarity_score : Q;
  citation_ref : str
}.

(** A Python exception is the absence of a value. *)
Definition raises (A : Type) := option A.

(** Property [trust_weight]: [1.0 / self.source.trust_level if self.source
    else 1.0]; the integer is converted to a float and the division is
    that of floats; it raises [ZeroDivisionError] at level 0. *)
Definition trust_weight (r : SearchResult) : raises Q :=
  match sr_source r with
  | Some s =>
      if trust_level s =? 0 then None
      else Some (PyFloat.fdiv 1 (PyFloat.of_int (trust_level s)))
  | None => Some 1%Q
  end.

(** Property [weighted_score]: the product of two floats. *)
Definition weighted_score (r : SearchResult) : raises Q :=
  match trust_weight r with
  | Some w => Some (PyFloat.fmul (sr_similarity_score r) w)
  | None => None
  end.

(** A hit of the vector index, as [search_similar] returns it. *)
Record Hit := {
  hit_chunk_id : str;
  hit_similarity : Q;
  hit_metadata : list (str * str)
}.

(** [f"{x}"] for an optional string. *)
Definition fmt_opt (x : option str) : str :=
  match x with Some s => s | None => lit "None" end.

(** The body of the [for] loop of [search] for one hit; [None] stands
    for [continue]. *)
Definition resolve_hit (db : Db) (trust_filter : option Z) (h : Hit)
  : option SearchResult :=
  match get_chunk_by_id db (hit_chunk_id h) with
  | None => None
  | Some chunk0 =>
      match get_source_by_id db (source_id chunk0) with
      | None => None
      | Some src =>
          if match trust_filter with
             | Some t => t <? trust_level src
             | None => false
             end
          then None
          else
            let chunk1 :=
              {| kc_id := kc_id chunk0; source_id := source_id chunk0;
                 chunk_id := chunk_id chunk0; content := content chunk0;
                 page_or_section := page_or_section chunk0;
                 chunk_index := chunk_index chunk0;
                 token_count := token_count chunk0;
                 start_char := start_char chunk0; end_char := end_char chunk0;
                 source := Some src;
                 similarity_score := Some (hit_similarity h) |} in
            let ref0 := fmt_opt (file_name src) in
            let ref1 :=
              match page_or_section chunk0 with
              | Some (c :: s) => ref0 ++ lit ", " ++ c :: s
              | _ => ref0
              end in
            Some {| chunk := chunk1; sr_source := Some src;
                    sr_similarity_score := hit_similarity h;
                    citation_ref := ref1 |}
      end
  end.

Fixpoint collect_results (db : Db) (trust_filter : option Z) (hits : list Hit)
  : list SearchResult :=
  match hits with
  | [] => []
  | h :: hs =>
      match resolve_hit db trust_filter h with
      | Some r => r :: collect_results db trust_filter hs
      | None => collect_results db trust_filter hs
      end
  end.

(** The keys of [list.sort(key=...)] are computed once, before sorting;
    an exception in one of them aborts the sort. *)
Fixpoint with_keys (rs : list SearchResult) : raises (list (Q * SearchResult)) :=
  match rs with
  | [] => Some []
  | r :: rs' =>
      match weighted_score r, with_keys rs' with
      | Some k, Some l => Some ((k, r) :: l)
      | _, _ => None
      end
  end.

(** [list.sort(reverse=True)] is a stable sort into descending order:
    an element goes after every element whose key is at least its own. *)
Fixpoint insert_desc (x : Q * SearchResult) (l : list (Q * SearchResult))
  : list (Q * SearchResult) :=
  match l with
  | [] => [x]
  | y :: l' =>
      if Qle_bool (fst x) (fst y) then y :: insert_desc x l' else x :: l
  end.

Definition sort_desc (l : list (Q * SearchResult)) : list (Q * SearchResult) :=
  fold_left (fun acc x => insert_desc x acc) l [].

(** [l[:n]] for an arbitrary Python integer [n]. *)
Definition py_take {A : Type} (n : Z) (l : list A) : list A :=
  if 0 <=? n then firstn (Z.to_nat n) l
  else firstn (Z.to_nat (Z.of_nat (length l) + n)) l.

(** [search]; [search_similar n] is the answer of the vector index to
    the query when asked for [n] neighbours. *)
Definition search (db : Db) (search_similar : Z -> list Hit)
    (n_results : Z) (trust_filter : option Z) : raises (list SearchResult) :=
  let raw_results := search_similar (n_results * 2) in
  let results := collect_results db trust_filter raw_results in
  match with_keys results with
  | Some keyed => Some (py_take n_results (map snd (sort_desc keyed)))
  | None => None
  end.

(** [result.chunk.token_count or (len(chunk_text) // 4)] *)
Definition chunk_tokens (r : SearchResult) : Z :=
  int_or (token_count (chunk r)) (len (content (chunk r)) / 4).

(** One entry of the context, with its citation marker. *)
Definition context_part (i : Z) (r : SearchResult) : str :=
  lit "[" ++ of_Z i ++ lit "] Source: " ++ citation_ref r ++ lit "
" ++ content (chunk r) ++ lit "
".

(** [for i, result in enumerate(results, start=1)], with its [break]. *)
Fixpoint context_loop (max_tokens : Z) (i : Z) (results : list SearchResult)
    (context_parts : list str) (total_tokens : Z) : list str * Z :=
  match results with
  | [] => (context_parts, total_tokens)
  | result :: rest =>
      if max_tokens <? total_tokens + chunk_tokens result
      then (context_parts, total_tokens)
      else context_loop max_tokens (i + 1) rest
             (context_parts ++ [context_part i result])
             (total_tokens + chunk_tokens result)
  end.

(** The part of [get_context_for_query] after the search. *)
Definition assemble_context (results : list SearchResult) (max_tokens : Z)
  : str * list SearchResult :=
  match results with
  | [] => ([], [])
  | _ :: _ =>
      let '(context_parts, _) := context_loop max_tokens 1 results [] 0 in
      (join (lit "
---
") context_parts,
       py_take (Z.of_nat (length context_parts)) results)
  end.

Definition get_context_for_query (db : Db) (search_similar : Z -> list Hit)
    (n_chunks max_tokens : Z) (trust_filter : option Z)
  : raises (str * list SearchResult) :=
  match search db search_similar n_chunks trust_filter with
  | Some results => Some (assemble_context results max_tokens)
  | None => None
  end.

End Retrieval.

(* ===================================================================== *)
(** * Ingestor (noctem/wiki/ingestion.py) *)
(* ===================================================================== *)

Module Ingestion.
Import PyStr Models.
Local Open Scope Z_scope.

(** A [pathlib.Path] is its list of components. *)
Definition Path := list str.

(** [str(path)] of an absolute path. *)
Definition path_str (p : Path) : str :=
  flat_map (fun part => lit "/" ++ part) p.

(** [s.split("/")] with empty components dropped: [Path(s)]. *)
Fixpoint parse_path_from (cur : str) (s : str) : Path :=
  match s with
  | [] => match cur with [] => [] | _ :: _ => [rev cur] end
  | c :: s' =>
      if Ascii.eqb c "/" then
        match cur with
        | [] => parse_path_from [] s'
        | _ :: _ => rev cur :: parse_path_from [] s'
        end
      else parse_path_from (c :: cur) s'
  end.

Definition parse_path (s : str) : Path := parse_path_from [] s.

(** [path.name] *)
Definition path_name (p : Path) : str := List.last p [].

(** [name.rfind(".")]: index of the last dot; [i] is the index of the
    head of [s]. *)
Fixpoint rfind_dot (s : str) (i : nat) (best : option nat) : option nat :=
  match s with
  | [] => best
  | c :: s' => rfind_dot s' (S i) (if Ascii.eqb c "." then Some i else best)
  end.

(** Position of the dot that starts the suffix: [0 < i < len(name) - 1]. *)
Definition suffix_index (name : str) : option nat :=
  match rfind_dot name O None with
  | Some i => if ((0 <? i) && (S i <? length name))%nat then Some i else None
  | None => None
  end.

(** [path.suffix] *)
Definition path_suffix (p : Path) : str :=
  let name := path_name p in
  match suffix_index name with Some i => skipn i name | None => [] end.

(** [path.stem] *)
Definition path_stem (p : Path) : str :=
  let name := path_name p in
  match suffix_index name with Some i => firstn i name | None => name end.

(** What the ingestor reads of a regular file: its SHA-256 digest, its
    size, its decoded text, and for a PDF the metadata PyMuPDF finds
    ([None] when the extraction raises). *)
Record FileInfo := {
  f_hash : str;
  f_size : Z;
  f_text : str;
  f_pdf_metadata : option (option str * option str)
}.

Record FileSystem := {
  fs_file : Path -> option FileInfo;
  fs_resolve : Path -> Path
}.

Definition detect_file_type (file_path : Path) : option str :=
  let ext := lower (path_suffix file_path) in
  if str_eqb ext (lit ".pdf") then Some (lit "pdf")
  else if str_eqb ext (lit ".md") then Some (lit "md")
  else if str_eqb ext (lit ".markdown") then Some (lit "md")
  else if str_eqb ext (lit ".txt") then Some (lit "txt")
  else if str_eqb ext (lit ".text") then Some (lit "txt")
  else None.

(** [re.match(r"^#\s+(.+)$", content.strip(), re.MULTILINE)]: [re.match]
    tries the pattern at the start of the string only; with
    [re.MULTILINE], [$] holds before a newline. *)
Definition extract_title_from_markdown (content : str) : option str :=
  match strip content with
  | c :: r =>
      if Ascii.eqb c "#" then
        match Chunking.heading_title_start r 1%nat None with
        | Some j => Some (strip (Chunking.line_prefix (skipn j r)))
        | None => None
        end
      else None
  | [] => None
  end.

(** Truthiness of an optional string: [if x:]. *)
Definition truthy (x : option str) : bool :=
  match x with Some (_ :: _) => true | _ => false end.

(** [x or None] *)
Definition or_none (x : option str) : option str :=
  if truthy x then x else None.

Inductive Error := FileNotFoundError | ValueError | ExtractionError.

(** [cursor.lastrowid] of an [INSERT]: one more than the largest row id. *)
Definition next_rowid (m : gmap Z SourceRow) : Z :=
  1 + fold_right Z.max 0 (map fst (map_to_list m)).

Definition set_sources (db : Db) (m : gmap Z SourceRow) : Db :=
  {| sources := m; knowledge_chunks := knowledge_chunks db |}.

(** Title and author as [create_source] infers them. *)
Definition infer_title_author (info : FileInfo) (ftype : str)
    (title author : option str) : Error + (option str * option str) :=
  if truthy title then inr (title, author)
  else if str_eqb ftype (lit "md") then
    inr (extract_title_from_markdown (f_text info), author)
  else if str_eqb ftype (lit "pdf") then
    match f_pdf_metadata info with
    | Some (mtitle, mauthor) =>
        inr (or_none mtitle, if truthy author then author else or_none mauthor)
    | None => inl ExtractionError
    end
  else inr (title, author).

Definition create_source (fs : FileSystem) (now : timestamp) (db : Db)
    (file_path0 : Path) (trust : Z) (title author : option str)
  : Error + (Db * option Source) :=
  let file_path := fs_resolve fs file_path0 in
  match fs_file fs file_path with
  | None => inl FileNotFoundError
  | Some info =>
      match detect_file_type file_path with
      | None => inl ValueError
      | Some ftype =>
          match infer_title_author info ftype title author with
          | inl e => inl e
          | inr (title1, author1) =>
              let title2 :=
                if truthy title1 then title1 else Some (path_stem file_path) in
              let source_id := next_rowid (sources db) in
              let row :=
                {| row_file_path := path_str file_path;
                   row_file_type := Some ftype;
                   row_file_name := Some (path_name file_path);
                   row_title := title2;
                   row_author := author1;
                   row_file_hash := Some (f_hash info);
                   row_file_size_bytes := Some (f_size info);
                   row_trust_level := Some trust;
                   row_status := Some (lit "pending");
                   row_chunk_count := None;
                   row_ingested_at := None;
                   row_last_verified := None;
                   row_error_message := None;
                   row_created_at := Some now |} in
              let db' := set_sources db (<[source_id := row]> (sources db)) in
              inr (db', get_source_by_id db' source_id)
          end
      end
  end.

(** [UPDATE sources SET ... WHERE id = ?] *)
Definition update_source (db : Db) (sid : option Z) (f : SourceRow -> SourceRow) : Db :=
  match sid with
  | Some i => set_sources db (alter f i (sources db))
  | None => db
  end.

Definition set_failed (msg : str) (r : SourceRow) : SourceRow :=
  {| row_file_path := row_file_path r; row_file_type := row_file_type r;
     row_file_name := row_file_name r; row_title := row_title r;
     row_author := row_author r; row_file_hash := row_file_hash r;
     row_file_size_bytes := row_file_size_bytes r;
     row_trust_level := row_trust_level r;
     row_status := Some (lit "failed");
     row_chunk_count := row_chunk_count r;
     row_ingested_at := row_ingested_at r;
     row_last_verified := row_last_verified r;
     row_error_message := Some msg;
     row_created_at := row_created_at r |}.

Definition set_status (st : str) (r : SourceRow) : SourceRow :=
  {| row_file_path := row_file_path r; row_file_type := row_file_type r;
     row_file_name := row_file_name r; row_title := row_title r;
     row_author := row_author r; row_file_hash := row_file_hash r;
     row_file_size_bytes := row_file_size_bytes r;
     row_trust_level := row_trust_level r;
     row_status := Some st;
     row_chunk_count := row_chunk_count r;
     row_ingested_at := row_ingested_at r;
     row_last_verified := row_last_verified r;
     row_error_message := row_error_message r;
     row_created_at := row_created_at r |}.

Definition set_last_verified (now : timestamp) (r : SourceRow) : SourceRow :=
  {| row_file_path := row_file_path r; row_file_type := row_file_type r;
     row_file_name := row_file_name r; row_title := row_title r;
     row_author := row_author r; row_file_hash := row_file_hash r;
     row_file_size_bytes := row_file_size_bytes r;
     row_trust_level := row_trust_level r;
     row_status := row_status r;
     row_chunk_count := row_chunk_count r;
     row_ingested_at := row_ingested_at r;
     row_last_verified := Some now;
     row_error_message := row_error_message r;
     row_created_at := row_created_at r |}.

Definition opt_str_eqb (a b : option str) : bool := bool_decide (a = b).

Definition verify_source (fs : FileSystem) (now : timestamp) (db : Db)
    (src : Source) : Db * bool :=
  let file_path := parse_path (file_path src) in
  match fs_file fs file_path with
  | None =>
      (update_source db (id src) (set_failed (lit "File not found")), false)
  | Some info =>
      let current_hash := f_hash info in
      let db1 := update_source db (id src) (set_last_verified now) in
      if negb (opt_str_eqb (Some current_hash) (file_hash src))
      then (update_source db1 (id src) (set_status (lit "changed")), false)
      else (db1, true)
  end.

(** ** Discovery *)

(** A directory tree as [Path.glob] sees it. *)
Inductive Entry :=
| FileE (name : str)
| DirE (name : str) (children : list Entry).

Definition entry_name (e : Entry) : str :=
  match e with FileE n => n | DirE n _ => n end.

(** A name matches the pattern [*ext] when it ends with [ext]. *)
Definition ends_with (ext name : str) : bool :=
  match strip_prefix (rev ext) (rev name) with Some _ => true | None => false end.

(** [dir.glob("*" + ext)] for the directory at [p] with entries [es]. *)
Definition glob_here (ext : str) (p : Path) (es : list Entry) : list Path :=
  map (fun e => p ++ [entry_name e])
      (List.filter (fun e => ends_with ext (entry_name e)) es).

(** The directories below an entry, each with its path and entries,
    the outer one first. *)
Fixpoint walk_dirs (p : Path) (e : Entry) : list (Path * list Entry) :=
  match e with
  | FileE _ => []
  | DirE n children =>
      (p ++ [n], children) :: flat_map (walk_dirs (p ++ [n])) children
  end.

(** [dir.glob("**/*" + ext)]: [**] stands for the directory itself and
    every directory below it. *)
Definition glob_recursive (ext : str) (p : Path) (es : list Entry) : list Path :=
  flat_map (fun d => glob_here ext (fst d) (snd d))
           ((p, es) :: flat_map (walk_dirs p) es).

Definition SUPPORTED_EXTENSIONS : list str := [lit ".pdf"; lit ".md"; lit ".txt"].

(** [{row["file_path"] for row in rows}] *)
Definition tracked_paths (db : Db) : gset str :=
  list_to_set (map (fun kv => row_file_path (snd kv)) (map_to_list (sources db))).

(** [exts] is [SUPPORTED_EXTENSIONS] in the order the set is iterated;
    [resolve] is [Path.resolve]. *)
Definition discover_new_sources (resolve : Path -> Path) (exts : list str)
    (db : Db) (directory : Path) (entries : list Entry) : list Path :=
  let all_files :=
    flat_map (fun ext => glob_here ext directory entries
                         ++ glob_recursive ext directory entries) exts in
  let tracked := tracked_paths db in
  List.filter (fun file_path =>
                 negb (bool_decide (path_str (resolve file_path) ∈ tracked)))
              all_files.

End Ingestion.

(* ===================================================================== *)
(** * Answer grounder (noctem/wiki/query.py) *)
(* ===================================================================== *)

Module Query.
Import PyStr.

(** The phrase rule 2 of [WIKI_QA_SYSTEM_PROMPT] asks the generator to
    say when the sources are insufficient. *)
Definition ESCAPE_PHRASE : str :=
  lit "I don't have enough information in my sources to answer this question.".

(** The fragment [has_answer] looks for. *)
Definition ESCAPE_FRAGMENT : str := lit "don't have enough information".

Record WikiAnswer := {
  answer : str;
  sources_used : list Retrieval.SearchResult;
  citations : str;
  query : str;
  model_used : str;
  context_tokens : Z
}.

(** Property [has_answer] *)
Definition has_answer (a : WikiAnswer) : bool :=
  nonempty (answer a) && negb (contains ESCAPE_FRAGMENT (lower (answer a))).

(** [formatted] *)
Definition formatted (a : WikiAnswer) : str :=
  if nonempty (citations a) then answer a ++ lit "

" ++ citations a
  else answer a.

End Query.

(* ===================================================================== *)
(** * Further code: properties of the records, the fragment store, the
      vector-index answer, citations and quotes, the rest of the
      ingestor, and the question pipeline *)
(* ===================================================================== *)

Module ModelProps.
Import PyStr Models.
Local Open Scope Z_scope.

(** [Source.trust_label] *)
Definition trust_label (s : Source) : str :=
  if trust_level s =? 1 then lit "personal"
  else if trust_level s =? 2 then lit "curated"
  else if trust_level s =? 3 then lit "web"
  else lit "unknown".

(** [Source.is_indexed] *)
Definition is_indexed (s : Source) : bool := str_eqb (status s) (lit "indexed").

(** [Source.needs_reindex] *)
Definition needs_reindex (s : Source) : bool := str_eqb (status s) (lit "changed").

(** Truthiness of an optional string. *)
Definition opt_truthy (x : option str) : bool :=
  match x with Some (_ :: _) => true | _ => false end.

(** [KnowledgeChunk.citation_ref] *)
Definition kc_citation_ref (c : KnowledgeChunk) : str :=
  match source c with
  | Some s =>
      if opt_truthy (file_name s) then
        if opt_truthy (page_or_section c)
        then Retrieval.fmt_opt (file_name s) ++ lit ", "
             ++ Retrieval.fmt_opt (page_or_section c)
        else Retrieval.fmt_opt (file_name s)
      else if opt_truthy (page_or_section c)
           then Retrieval.fmt_opt (page_or_section c)
           else lit "Chunk " ++ of_Z (chunk_index c)
  | None =>
      if opt_truthy (page_or_section c)
      then Retrieval.fmt_opt (page_or_section c)
      else lit "Chunk " ++ of_Z (chunk_index c)
  end.

End ModelProps.

(** ** Fragment rows (noctem/wiki/chunking.py, the functions on the store) *)

Module ChunkStore.
Import PyStr Models.
Local Open Scope Z_scope.

Definition set_chunks (db : Db) (rows : list ChunkRow) : Db :=
  {| sources := sources db; knowledge_chunks := rows |}.

(** [cursor.lastrowid] of an [INSERT] into [knowledge_chunks]. *)
Definition next_chunk_rowid (rows : list ChunkRow) : Z :=
  1 + fold_right Z.max 0 (map crow_id rows).

(** The loop of [save_chunks]; [uuid4 k] is the [k]-th identifier the
    generator hands out, [k] counts the chunks saved so far. *)
Fixpoint save_chunks_loop (uuid4 : nat -> str) (k : nat) (sid : Z)
    (chunks : list Chunking.TextChunk) (rows : list ChunkRow)
    (saved_chunks : list KnowledgeChunk) : list ChunkRow * list KnowledgeChunk :=
  match chunks with
  | [] => (rows, saved_chunks)
  | chunk :: rest =>
      let cid := uuid4 k in
      let rowid := next_chunk_rowid rows in
      let row :=
        {| crow_id := rowid; crow_source_id := sid; crow_chunk_id := cid;
           crow_content := Chunking.content chunk;
           crow_page_or_section := Chunking.page_or_section chunk;
           crow_chunk_index := Some (Chunking.chunk_index chunk);
           crow_token_count := Some (Chunking.token_count chunk);
           crow_start_char := Some (Chunking.start_char chunk);
           crow_end_char := Some (Chunking.end_char chunk) |} in
      let saved :=
        {| kc_id := Some rowid; source_id := sid; chunk_id := cid;
           content := Chunking.content chunk;
           page_or_section := Chunking.page_or_section chunk;
           chunk_index := Chunking.chunk_index chunk;
           token_count := Some (Chunking.token_count chunk);
           start_char := Some (Chunking.start_char chunk);
           end_char := Some (Chunking.end_char chunk);
           source := None; similarity_score := None |} in
      save_chunks_loop uuid4 (S k) sid rest (rows ++ [row]) (saved_chunks ++ [saved])
  end.

Definition save_chunks (uuid4 : nat -> str) (db : Db) (sid : Z)
    (chunks : list Chunking.TextChunk) : Db * list KnowledgeChunk :=
  let '(rows, saved) :=
    save_chunks_loop uuid4 O sid chunks (knowledge_chunks db) [] in
  (set_chunks db rows, saved).

(** [DELETE FROM knowledge_chunks WHERE source_id = ?], with
    [cursor.rowcount]. *)
Definition delete_chunks_for_source (db : Db) (sid : Z) : Db * Z :=
  let kept := List.filter (fun r => negb (crow_source_id r =? sid)) (knowledge_chunks db) in
  let gone := List.filter (fun r => crow_source_id r =? sid) (knowledge_chunks db) in
  (set_chunks db kept, Z.of_nat (length gone)).

End ChunkStore.

(** ** The vector index's answer (noctem/wiki/embeddings.py) *)

Module Embeddings.
Import PyStr Models Retrieval.




End Embeddings.

(** ** Citations and quotes (noctem/wiki/retrieval.py) *)

Module Citations.
Import PyStr Models Retrieval.
Local Open Scope Z_scope.

(** The double quote character. *)
Definition dquote : ascii := "034"%char.

Definition format_citation (c : KnowledgeChunk) (s : option Source) (index : Z) : str :=
  let parts0 := [lit "[" ++ of_Z index ++ lit "]"] in
  let parts1 :=
    match s with
    | Some src =>
        match file_name src with
        | Some (ch :: name) => parts0 ++ [ch :: name]
        | _ => parts0
        end
    | None => parts0
    end in
  let parts2 :=
    match page_or_section c with
    | Some (ch :: sec) => parts1 ++ [ch :: sec]
    | _ => parts1
    end in
  join (lit " ") parts2.

(** [for i, result in enumerate(results, start=1)] *)
Fixpoint citation_lines (i : Z) (results : list SearchResult) : list str :=
  match results with
  | [] => []
  | r :: rest =>
      format_citation (chunk r) (sr_source r) i :: citation_lines (i + 1) rest
  end.

Definition format_citations_footer (results : list SearchResult) : str :=
  match results with
  | [] => []
  | _ :: _ => join (lit "
") (lit "---" :: citation_lines 1 results)
  end.

Definition extract_quote (text : str) (max_words : Z) : str :=
  let text := join (lit " ") (words text) in
  let ws := words text in
  if Z.of_nat (length ws) <=? max_words then [dquote] ++ text ++ [dquote]
  else
    let truncated := join (lit " ") (py_take max_words ws) in
    [dquote] ++ truncated ++ lit "..." ++ [dquote].

End Citations.

(** ** The rest of the ingestor (noctem/wiki/ingestion.py) *)

Module Lifecycle.
Import PyStr Models Ingestion.
Local Open Scope Z_scope.

Definition set_indexed (now : timestamp) (count : option Z) (r : SourceRow) : SourceRow :=
  {| row_file_path := row_file_path r; row_file_type := row_file_type r;
     row_file_name := row_file_name r; row_title := row_title r;
     row_author := row_author r; row_file_hash := row_file_hash r;
     row_file_size_bytes := row_file_size_bytes r;
     row_trust_level := row_trust_level r;
     row_status := Some (lit "indexed");
     row_chunk_count := Some (int_or count 0);
     row_ingested_at := Some now;
     row_last_verified := row_last_verified r;
     row_error_message := None;
     row_created_at := row_created_at r |}.

Definition set_failed_with (msg : option str) (r : SourceRow) : SourceRow :=
  {| row_file_path := row_file_path r; row_file_type := row_file_type r;
     row_file_name := row_file_name r; row_title := row_title r;
     row_author := row_author r; row_file_hash := row_file_hash r;
     row_file_size_bytes := row_file_size_bytes r;
     row_trust_level := row_trust_level r;
     row_status := Some (lit "failed");
     row_chunk_count := row_chunk_count r;
     row_ingested_at := row_ingested_at r;
     row_last_verified := row_last_verified r;
     row_error_message := msg;
     row_created_at := row_created_at r |}.

Definition update_source_status (now : timestamp) (db : Db) (sid : Z)
    (st : str) (count : option Z) (msg : option str) : Db :=
  if str_eqb st (lit "indexed") then
    update_source db (Some sid) (set_indexed now count)
  else if str_eqb st (lit "failed") then
    update_source db (Some sid) (set_failed_with msg)
  else update_source db (Some sid) (set_status st).

(** [delete_source]: the fragments first, then the document;
    [cursor.rowcount > 0] of the second statement. *)
Definition delete_source (db : Db) (sid : Z) : Db * bool :=
  let db1 := fst (ChunkStore.delete_chunks_for_source db sid) in
  (set_sources db1 (delete sid (sources db1)),
   match sources db1 !! sid with Some _ => true | None => false end).

(** The text [extract_text_from_pdf] builds from the texts of the pages:
    [page_num] counts from 1, blank pages are left out. *)
Fixpoint pdf_text_parts (page_num : Z) (pages : list str) : list str :=
  match pages with
  | [] => []
  | page_text :: rest =>
      if nonempty (strip page_text)
      then (lit "[PAGE " ++ of_Z page_num ++ lit "]
" ++ page_text) :: pdf_text_parts (page_num + 1) rest
      else pdf_text_parts (page_num + 1) rest
  end.

Definition pdf_text (pages : list str) : str :=
  join (lit "

") (pdf_text_parts 1 pages).

End Lifecycle.

(** ** The question pipeline (noctem/wiki/query.py) *)

Module Asking.
Import PyStr Models Retrieval Query.
Local Open Scope Z_scope.

Definition NO_SOURCES_ANSWER : str :=
  lit "I don't have any sources in my knowledge base yet. Add documents to `data/sources/` and run `noctem wiki ingest`.".

(** The prompt of [ask]. *)
Definition build_prompt (context question : str) : str :=
  lit "Based on the following sources from my knowledge base:

" ++ context ++ lit "

Question: " ++ question ++ lit "

Answer (cite sources using [1], [2], etc.):".

(** [ask]; [query_llm prompt model] is the text the generator (or its
    error handler) returns. *)
Definition ask (db : Db) (search_similar : Z -> list Hit)
    (query_llm : str -> str -> str)
    (question : str) (n_sources max_context_tokens : Z)
    (trust_filter : option Z) (model : str) : raises WikiAnswer :=
  match get_context_for_query db search_similar n_sources max_context_tokens
          trust_filter with
  | None => None
  | Some (context, results) =>
      if nonempty context then
        Some {| answer := query_llm (build_prompt context question) model;
                sources_used := results;
                citations := Citations.format_citations_footer results;
                query := question;
                model_used := model;
                context_tokens := len context / 4 |}
      else
        Some {| answer := NO_SOURCES_ANSWER;
                sources_used := [];
                citations := [];
                query := question;
                model_used := model;
                context_tokens := 0 |}
  end.

(** The snippet of [simple_search]. *)
Definition snippet (content : str) : str :=
  if 300 <? len content then firstn 300 content ++ lit "..." else content.

Definition simple_search (db : Db) (search_similar : Z -> list Hit)
    (n_results : Z) (trust_filter : option Z) : raises (list (str * str * Q)) :=
  match search db search_similar n_results trust_filter with
  | None => None
  | Some results =>
      Some (map (fun r => (snippet (Models.content (chunk r)), citation_ref r,
                           sr_similarity_score r)) results)
  end.

End Asking.

(* ===================================================================== *)
(** * Statements *)
(* ===================================================================== *)

(** * Predicates on strings *)

Module TextProps.
Import PyStr.

Definition all_space (w : str) : Prop := Forall (fun c => is_space c = true) w.

(** [t] occurs in [s] as a substring. *)
Definition infix (t s : str) : Prop := exists pre post, s = pre ++ t ++ post.

End TextProps.

(** * Predicates on scans *)

Module ScanProps.
Import PyStr TextProps.

(** The spans [ms] lie in [text] from position [cp] on, in order, each
    non-empty and made of whitespace only. *)
Fixpoint spans_ok (text : str) (cp : nat) (ms : list (nat * nat)) : Prop :=
  match ms with
  | [] => True
  | (a, b) :: ms' =>
      cp <= a /\ a < b /\ b <= length text
      /\ all_space (slice a b text) /\ spans_ok text b ms'
  end.

(** A matcher that only ever matches whitespace inside the text. *)
Definition space_matcher (m : option ascii -> str -> option nat) : Prop :=
  forall prev s n, m prev s = Some n ->
    n <= length s /\ all_space (firstn n s).

End ScanProps.

(** * Predicates on paragraph and sentence lists *)

Module SplitProps.
Import PyStr TextProps ScanProps Chunking.

(** Token [t] is a token of one of the pieces of [l]. *)
Definition seg_covered (t : str) (l : list (str * nat)) : Prop :=
  exists p, In p l /\ In t (words (fst p)).

(** The common shape of [paragraphs_loop] ([ext = 0]) and
    [sentences_loop] ([ext = 1]). *)
Fixpoint gen_loop (ext : nat) (text : str) (ms : list (nat * nat))
    (current_pos : nat) (acc : list (str * nat)) : list (str * nat) * nat :=
  match ms with
  | [] => (acc, current_pos)
  | (mstart, mend) :: ms' =>
      gen_loop ext text ms' mend
        (append_if_nonempty acc
           (strip (slice current_pos (mstart + ext) text)) current_pos)
  end.

End SplitProps.

(** * Predicates on chunk lists *)

Module ChunkingProps.
Import PyStr TextProps ScanProps SplitProps Chunking.
Local Open Scope Z_scope.

(** Token [t] is a token of the content of one of the chunks [cs]. *)
Definition chunk_covered (t : str) (cs : list TextChunk) : Prop :=
  exists c, In c cs /\ In t (words (content c)).

(** *** Split repair *)

Definition split_state_covered (t : str) (st : list TextChunk * str * Z) : Prop :=
  chunk_covered t (fst (fst st)) \/ In t (words (snd (fst st))).

End ChunkingProps.

(** * The statements about the chunker as the specification words them *)

Module ScenarioProps.
Import PyStr TextProps ScanProps SplitProps Chunking ChunkingProps.
Local Open Scope Z_scope.

(** *** Merge repair *)

Definition chunk_of_size (n : Z) : TextChunk :=
  {| content := lit "x"; page_or_section := None; chunk_index := 0;
     start_char := 0; end_char := 1; token_count := n |}.

(** The sum of the token counts of a run of chunks. *)
Definition run_tokens (g : list TextChunk) : Z :=
  fold_right (fun c acc => token_count c + acc) 0 g.

(** [m] is the chunk a run [g] of consecutive chunks is merged into: the
    contents joined by blank lines, the label, ordinal and start of the
    first chunk, the end of the last, the token counts added up. *)
Definition merged_of (g : list TextChunk) (m : TextChunk) : Prop :=
  match g with
  | [] => False
  | first :: _ =>
      content m = join (lit "

") (map content g)
      /\ page_or_section m = page_or_section first
      /\ chunk_index m = chunk_index first
      /\ start_char m = start_char first
      /\ end_char m = end_char (List.last g first)
      /\ token_count m = run_tokens g
  end.

(** A run is closed as soon as it meets the floor: every leading part
    of it, short of the whole run, is below the floor. *)
Definition minimal_run (min_tokens : Z) (g : list TextChunk) : Prop :=
  forall k, (0 < k < length g)%nat -> run_tokens (firstn k g) < min_tokens.

(** The floor as the specification words it: when the first pass made
    more than one chunk, every chunk of the merged list meets the floor
    unless the merged list is a single chunk. *)
Definition merge_floor_claim (chunks : list TextChunk) (min_tokens : Z) : Prop :=
  (1 < length chunks)%nat ->
  Forall (fun c => min_tokens <= token_count c) (_merge_small_chunks chunks min_tokens)
  \/ length (_merge_small_chunks chunks min_tokens) = 1%nat.

(** *** The scenario of the heading followed by 500 words *)

Definition scenario_chunks : list TextChunk :=
  chunk_text intro_doc (lit "md") MIN_CHUNK_TOKENS 200 OVERLAP_TOKENS.

(** The scenario as the specification words it. *)
Definition scenario_claim : Prop :=
  (1 < length scenario_chunks)%nat
  /\ Forall (fun c => page_or_section c = Some (lit "Intro"))
       (removelast scenario_chunks).

End ScenarioProps.

(** * Predicates on search results *)

Module RetrievalProps.
Import PyStr TextProps Models Retrieval.
Local Open Scope Z_scope.

(** Descending order of keyed results. *)
Definition key_desc (a b : Q * SearchResult) : Prop := (fst b <= fst a)%Q.

(** Descending order of weighted score. *)
Definition score_desc (a b : SearchResult) : Prop :=
  exists ka kb, weighted_score a = Some ka /\ weighted_score b = Some kb
                /\ (kb <= ka)%Q.

(** A hit whose chunk row and source row are both in the store. *)
Definition resolvable (db : Db) (h : Hit) : bool :=
  match get_chunk_by_id db (hit_chunk_id h) with
  | Some c =>
      match get_source_by_id db (source_id c) with
      | Some _ => true
      | None => false
      end
  | None => false
  end.

(** What [search] guarantees of each result it builds. *)
Definition well_formed (db : Db) (trust_filter : option Z) (r : SearchResult) : Prop :=
  exists src,
    sr_source r = Some src
    /\ get_source_by_id db (source_id (chunk r)) = Some src
    /\ trust_level src <> 0
    /\ match trust_filter with Some t => trust_level src <= t | None => True end.

End RetrievalProps.

(** * Examples and statements for the retriever and assembler *)

Module RankingProps.
Import PyStr TextProps Models Retrieval RetrievalProps.
Local Open Scope Z_scope.

(** *** A small store for examples *)

Definition example_row (name : string) (trust : Z) : SourceRow :=
  {| row_file_path := lit "/kb/" ++ lit name;
     row_file_type := Some (lit "md");
     row_file_name := Some (lit name);
     row_title := None; row_author := None; row_file_hash := None;
     row_file_size_bytes := None;
     row_trust_level := Some trust;
     row_status := Some (lit "indexed");
     row_chunk_count := Some 1;
     row_ingested_at := None; row_last_verified := None;
     row_error_message := None; row_created_at := None |}.

Definition example_chunk (rowid sid : Z) (key text : string) : ChunkRow :=
  {| crow_id := rowid; crow_source_id := sid; crow_chunk_id := lit key;
     crow_content := lit text; crow_page_or_section := None;
     crow_chunk_index := Some 0; crow_token_count := None;
     crow_start_char := None; crow_end_char := None |}.

(** A personal note and a web page, one fragment each. *)
Definition example_db : Db :=
  {| sources := <[1 := example_row "note.md" 1]>
                  (<[2 := example_row "web.md" 3]> ∅);
     knowledge_chunks := [example_chunk 1 1 "c-note" "abcd";
                          example_chunk 2 2 "c-web" "efgh"] |}.

(** The index answers with the web fragment, a stale entry, and the
    note, the two live ones at similarity 0.75. *)
Definition example_hits (n : Z) : list Hit :=
  [ {| hit_chunk_id := lit "c-web"; hit_similarity := 3 # 4; hit_metadata := [] |};
    {| hit_chunk_id := lit "c-gone"; hit_similarity := 7 # 8; hit_metadata := [] |};
    {| hit_chunk_id := lit "c-note"; hit_similarity := 3 # 4; hit_metadata := [] |} ].

(** The entries of the context for [rs], numbered from [i]. *)
Fixpoint number_from (i : Z) (rs : list SearchResult) : list str :=
  match rs with
  | [] => []
  | r :: rs' => context_part i r :: number_from (i + 1) rs'
  end.

(** The tokens the assembler counts for [rs]. *)
Definition tokens_of (rs : list SearchResult) : Z :=
  fold_right (fun r acc => chunk_tokens r + acc) 0 rs.


(** A citation marker at the head of a text, after its opening bracket:
    one or more digits and a closing bracket (the pattern [\[\d+\]]). *)
Fixpoint digits_closed (seen : bool) (s : str) : bool :=
  match s with
  | c :: s' =>
      if is_digit c then digits_closed true s' else seen && Ascii.eqb c "]"
  | [] => false
  end.

Definition marker_here (s : str) : bool :=
  match s with
  | c :: s' => Ascii.eqb c "[" && digits_closed false s'
  | [] => false
  end.

(** The number of citation markers present in a text. *)
Fixpoint count_markers (s : str) : nat :=
  match s with
  | [] => O
  | c :: s' => ((if marker_here (c :: s') then 1 else 0) + count_markers s')%nat
  end.

(** The marker count as the specification words it: the number of used
    results is the number of citation markers present in the returned
    text. *)
Definition marker_claim (results : list SearchResult) (max_tokens : Z) : Prop :=
  length (snd (assemble_context results max_tokens))
  = count_markers (fst (assemble_context results max_tokens)).



(** The float nearest to 1/3. *)
Definition third : Q := (6004799503160661 # 18014398509481984)%Q.

(** An answer of the index with the note at similarity [third] and the
    web page at similarity 1.0. *)
Definition tie_hits (n : Z) : list Hit :=
  [ {| hit_chunk_id := lit "c-note"; hit_similarity := third; hit_metadata := [] |};
    {| hit_chunk_id := lit "c-web"; hit_similarity := 1; hit_metadata := [] |} ].

Definition example_result : SearchResult :=
  {| chunk := KnowledgeChunk_from_row (example_chunk 1 1 "c-note" "abcd");
     sr_source := Some (Source_from_row 1 (example_row "note.md" 1));
     sr_similarity_score := 3 # 4;
     citation_ref := lit "note.md" |}.

(** A fragment that cites its own sources. *)
Definition quoting_result : SearchResult :=
  {| chunk := KnowledgeChunk_from_row (example_chunk 1 1 "c-note" "see [1]");
     sr_source := Some (Source_from_row 1 (example_row "note.md" 1));
     sr_similarity_score := 3 # 4;
     citation_ref := lit "note.md" |}.

Definition example_note_result : SearchResult :=
  default example_result
    (resolve_hit example_db (Some 2)
       {| hit_chunk_id := lit "c-note"; hit_similarity := 3 # 4;
          hit_metadata := [] |}).

End RankingProps.

(** * Examples and statements for the ingestor *)

Module IngestionProps.
Import PyStr TextProps Models Ingestion.
Local Open Scope Z_scope.

(** *** Examples *)

Definition notes_path : Path := [lit "kb"; lit "notes.md"].

Definition notes_row (hash : string) : SourceRow :=
  {| row_file_path := path_str notes_path;
     row_file_type := Some (lit "md");
     row_file_name := Some (lit "notes.md");
     row_title := Some (lit "notes"); row_author := None;
     row_file_hash := Some (lit hash);
     row_file_size_bytes := Some 16;
     row_trust_level := Some 1;
     row_status := Some (lit "indexed");
     row_chunk_count := Some 1;
     row_ingested_at := Some 10; row_last_verified := None;
     row_error_message := None; row_created_at := Some 5 |}.

Definition notes_db : Db :=
  {| sources := <[7 := notes_row "h0"]> ∅; knowledge_chunks := [] |}.

Definition notes_source : Source := Source_from_row 7 (notes_row "h0").

(** A file system holding (at most) the notes file, with the given
    digest and text. *)
Definition notes_fs (file : option (string * string)) : FileSystem :=
  {| fs_file := fun p =>
       match file with
       | Some (hash, text) =>
           if bool_decide (p = notes_path)
           then Some {| f_hash := lit hash; f_size := 16; f_text := lit text;
                        f_pdf_metadata := None |}
           else None
       | None => None
       end;
     fs_resolve := fun p => p |}.

(** The first level-1 heading anywhere in the content, as the
    specification words it: the pattern of [extract_title_from_markdown]
    tried at every line start, leftmost first ([re.search]). *)
Fixpoint search_h1 (prev : option ascii) (s : str) : option str :=
  match s with
  | [] => None
  | c :: s' =>
      if Chunking.at_line_start prev && Ascii.eqb c "#" then
        match Chunking.heading_title_start s' 1%nat None with
        | Some j => Some (strip (Chunking.line_prefix (skipn j s')))
        | None => search_h1 (Some c) s'
        end
      else search_h1 (Some c) s'
  end.

Definition first_h1_heading (content : str) : option str :=
  search_h1 None (strip content).

(** Number of times [p] is listed in [l]. *)
Definition occurrences (p : Path) (l : list Path) : nat :=
  length (List.filter (fun q => bool_decide (q = p)) l).

(** A name with one of the supported extensions. *)
Definition supported (name : str) : bool :=
  existsb (fun ext => ends_with ext name) SUPPORTED_EXTENSIONS.

(** Induction on directory trees. *)
Fixpoint Entry_tree_ind (P : Entry -> Prop)
    (Hfile : forall n, P (FileE n))
    (Hdir : forall n children, Forall P children -> P (DirE n children))
    (e : Entry) : P e :=
  match e with
  | FileE n => Hfile n
  | DirE n children =>
      Hdir n children
        ((fix go (l : list Entry) : Forall P l :=
            match l with
            | [] => List.Forall_nil P
            | x :: l0 => @List.Forall_cons _ P x l0 (Entry_tree_ind P Hfile Hdir x) (go l0)
            end) children)
  end.

(** *** discover_new_sources *)

Definition sources_dir : Path := [lit "data"; lit "sources"].

Definition sources_entries : list Entry :=
  [FileE (lit "doc1.txt"); FileE (lit "ignored.docx");
   DirE (lit "sub") [FileE (lit "doc2.md")]].

End IngestionProps.

(** * Examples and statements for the answer grounder *)

Module QueryProps.
Import PyStr TextProps Query.

Definition answer_of (text : string) : WikiAnswer :=
  {| answer := lit text; sources_used := []; citations := [];
     query := lit "q"; model_used := lit "m"; context_tokens := 0 |}.

(** The predicate as the specification words it: the answer is not
    empty and does not contain the whole escape phrase, compared without
    regard to case. *)
Definition escape_claim (a : WikiAnswer) : Prop :=
  has_answer a = true <->
  (answer a <> [] /\ ~ infix (lower ESCAPE_PHRASE) (lower (answer a))).

End QueryProps.

(** * Token sequences and sound chunks *)

Module TokenProps.
Import PyStr TextProps ScanProps SplitProps Chunking ChunkingProps.
Local Open Scope Z_scope.

(** The tokens of a list of pieces, in order. *)
Definition piece_tokens (l : list (str * nat)) : list str :=
  concat (map (fun p => words (fst p)) l).

(** A chunk as the chunker means to emit it: its content has a token
    and its token count is not negative. *)
Definition sound_chunk (c : TextChunk) : Prop :=
  words (content c) <> [] /\ 0 <= token_count c.

(** The sum of the token counts of a chunk list. *)
Definition total_tokens (cs : list TextChunk) : Z :=
  fold_right (fun c acc => token_count c + acc) 0 cs.

End TokenProps.

(** * Section labels and page markers *)

Module LabelProps.
Import PyStr TextProps Chunking Lifecycle.
Local Open Scope Z_scope.

(** The number of the first page that is not blank, counting from
    [page_num]. *)
Fixpoint first_nonblank (page_num : Z) (pages : list str) : option Z :=
  match pages with
  | [] => None
  | page_text :: rest =>
      if nonempty (strip page_text) then Some page_num
      else first_nonblank (page_num + 1) rest
  end.

(** The marker [extract_text_from_pdf] writes for a page. *)
Definition page_marker (page_num : Z) : str :=
  lit "[PAGE " ++ of_Z page_num ++ lit "]".

(** The forms a section label can take: [p.] and digits, or [## ] and
    a title. *)
Definition label_shape (l : str) : Prop :=
  (exists ds, ds <> [] /\ Forall (fun c => is_digit c = true) ds
              /\ l = lit "p." ++ ds)
  \/ (exists t, t <> [] /\ l = lit "## " ++ t).

End LabelProps.

(** * Tokens of quotes and order of hits *)

Module HitProps.
Import PyStr TextProps Models Retrieval RetrievalProps RankingProps ModelProps Embeddings Citations.
Local Open Scope Z_scope.

(** A token: not empty, no whitespace in it. *)
Definition token (w : str) : Prop :=
  w <> [] /\ Forall (fun c => is_space c = false) w.

(** A hit is admitted when a fragment row has its key, the document
    row of the first such fragment exists, and that document's trust
    level (1 when the column is NULL or 0) is within the filter, if
    there is one. *)
Definition admitted (db : Db) (trust_filter : option Z) (h : Hit) : bool :=
  match List.find (fun row => bool_decide (crow_chunk_id row = hit_chunk_id h))
                  (knowledge_chunks db) with
  | Some crow =>
      match sources db !! crow_source_id crow with
      | Some srow =>
          match trust_filter with
          | Some t => int_or (row_trust_level srow) 1 <=? t
          | None => true
          end
      | None => false
      end
  | None => false
  end.


End HitProps.

(** * Language models for examples *)

Module AskingProps.
Import PyStr TextProps Models Retrieval RetrievalProps RankingProps Query Citations Asking.
Local Open Scope Z_scope.

(** Two generators of text, for comparing runs of [ask]. *)
Definition echo_llm (prompt model : str) : str := prompt.

Definition silent_llm (prompt model : str) : str := [].

End AskingProps.

(** * Well-formed paths and an example file system *)

Module PathProps.
Import PyStr TextProps Models Ingestion IngestionProps ModelProps ChunkStore Lifecycle.
Local Open Scope Z_scope.

(** A path component: not empty, no slash in it. *)
Definition path_part (part : str) : Prop :=
  part <> [] /\ Forall (fun c => Ascii.eqb c "/" = false) part.

(** No dot in a string. *)
Definition dotless (s : str) : Prop :=
  Forall (fun c => Ascii.eqb c "." = false) s.

(** The file type [detect_file_type] gives for a supported extension. *)
Definition type_of_extension (ext : str) : str := skipn 1 ext.

(** A file system holding the file [doc1.txt] of the example directory. *)
Definition sources_fs : FileSystem :=
  {| fs_file := fun p =>
       if bool_decide (p = sources_dir ++ [lit "doc1.txt"])
       then Some {| f_hash := lit "h1"; f_size := 4; f_text := lit "text";
                    f_pdf_metadata := None |}
       else None;
     fs_resolve := fun p => p |}.

Definition empty_db : Db := {| sources := ∅; knowledge_chunks := [] |}.

End PathProps.

(** * Fresh identifiers and stored fragments *)

Module StoreProps.
Import PyStr TextProps Models Retrieval RetrievalProps RankingProps Ingestion IngestionProps ModelProps ChunkStore Lifecycle.
Local Open Scope Z_scope.

(** The identifiers the generator hands out for [n] chunks are pairwise
    distinct, and none of them is the key of a row of [rows]. *)
Definition fresh_ids (uuid4 : nat -> str) (n : nat) (rows : list ChunkRow) : Prop :=
  (forall j k, (j < k)%nat -> (k < n)%nat -> uuid4 j <> uuid4 k)
  /\ (forall k row, (k < n)%nat -> In row rows -> crow_chunk_id row <> uuid4 k).

(** The fragment [s] records the text chunk [c] of document [sid] under
    the key [cid]. *)
Definition stored_as (sid : Z) (cid : str) (c : Chunking.TextChunk)
    (s : KnowledgeChunk) : Prop :=
  source_id s = sid
  /\ chunk_id s = cid
  /\ content s = Chunking.content c
  /\ page_or_section s = Chunking.page_or_section c
  /\ chunk_index s = Chunking.chunk_index c
  /\ token_count s = Some (Chunking.token_count c)
  /\ start_char s = Some (Chunking.start_char c)
  /\ end_char s = Some (Chunking.end_char c).

(** Number of rows of [knowledge_chunks] that belong to document [sid]. *)
Definition chunks_of (db : Db) (sid : Z) : nat :=
  length (List.filter (fun r => crow_source_id r =? sid) (knowledge_chunks db)).

(** Identifiers [id-0], [id-1], ... *)
Definition numbered_ids (k : nat) : str := lit "id-" ++ of_Z (Z.of_nat k).

Definition two_chunks : list Chunking.TextChunk :=
  [ {| Chunking.content := lit "first part"; Chunking.page_or_section := None;
       Chunking.chunk_index := 0; Chunking.start_char := 0;
       Chunking.end_char := 10; Chunking.token_count := 2 |};
    {| Chunking.content := lit "second part";
       Chunking.page_or_section := Some (lit "## Two");
       Chunking.chunk_index := 1; Chunking.start_char := 12;
       Chunking.end_char := 23; Chunking.token_count := 2 |} ].

End StoreProps.

(* ===================================================================== *)
(** * Proofs *)
(* ===================================================================== *)

Module PyStrFacts.
Import PyStr TextProps.

Lemma words_from_app_space cur a c b :
  is_space c = true ->
  words_from cur (a ++ c :: b) = words_from cur a ++ words b.
Proof.
  intros Hc. revert cur.
  induction a as [|d a IH]; intros cur; simpl.
  - rewrite Hc. destruct cur; reflexivity.
  - destruct (is_space d).
    + destruct cur; simpl; rewrite IH; reflexivity.
    + apply IH.
Qed.

Lemma words_all_space w : all_space w -> words w = [].
Proof.
  unfold words. induction 1 as [|c w Hc _ IH]; simpl; [reflexivity|].
  rewrite Hc. exact IH.
Qed.

Lemma words_space_l w b : all_space w -> words (w ++ b) = words b.
Proof.
  unfold words. induction 1 as [|c w Hc _ IH]; simpl; [reflexivity|].
  rewrite Hc. exact IH.
Qed.

Lemma words_sep a w b :
  all_space w -> w <> [] -> words (a ++ w ++ b) = words a ++ words b.
Proof.
  intros Hw Hne. destruct w as [|c w]; [congruence|].
  inversion Hw; subst. simpl. unfold words at 1.
  rewrite words_from_app_space by assumption.
  rewrite words_space_l by assumption. reflexivity.
Qed.

Lemma words_space_r a w : all_space w -> words (a ++ w) = words a.
Proof.
  intros Hw. destruct w as [|c w].
  - rewrite app_nil_r. reflexivity.
  - replace (a ++ c :: w) with (a ++ (c :: w) ++ []) by (rewrite app_nil_r; reflexivity).
    rewrite words_sep; [|assumption|discriminate].
    apply app_nil_r.
Qed.

Lemma lstrip_split s : exists w, all_space w /\ s = w ++ lstrip s.
Proof.
  induction s as [|c s [w [Hw Hs]]]; simpl.
  - exists []. split; [constructor|reflexivity].
  - destruct (is_space c) eqn:Hc.
    + exists (c :: w). split; [constructor; assumption|]. simpl. congruence.
    + exists []. split; [constructor|reflexivity].
Qed.

Lemma all_space_rev w : all_space w -> all_space (rev w).
Proof. unfold all_space. intros H. apply Forall_rev. exact H. Qed.

Lemma rstrip_split s : exists w, all_space w /\ s = rstrip s ++ w.
Proof.
  destruct (lstrip_split (rev s)) as [w [Hw Hs]].
  exists (rev w). split; [apply all_space_rev; assumption|].
  unfold rstrip. rewrite <- rev_app_distr, <- Hs, rev_involutive. reflexivity.
Qed.

Lemma words_lstrip s : words (lstrip s) = words s.
Proof.
  destruct (lstrip_split s) as [w [Hw Hs]].
  rewrite Hs at 2. symmetry. apply words_space_l. exact Hw.
Qed.

Lemma words_rstrip s : words (rstrip s) = words s.
Proof.
  destruct (rstrip_split s) as [w [Hw Hs]].
  rewrite Hs at 2. symmetry. apply words_space_r. exact Hw.
Qed.

Lemma words_strip s : words (strip s) = words s.
Proof. unfold strip. rewrite words_rstrip. apply words_lstrip. Qed.

Lemma words_strip_empty s : nonempty (strip s) = false -> words s = [].
Proof.
  intros H. rewrite <- words_strip. destruct (strip s); [reflexivity|discriminate].
Qed.

Lemma words_nonempty s t : In t (words s) -> nonempty s = true.
Proof. destruct s; [intros []|reflexivity]. Qed.

Lemma words_from_infix cur s t :
  In t (words_from cur s) -> infix t (rev cur ++ s).
Proof.
  revert cur. induction s as [|c s IH]; intros cur; simpl.
  - destruct cur as [|d cur]; [intros []|].
    intros [<-|[]]. exists [], []. rewrite app_nil_r. reflexivity.
  - destruct (is_space c).
    + destruct cur as [|d cur].
      * intros H. destruct (IH [] H) as [pre [post E]]. simpl in E.
        exists (c :: pre), post. simpl. congruence.
      * intros [<-|H].
        -- exists [], (c :: s). reflexivity.
        -- destruct (IH [] H) as [pre [post E]]. simpl in E.
           exists (rev (d :: cur) ++ c :: pre), post.
           rewrite E. rewrite <- !app_assoc. reflexivity.
    + intros H. destruct (IH (c :: cur) H) as [pre [post E]].
      exists pre, post. rewrite <- E. simpl. rewrite <- app_assoc. reflexivity.
Qed.

Lemma words_infix s t : In t (words s) -> infix t s.
Proof. intros H. exact (words_from_infix [] s t H). Qed.

Lemma infix_trans a b c : infix a b -> infix b c -> infix a c.
Proof.
  intros [p1 [q1 E1]] [p2 [q2 E2]]. exists (p2 ++ p1), (q1 ++ q2).
  rewrite E2, E1. rewrite <- !app_assoc. reflexivity.
Qed.

Lemma infix_concat (l : list str) s : In s l -> infix s (concat l).
Proof.
  induction l as [|x l IH]; [intros []|].
  intros [->|H]; simpl.
  - exists [], (concat l). reflexivity.
  - destruct (IH H) as [pre [post E]]. exists (x ++ pre), post.
    rewrite E, <- app_assoc. reflexivity.
Qed.

Lemma words_join sep (l : list str) :
  all_space sep -> sep <> [] -> words (join sep l) = concat (map words l).
Proof.
  intros Hs Hne. induction l as [|a l IH]; [reflexivity|].
  destruct l as [|b l].
  - simpl. symmetry. apply app_nil_r.
  - change (join sep (a :: b :: l)) with (a ++ sep ++ join sep (b :: l)).
    rewrite words_sep by assumption. rewrite IH. reflexivity.
Qed.

(** *** Decimal numerals *)

Lemma uint_digits d :
  Forall (fun c => is_digit c = true) (lit (NilEmpty.string_of_uint d)).
Proof.
  induction d; simpl; constructor; try reflexivity; assumption.
Qed.

Lemma of_Z_digits n :
  (0 <= n)%Z -> of_Z n <> [] /\ Forall (fun c => is_digit c = true) (of_Z n).
Proof.
  intros Hn. unfold of_Z. destruct n as [|p|p]; [| |lia].
  - split; [discriminate|]. repeat constructor.
  - simpl. split; [|apply uint_digits].
    pose proof (Unsigned.to_uint_nonnil p) as H.
    destruct (Pos.to_uint p); simpl; try discriminate. congruence.
Qed.

End PyStrFacts.

Module ScanFacts.
Import PyStr TextProps PyStrFacts ScanProps.

Lemma spans_ok_weaken text cp cp' ms :
  cp' <= cp -> spans_ok text cp ms -> spans_ok text cp' ms.
Proof.
  destruct ms as [|[a b] ms]; simpl; [trivial|].
  intros Hle (H1 & H2 & H3 & H4 & H5). repeat split; try assumption. lia.
Qed.

Lemma slice_app_suffix pre s n :
  slice (length pre) (length pre + n) (pre ++ s) = firstn n s.
Proof.
  unfold slice. rewrite skipn_app, skipn_all, Nat.sub_diag. simpl.
  f_equal. lia.
Qed.

Lemma finditer_from_spans m :
  space_matcher m ->
  forall s pre prev skip,
    skip <= length s ->
    spans_ok (pre ++ s) (length pre + skip)
      (finditer_from m prev skip (length pre) s).
Proof.
  intros Hm. induction s as [|c s IH]; intros pre prev skip Hskip; simpl.
  - trivial.
  - specialize (IH (pre ++ [c])).
    assert (E : forall x, (pre ++ [c]) ++ x = pre ++ c :: x)
      by (intros; rewrite <- app_assoc; reflexivity).
    assert (L : length (pre ++ [c]) = S (length pre))
      by (rewrite length_app; simpl; lia).
    rewrite E, L in IH.
    destruct skip as [|k].
    + destruct (m prev (c :: s)) as [[|n]|] eqn:Hmatch.
      * eapply spans_ok_weaken; [|apply (IH (Some c) 0); lia]. lia.
      * destruct (Hm _ _ _ Hmatch) as [Hlen Hsp]. simpl in Hlen.
        simpl. repeat split; try lia.
        -- rewrite length_app. simpl. lia.
        -- rewrite slice_app_suffix. exact Hsp.
        -- replace (length pre + S n) with (S (length pre) + n) by lia.
           apply IH. lia.
      * eapply spans_ok_weaken; [|apply (IH (Some c) 0); lia]. lia.
    + replace (length pre + S k) with (S (length pre) + k) by lia.
      apply IH. simpl in Hskip. lia.
Qed.

Lemma finditer_spans m text :
  space_matcher m -> spans_ok text 0 (finditer m text).
Proof.
  intros Hm. exact (finditer_from_spans m Hm text [] None 0 (Nat.le_0_l _)).
Qed.

Lemma space_run_spec s :
  space_run s <= length s /\ all_space (firstn (space_run s) s).
Proof.
  induction s as [|c s [IH1 IH2]]; simpl.
  - split; [lia|constructor].
  - destruct (is_space c) eqn:Hc; simpl.
    + split; [lia|]. constructor; assumption.
    + split; [lia|constructor].
Qed.

Lemma match_sentence_gap_space : space_matcher Chunking.match_sentence_gap.
Proof.
  intros prev s n. unfold Chunking.match_sentence_gap.
  destruct prev as [p|]; [|discriminate].
  destruct (Chunking.is_terminator p); [|discriminate].
  destruct (space_run s) eqn:E; [discriminate|].
  intros [= <-]. rewrite <- E. apply space_run_spec.
Qed.

Lemma last_newline_in_run_spec s : forall i best n,
  Chunking.last_newline_in_run s i best = Some n ->
  best = Some n \/ (i <= n /\ n - i <= length s /\ all_space (firstn (n - i) s)).
Proof.
  induction s as [|c s IH]; intros i best n; simpl.
  - intros ->. left. reflexivity.
  - destruct (is_space c) eqn:Hc; [|intros ->; left; reflexivity].
    intros H. apply IH in H. destruct H as [H|(H1 & H2 & H3)].
    + destruct (is_newline c); [|left; exact H].
      injection H as <-. right.
      replace (S i - i) with 1 by lia. simpl.
      repeat split; try lia. constructor; [assumption|constructor].
    + right. replace (n - i) with (S (n - S i)) by lia. simpl.
      repeat split; try lia. constructor; assumption.
Qed.

Lemma is_newline_space c : is_newline c = true -> is_space c = true.
Proof.
  unfold is_newline, is_space. intros H. apply N.eqb_eq in H. rewrite H.
  reflexivity.
Qed.

Lemma match_blank_line_space : space_matcher Chunking.match_blank_line.
Proof.
  intros prev s n. unfold Chunking.match_blank_line.
  destruct s as [|c s]; [discriminate|].
  destruct (is_newline c) eqn:Hc; [|discriminate].
  destruct (Chunking.last_newline_in_run s 0 None) as [k|] eqn:E; [|discriminate].
  intros [= <-]. apply last_newline_in_run_spec in E.
  destruct E as [E|(H1 & H2 & H3)]; [discriminate|].
  rewrite Nat.sub_0_r in *. simpl. split; [lia|].
  constructor; [apply is_newline_space; assumption|assumption].
Qed.

End ScanFacts.

Module SplitFacts.
Import PyStr TextProps PyStrFacts ScanProps ScanFacts Chunking SplitProps.

Lemma sentences_loop_gen text ms cp acc :
  sentences_loop text ms cp acc = gen_loop 1 text ms cp acc.
Proof.
  revert cp acc. induction ms as [|[a b] ms IH]; intros; simpl; [reflexivity|].
  apply IH.
Qed.

Lemma paragraphs_loop_gen text ms cp acc :
  paragraphs_loop text ms cp acc = gen_loop 0 text ms cp acc.
Proof.
  revert cp acc. induction ms as [|[a b] ms IH]; intros; simpl; [reflexivity|].
  rewrite Nat.add_0_r. apply IH.
Qed.

Lemma slice_app a b c (text : str) :
  a <= b -> b <= c -> slice a c text = slice a b text ++ slice b c text.
Proof.
  intros Hab Hbc. unfold slice.
  replace (c - a) with ((b - a) + (c - b)) by lia.
  rewrite <- take_take_drop. f_equal.
  rewrite skipn_skipn. do 2 f_equal. lia.
Qed.

Lemma skipn_slice a b (text : str) :
  a <= b -> skipn a text = slice a b text ++ skipn b text.
Proof.
  intros Hab. unfold slice.
  rewrite <- (firstn_skipn (b - a) (skipn a text)) at 1. f_equal.
  rewrite skipn_skipn. f_equal. lia.
Qed.

Lemma slice_length a b (text : str) :
  a <= b -> b <= length text -> length (slice a b text) = b - a.
Proof.
  intros Hab Hb. unfold slice. rewrite length_take, length_drop. lia.
Qed.

Lemma all_space_slice_prefix a b c (text : str) :
  a <= b -> b <= c -> all_space (slice a c text) -> all_space (slice a b text).
Proof.
  intros Hab Hbc H. rewrite (slice_app a b c) in H by assumption.
  apply Forall_app in H. tauto.
Qed.

Lemma append_if_nonempty_incl acc s pos p :
  In p acc -> In p (append_if_nonempty acc s pos).
Proof.
  unfold append_if_nonempty. destruct (nonempty s); [|trivial].
  intros H. apply in_or_app. left. exact H.
Qed.

Lemma append_if_nonempty_covers acc s pos t :
  In t (words s) -> seg_covered t (append_if_nonempty acc s pos).
Proof.
  intros H. unfold append_if_nonempty.
  rewrite (words_nonempty s t H).
  exists (s, pos). split; [apply in_or_app; right; left; reflexivity|exact H].
Qed.

Lemma gen_loop_cover ext text :
  ext <= 1 ->
  forall ms cp acc,
    cp <= length text ->
    spans_ok text cp ms ->
    (forall p, In p acc -> In p (fst (gen_loop ext text ms cp acc)))
    /\ forall t, In t (words (skipn cp text)) ->
         seg_covered t (fst (gen_loop ext text ms cp acc))
         \/ In t (words (skipn (snd (gen_loop ext text ms cp acc)) text)).
Proof.
  intros Hext. induction ms as [|[a b] ms IH]; intros cp acc Hcp Hok; simpl.
  - split; [trivial|]. intros t Ht. right. exact Ht.
  - simpl in Hok. destruct Hok as (Hcpa & Hab & Hb & Hsp & Hok).
    set (seg := strip (slice cp (a + ext) text)).
    destruct (IH b (append_if_nonempty acc seg cp) Hb Hok) as [Hincl Hcov].
    split.
    + intros p Hp. apply Hincl, append_if_nonempty_incl, Hp.
    + intros t Ht.
      rewrite (skipn_slice cp a) in Ht by assumption.
      rewrite (skipn_slice a b) in Ht by lia.
      rewrite words_sep in Ht.
      * apply in_app_or in Ht. destruct Ht as [Ht|Ht].
        -- left.
           assert (Hseg : In t (words seg)).
           { unfold seg. rewrite words_strip.
             rewrite (slice_app cp a (a + ext)) by lia.
             rewrite words_space_r; [exact Ht|].
             apply (all_space_slice_prefix a (a + ext) b); [lia|lia|exact Hsp]. }
           destruct (append_if_nonempty_covers acc seg cp t Hseg) as [p [Hp Hw]].
           exists p. split; [apply Hincl, Hp|exact Hw].
        -- apply Hcov, Ht.
      * exact Hsp.
      * intros E. apply (f_equal (@length ascii)) in E.
        rewrite slice_length in E by lia. simpl in E. lia.
Qed.

(** The tail of both split functions: the last piece. *)
Lemma split_tail_cover text cp acc t :
  (seg_covered t acc \/ In t (words (skipn cp text))) ->
  seg_covered t
    (if (cp <? length text)%nat
     then append_if_nonempty acc (strip (skipn cp text)) cp
     else acc).
Proof.
  intros [[p [Hp Hw]]|Ht].
  - exists p. split; [|exact Hw].
    destruct (cp <? length text)%nat; [apply append_if_nonempty_incl|]; exact Hp.
  - destruct (cp <? length text)%nat eqn:E.
    + apply append_if_nonempty_covers. rewrite words_strip. exact Ht.
    + apply Nat.ltb_ge in E. rewrite skipn_all2 in Ht by lia. destruct Ht.
Qed.

Lemma split_into_paragraphs_cover text t :
  In t (words text) -> seg_covered t (split_into_paragraphs text).
Proof.
  intros Ht. unfold split_into_paragraphs.
  rewrite paragraphs_loop_gen.
  destruct (gen_loop_cover 0 text (Nat.le_0_l 1)
              (finditer match_blank_line text) 0 [] (Nat.le_0_l _)
              (finditer_spans _ text match_blank_line_space)) as [_ Hcov].
  specialize (Hcov t Ht).
  destruct (gen_loop 0 text (finditer match_blank_line text) 0 []) as [acc cp].
  apply split_tail_cover. exact Hcov.
Qed.

Lemma split_into_sentences_cover text t :
  In t (words text) -> seg_covered t (split_into_sentences text).
Proof.
  intros Ht. unfold split_into_sentences.
  rewrite sentences_loop_gen.
  destruct (gen_loop_cover 1 text (Nat.le_refl 1)
              (finditer match_sentence_gap text) 0 [] (Nat.le_0_l _)
              (finditer_spans _ text match_sentence_gap_space)) as [_ Hcov].
  specialize (Hcov t Ht).
  destruct (gen_loop 1 text (finditer match_sentence_gap text) 0 []) as [acc cp].
  apply split_tail_cover. exact Hcov.
Qed.

End SplitFacts.

Module ChunkingFacts.
Import PyStr TextProps PyStrFacts ScanProps ScanFacts SplitProps SplitFacts Chunking ChunkingProps.
Local Open Scope Z_scope.

Lemma blank_line_space : all_space (lit "

") /\ lit "

" <> [].
Proof. split; [repeat constructor|discriminate]. Qed.

Lemma blank_space : all_space (lit " ") /\ lit " " <> [].
Proof. split; [repeat constructor|discriminate]. Qed.

Lemma words_join2 a b : words (a ++ lit "

" ++ b) = words a ++ words b.
Proof. apply words_sep; apply blank_line_space. Qed.

Lemma words_join1 a b : words (a ++ lit " " ++ b) = words a ++ words b.
Proof. apply words_sep; apply blank_space. Qed.

Lemma chunk_covered_app_l t cs cs' :
  chunk_covered t cs -> chunk_covered t (cs ++ cs').
Proof. intros [c [Hc Hw]]. exists c. split; [apply in_or_app; left|]; assumption. Qed.

Lemma chunk_covered_last t cs c :
  In t (words (content c)) -> chunk_covered t (cs ++ [c]).
Proof.
  intros Hw. exists c. split; [apply in_or_app; right; left; reflexivity|exact Hw].
Qed.

Lemma finalize_words text st : words (content (finalize text st)) = words (st_text st).
Proof. simpl. apply words_strip. Qed.

(** *** First pass *)

Lemma chunk_step_cover text max_tokens overlap_chars st p t :
  chunk_covered t (st_chunks st) \/ In t (words (st_text st))
  \/ In t (words (fst p)) ->
  chunk_covered t (st_chunks (chunk_step text max_tokens overlap_chars st p))
  \/ In t (words (st_text (chunk_step text max_tokens overlap_chars st p))).
Proof.
  destruct p as [para_text para_start]. unfold chunk_step. simpl fst.
  intros H.
  destruct (nonempty (st_text st)
            && (max_tokens <? estimate_tokens (st_text st) + estimate_tokens para_text))
    eqn:Hfull.
  - destruct ((0 <? overlap_chars) && (overlap_chars <? len (st_text st)));
      cbn [st_chunks st_text].
    + destruct H as [H|[H|H]].
      * left. apply chunk_covered_app_l, H.
      * left. apply chunk_covered_last. rewrite finalize_words. exact H.
      * right. rewrite words_join2. apply in_or_app. right. exact H.
    + destruct H as [H|[H|H]].
      * left. apply chunk_covered_app_l, H.
      * left. apply chunk_covered_last. rewrite finalize_words. exact H.
      * right. exact H.
  - destruct (nonempty (st_text st)) eqn:Hne; cbn [st_chunks st_text].
    + destruct H as [H|[H|H]].
      * left. exact H.
      * right. rewrite words_join2. apply in_or_app. left. exact H.
      * right. rewrite words_join2. apply in_or_app. right. exact H.
    + destruct H as [H|[H|H]].
      * left. exact H.
      * apply words_nonempty in H. congruence.
      * right. exact H.
Qed.

Lemma chunk_loop_cover text max_tokens overlap_chars ps : forall st t,
  chunk_covered t (st_chunks st) \/ In t (words (st_text st))
  \/ seg_covered t ps ->
  let st' := fold_left (chunk_step text max_tokens overlap_chars) ps st in
  chunk_covered t (st_chunks st') \/ In t (words (st_text st')).
Proof.
  induction ps as [|p ps IH]; intros st t H; simpl.
  - destruct H as [H|[H|[q [[] _]]]]; [left|right]; exact H.
  - apply IH.
    destruct H as [H|[H|[q [[<-|Hq] Hw]]]].
    + destruct (chunk_step_cover text max_tokens overlap_chars st p t) as [H'|H'];
        [left; exact H|left; exact H'|right; left; exact H'].
    + destruct (chunk_step_cover text max_tokens overlap_chars st p t) as [H'|H'];
        [right; left; exact H|left; exact H'|right; left; exact H'].
    + destruct (chunk_step_cover text max_tokens overlap_chars st p t) as [H'|H'];
        [right; right; exact Hw|left; exact H'|right; left; exact H'].
    + right. right. exists q. split; assumption.
Qed.

Lemma first_pass_cover text max_tokens overlap_tokens t :
  In t (words text) ->
  chunk_covered t (first_pass text max_tokens overlap_tokens).
Proof.
  intros Ht. unfold first_pass.
  set (ps := match split_into_paragraphs text with
             | [] => [(strip text, 0%nat)]
             | p :: l => p :: l
             end).
  assert (Hps : seg_covered t ps).
  { unfold ps. pose proof (split_into_paragraphs_cover text t Ht) as Hc.
    destruct (split_into_paragraphs text) as [|p l]; [|exact Hc].
    exists (strip text, 0%nat). split; [left; reflexivity|].
    simpl. rewrite words_strip. exact Ht. }
  pose proof (chunk_loop_cover text max_tokens (tokens_to_chars overlap_tokens) ps
                {| st_chunks := []; st_chunk_index := 0; st_text := []; st_start := 0 |}
                t (or_intror (or_intror Hps))) as H.
  cbv zeta in H.
  set (st := fold_left _ ps _) in *.
  destruct (nonempty (strip (st_text st))) eqn:Hne.
  - destruct H as [H|H].
    + apply chunk_covered_app_l, H.
    + apply chunk_covered_last. rewrite finalize_words. exact H.
  - destruct H as [H|H]; [exact H|].
    rewrite (words_strip_empty _ Hne) in H. destruct H.
Qed.

(** *** Merge repair *)

Lemma merge_loop_cover min_tokens rest : forall current t,
  In t (words (content current)) \/ chunk_covered t rest ->
  chunk_covered t (merge_loop min_tokens current rest).
Proof.
  induction rest as [|n rest IH]; intros current t H; simpl.
  - destruct H as [H|[c [[] _]]]. exists current. split; [left; reflexivity|exact H].
  - destruct (token_count current <? min_tokens).
    + apply IH. destruct H as [H|[c [[<-|Hc] Hw]]].
      * left. unfold merge_pair; cbn [content]. rewrite words_join2. apply in_or_app. left. exact H.
      * left. unfold merge_pair; cbn [content]. rewrite words_join2. apply in_or_app. right. exact Hw.
      * right. exists c. split; assumption.
    + destruct H as [H|[c [[<-|Hc] Hw]]].
      * exists current. split; [left; reflexivity|exact H].
      * destruct (IH n t (or_introl Hw)) as [c' [Hc' Hw']].
        exists c'. split; [right; exact Hc'|exact Hw'].
      * destruct (IH n t) as [c' [Hc' Hw']].
        { right. exists c. split; assumption. }
        exists c'. split; [right; exact Hc'|exact Hw'].
Qed.

Lemma merge_small_chunks_cover chunks min_tokens t :
  chunk_covered t chunks -> chunk_covered t (_merge_small_chunks chunks min_tokens).
Proof.
  intros H. unfold _merge_small_chunks.
  destruct chunks as [|c [|c' rest]]; [exact H|exact H|].
  apply merge_loop_cover.
  destruct H as [x [[<-|Hx] Hw]]; [left; exact Hw|right].
  exists x. split; assumption.
Qed.

(** *** Split repair *)

Lemma split_step_cover chunk max_tokens st s t :
  split_state_covered t st \/ In t (words (fst s)) ->
  split_state_covered t (split_step chunk max_tokens st s).
Proof.
  destruct st as [[result current_text] current_start].
  destruct s as [sentence rel_pos].
  unfold split_state_covered, split_step. cbn [fst snd].
  intros H.
  destruct (nonempty current_text
            && (max_tokens <? estimate_tokens current_text + estimate_tokens sentence));
    cbn [fst snd].
  - destruct H as [[H|H]|H].
    + left. apply chunk_covered_app_l, H.
    + left. apply chunk_covered_last. simpl. rewrite words_strip. exact H.
    + right. exact H.
  - destruct (nonempty current_text) eqn:Hne.
    + rewrite words_join1.
      destruct H as [[H|H]|H]; [left; exact H|right..]; apply in_or_app; tauto.
    + destruct H as [[H|H]|H]; [left; exact H| |right; exact H].
      apply words_nonempty in H. congruence.
Qed.

Lemma split_loop_cover chunk max_tokens sentences : forall st t,
  split_state_covered t st \/ seg_covered t sentences ->
  split_state_covered t (fold_left (split_step chunk max_tokens) sentences st).
Proof.
  induction sentences as [|s ss IH]; intros st t H; simpl.
  - destruct H as [H|[q [[] _]]]. exact H.
  - apply IH. destruct H as [H|[q [[<-|Hq] Hw]]].
    + left. apply split_step_cover. left. exact H.
    + left. apply split_step_cover. right. exact Hw.
    + right. exists q. split; assumption.
Qed.

Lemma split_one_cover max_tokens result chunk t :
  chunk_covered t result \/ In t (words (content chunk)) ->
  chunk_covered t (split_one max_tokens result chunk).
Proof.
  intros H. unfold split_one.
  destruct (token_count chunk <=? max_tokens).
  - destruct H as [H|H]; [apply chunk_covered_app_l, H|apply chunk_covered_last, H].
  - pose proof (split_loop_cover chunk max_tokens
                  (split_into_sentences (content chunk))
                  (result, [], start_char chunk) t) as Hl.
    destruct (fold_left _ _ _) as [[result' current_text] current_start].
    assert (Hc : split_state_covered t (result', current_text, current_start)).
    { apply Hl. destruct H as [H|H].
      - left. left. exact H.
      - right. apply split_into_sentences_cover, H. }
    unfold split_state_covered in Hc. simpl in Hc.
    destruct (nonempty (strip current_text)) eqn:Hne.
    + destruct Hc as [Hc|Hc]; [apply chunk_covered_app_l, Hc|].
      apply chunk_covered_last. simpl. rewrite words_strip. exact Hc.
    + destruct Hc as [Hc|Hc]; [exact Hc|].
      rewrite (words_strip_empty _ Hne) in Hc. destruct Hc.
Qed.

Lemma split_fold_cover max_tokens chunks : forall result t,
  chunk_covered t result \/ chunk_covered t chunks ->
  chunk_covered t (fold_left (split_one max_tokens) chunks result).
Proof.
  induction chunks as [|c cs IH]; intros result t H; simpl.
  - destruct H as [H|[x [[] _]]]. exact H.
  - apply IH. destruct H as [H|[x [[<-|Hx] Hw]]].
    + left. apply split_one_cover. left. exact H.
    + left. apply split_one_cover. right. exact Hw.
    + right. exists x. split; assumption.
Qed.

Lemma split_large_chunks_cover chunks max_tokens t :
  chunk_covered t chunks -> chunk_covered t (_split_large_chunks chunks max_tokens).
Proof. intros H. apply split_fold_cover. right. exact H. Qed.

Lemma reindex_cover chunks : forall i t,
  chunk_covered t chunks -> chunk_covered t (reindex i chunks).
Proof.
  induction chunks as [|c cs IH]; intros i t [x [Hx Hw]]; [destruct Hx|].
  simpl. destruct Hx as [<-|Hx].
  - eexists. split; [left; reflexivity|exact Hw].
  - destruct (IH (i + 1) t) as [y [Hy Hyw]]; [exists x; split; assumption|].
    exists y. split; [right; exact Hy|exact Hyw].
Qed.

End ChunkingFacts.

Module ChunkingClaims.
Import PyStr TextProps PyStrFacts ScanProps ScanFacts SplitProps SplitFacts Chunking ChunkingProps ChunkingFacts ScenarioProps.
Local Open Scope Z_scope.

(** C1. For every text and every choice of file type, minimum, maximum
    and overlap, every whitespace-delimited token of the text is a token
    of the content of one of the chunks [chunk_text] returns; hence it
    occurs in the concatenation of the chunk contents taken in order,
    and it is a token of the contents joined by a space: no token of the
    input is dropped. *)
Theorem chunk_text_preserves_tokens
    (text file_type : str) (min_tokens max_tokens overlap_tokens : Z) (t : str) :
  In t (words text) ->
  chunk_covered t (chunk_text text file_type min_tokens max_tokens overlap_tokens)
  /\ infix t (concat (map content
       (chunk_text text file_type min_tokens max_tokens overlap_tokens)))
  /\ In t (words (join (lit " ") (map content
       (chunk_text text file_type min_tokens max_tokens overlap_tokens)))).
Proof.
  intros Ht.
  assert (Hcov : chunk_covered t
            (chunk_text text file_type min_tokens max_tokens overlap_tokens)).
  { unfold chunk_text.
    assert (Hne : nonempty (strip text) = true).
    { apply (words_nonempty _ t). rewrite words_strip. exact Ht. }
    rewrite Hne.
    apply reindex_cover, split_large_chunks_cover, merge_small_chunks_cover,
      first_pass_cover, Ht. }
  split; [exact Hcov|].
  destruct Hcov as [c [Hc Hw]].
  split.
  - apply (infix_trans _ (content c)).
    + apply words_infix, Hw.
    + apply infix_concat, in_map, Hc.
  - rewrite words_join by apply blank_space.
    apply in_concat. exists (words (content c)).
    split; [apply in_map, in_map, Hc|exact Hw].
Qed.

Lemma chunk_text_preserves_tokens_witness :
  In (lit "beta") (words (lit "alpha beta

gamma"))
  /\ chunk_covered (lit "beta")
       (chunk_text (lit "alpha beta

gamma") (lit "txt") 1 2 1).
Proof.
  split.
  - vm_compute. tauto.
  - apply (chunk_text_preserves_tokens _ (lit "txt") 1 2 1 (lit "beta")).
    vm_compute. tauto.
Defined.

(** *** Merge repair *)

Lemma merge_floor_counterexample :
  ~ merge_floor_claim [chunk_of_size 500; chunk_of_size 10] 300.
Proof.
  unfold merge_floor_claim. intros H.
  destruct (H ltac:(simpl; lia)) as [HF|HL].
  - vm_compute in HF. inversion HF as [|? ? _ HF']. inversion HF' as [|? ? Hbad _].
    apply Hbad. reflexivity.
  - vm_compute in HL. discriminate.
Qed.

Lemma join_cons (sep a : str) (rest : list str) :
  rest <> [] -> join sep (a :: rest) = a ++ sep ++ join sep rest.
Proof. destruct rest; [congruence|reflexivity]. Qed.

Lemma merge_loop_nonempty min_tokens rest current :
  merge_loop min_tokens current rest <> [].
Proof.
  revert current. induction rest as [|n rest IH]; intros current; simpl.
  - discriminate.
  - destruct (token_count current <? min_tokens); [apply IH|discriminate].
Qed.

Lemma merge_loop_floor min_tokens rest : forall current,
  Forall (fun c => min_tokens <= token_count c)
    (removelast (merge_loop min_tokens current rest)).
Proof.
  induction rest as [|n rest IH]; intros current; simpl.
  - constructor.
  - destruct (token_count current <? min_tokens) eqn:E; [apply IH|].
    apply Z.ltb_ge in E.
    change (current :: merge_loop min_tokens n rest)
      with ([current] ++ merge_loop min_tokens n rest).
    rewrite removelast_app by apply merge_loop_nonempty.
    constructor; [exact E|apply IH].
Qed.

Lemma merge_loop_join min_tokens rest : forall current,
  join (lit "

") (map content (merge_loop min_tokens current rest))
  = join (lit "

") (map content (current :: rest)).
Proof.
  induction rest as [|n rest IH]; intros current; [reflexivity|].
  cbn [merge_loop]. destruct (token_count current <? min_tokens).
  - rewrite IH. cbn [map]. unfold merge_pair at 1. cbn [content].
    destruct rest as [|n' rest].
    + cbn [map join]. rewrite <- ?app_assoc. reflexivity.
    + rewrite !join_cons by discriminate. rewrite <- !app_assoc. reflexivity.
  - cbn [map]. rewrite join_cons.
    + rewrite IH. cbn [map]. reflexivity.
    + intros E. apply map_eq_nil in E. exact (merge_loop_nonempty _ _ _ E).
Qed.

Lemma run_tokens_app a b : run_tokens (a ++ b) = run_tokens a + run_tokens b.
Proof.
  induction a as [|c a IH]; simpl; [reflexivity|]. unfold run_tokens in *.
  simpl. rewrite IH. lia.
Qed.

Lemma join_snoc (sep x : str) (l : list str) :
  l <> [] -> join sep (l ++ [x]) = join sep l ++ sep ++ x.
Proof.
  induction l as [|a l IH]; [congruence|]. intros _.
  destruct l as [|b l]; [reflexivity|].
  change ((a :: b :: l) ++ [x]) with (a :: (b :: l) ++ [x]).
  rewrite join_cons by (simpl; discriminate).
  rewrite IH by discriminate. rewrite (join_cons sep a (b :: l)) by discriminate.
  rewrite <- !app_assoc. reflexivity.
Qed.

Lemma merged_of_single c : merged_of [c] c.
Proof.
  unfold merged_of, run_tokens. simpl. repeat split. lia.
Qed.

Lemma merged_of_snoc g cur n :
  merged_of g cur -> merged_of (g ++ [n]) (merge_pair cur n).
Proof.
  destruct g as [|first g']; [intros []|].
  intros (Hc & Hl & Hi & Hs & He & Ht).
  unfold merged_of. cbn [app]. unfold merge_pair.
  cbn [content page_or_section chunk_index start_char end_char token_count].
  repeat split; try assumption.
  - change (first :: g' ++ [n]) with ((first :: g') ++ [n]).
    rewrite map_app. cbn [map]. rewrite join_snoc by discriminate.
    rewrite Hc. reflexivity.
  - change (first :: g' ++ [n]) with ((first :: g') ++ [n]).
    rewrite last_last. reflexivity.
  - change (first :: g' ++ [n]) with ((first :: g') ++ [n]).
    rewrite run_tokens_app, Ht. unfold run_tokens. simpl. lia.
Qed.

Lemma minimal_run_snoc min_tokens g n :
  minimal_run min_tokens g -> run_tokens g < min_tokens ->
  minimal_run min_tokens (g ++ [n]).
Proof.
  intros Hm Hg k Hk. rewrite length_app in Hk. simpl in Hk.
  rewrite firstn_app.
  destruct (Nat.eq_dec k (length g)) as [->|Hne].
  - rewrite Nat.sub_diag, firstn_all. simpl. rewrite app_nil_r. exact Hg.
  - replace (k - length g)%nat with O by lia. simpl. rewrite app_nil_r.
    apply Hm. lia.
Qed.

Lemma merge_loop_runs min_tokens rest : forall current g0,
  merged_of g0 current -> minimal_run min_tokens g0 ->
  exists runs,
    concat runs = g0 ++ rest
    /\ Forall2 merged_of runs (merge_loop min_tokens current rest)
    /\ Forall (minimal_run min_tokens) runs
    /\ Forall (fun g => min_tokens <= run_tokens g) (removelast runs).
Proof.
  induction rest as [|n rest IH]; intros current g0 Hg Hm.
  - exists [g0]. simpl. repeat split.
    + repeat constructor. exact Hg.
    + repeat constructor. exact Hm.
    + constructor.
  - cbn [merge_loop]. destruct (token_count current <? min_tokens) eqn:E.
    + apply Z.ltb_lt in E.
      assert (Ht : run_tokens g0 < min_tokens).
      { destruct g0 as [|f g']; [destruct Hg|].
        destruct Hg as (_ & _ & _ & _ & _ & Ht). rewrite <- Ht. exact E. }
      destruct (IH (merge_pair current n) (g0 ++ [n])
                  (merged_of_snoc _ _ _ Hg) (minimal_run_snoc _ _ _ Hm Ht))
        as (runs & Hc & H2 & H3 & H4).
      exists runs. rewrite Hc, <- app_assoc. repeat split; assumption.
    + apply Z.ltb_ge in E.
      assert (Ht : min_tokens <= run_tokens g0).
      { destruct g0 as [|f g']; [destruct Hg|].
        destruct Hg as (_ & _ & _ & _ & _ & Ht). rewrite <- Ht. exact E. }
      destruct (IH n [n] (merged_of_single n)) as (runs & Hc & H2 & H3 & H4).
      { intros k Hk. simpl in Hk. lia. }
      exists (g0 :: runs). cbn [concat]. rewrite Hc. repeat split.
      * constructor; assumption.
      * constructor; assumption.
      * assert (Hne : runs <> []).
        { intros ->. simpl in Hc. discriminate Hc. }
        change (g0 :: runs) with ([g0] ++ runs).
        rewrite removelast_app by exact Hne. constructor; assumption.
Qed.

Lemma merge_loop_snoc min_tokens c rest : forall current,
  min_tokens <= token_count (List.last (merge_loop min_tokens current rest) c) ->
  merge_loop min_tokens current (rest ++ [c])
  = merge_loop min_tokens current rest ++ [c].
Proof.
  induction rest as [|n rest IH]; intros current H.
  - simpl in H. simpl. destruct (token_count current <? min_tokens) eqn:E;
      [apply Z.ltb_lt in E; lia|reflexivity].
  - cbn [app merge_loop] in *.
    destruct (token_count current <? min_tokens); [apply IH, H|].
    cbn [app]. f_equal. apply IH.
    destruct (merge_loop min_tokens n rest) as [|x l] eqn:El;
      [exact (False_ind _ (merge_loop_nonempty _ _ _ El))|exact H].
Qed.

Lemma merge_small_chunks_loop chunks min_tokens c rest :
  chunks = c :: rest ->
  _merge_small_chunks chunks min_tokens = merge_loop min_tokens c rest.
Proof. intros ->. destruct rest; reflexivity. Qed.

(** C4 (as the code has it). The merge-repair pass cuts the list into
    runs of consecutive chunks and merges each run into one chunk: a
    run is closed as soon as it meets the floor, so a chunk below the
    floor takes in its successors until it meets the floor or none is
    left, every chunk of the result but the last meets the floor, and
    only the last may stay below; a last chunk whose predecessors end
    in a chunk that meets the floor is kept as it is, not merged into
    its predecessor; the contents, joined by blank lines, are those of
    the input. *)
Theorem merge_small_chunks_floor (chunks : list TextChunk) (min_tokens : Z) :
  (exists runs,
     concat runs = chunks
     /\ Forall2 merged_of runs (_merge_small_chunks chunks min_tokens)
     /\ Forall (minimal_run min_tokens) runs
     /\ Forall (fun g => min_tokens <= run_tokens g) (removelast runs))
  /\ Forall (fun c => min_tokens <= token_count c)
       (removelast (_merge_small_chunks chunks min_tokens))
  /\ (forall front c,
        chunks = front ++ [c] -> front <> [] ->
        min_tokens
        <= token_count (List.last (_merge_small_chunks front min_tokens) c) ->
        _merge_small_chunks chunks min_tokens
        = _merge_small_chunks front min_tokens ++ [c])
  /\ join (lit "

") (map content (_merge_small_chunks chunks min_tokens))
     = join (lit "

") (map content chunks).
Proof.
  split; [|split; [|split]].
  - destruct chunks as [|c rest].
    + exists []. repeat split; constructor.
    + rewrite (merge_small_chunks_loop _ min_tokens c rest eq_refl).
      destruct (merge_loop_runs min_tokens rest c [c] (merged_of_single c))
        as (runs & Hc & H2 & H3 & H4).
      { intros k Hk. simpl in Hk. lia. }
      exists runs. repeat split; assumption.
  - unfold _merge_small_chunks.
    destruct chunks as [|c [|c' rest]]; [constructor|constructor|].
    apply merge_loop_floor.
  - intros front c -> Hne Hlast.
    destruct front as [|f fr]; [congruence|].
    rewrite (merge_small_chunks_loop (f :: fr) min_tokens f fr eq_refl) in *.
    rewrite (merge_small_chunks_loop ((f :: fr) ++ [c]) min_tokens f (fr ++ [c]) eq_refl).
    apply merge_loop_snoc, Hlast.
  - unfold _merge_small_chunks.
    destruct chunks as [|c [|c' rest]]; [reflexivity|reflexivity|].
    apply merge_loop_join.
Qed.

(** Chunks of 500 and 10 tokens under a floor of 300 come back as they
    are: the first run is closed at 500, and the last chunk stays at 10. *)
Example merge_tail_scenario :
  _merge_small_chunks [chunk_of_size 500; chunk_of_size 10] 300
  = [chunk_of_size 500; chunk_of_size 10].
Proof. reflexivity. Qed.

(** *** The scenario of the heading followed by 500 words *)

Lemma scenario_counterexample : ~ scenario_claim.
Proof.
  intros [H _]. vm_compute in H. lia.
Qed.

(** C7 (as the code has it). With [max_tokens = 200] and the default
    minimum of 300 and overlap of 100, the heading and the 500 words
    come out as one chunk: the heading chunk is below the minimum and
    is merged with the words, the merged chunk has no sentence boundary
    to split at, and it keeps the label of its first part, which starts
    at offset 0 and so has none. *)
Theorem scenario_single_chunk :
  scenario_chunks =
  [ {| content := strip intro_doc; page_or_section := None; chunk_index := 0;
       start_char := 0; end_char := 2508; token_count := 627 |} ].
Proof. vm_compute. reflexivity. Qed.

(** With no minimum there are two chunks; the first is the heading
    itself and has no label, the second is labelled with the heading
    in the form [## Intro]. *)
Example scenario_without_merge :
  map (fun c => (page_or_section c, start_char c, token_count c))
      (chunk_text intro_doc (lit "md") 0 200 OVERLAP_TOKENS)
  = [(None, 0, 1); (Some (lit "## Intro"), 9, 624)].
Proof. vm_compute. reflexivity. Qed.

End ChunkingClaims.

Module RetrievalFacts.
Import PyStr TextProps PyStrFacts Models Retrieval RetrievalProps.
Local Open Scope Z_scope.

Lemma int_or_nonzero v d : d <> 0 -> int_or v d <> 0.
Proof.
  intros Hd. unfold int_or. destruct v as [n|]; [|exact Hd].
  destruct (n =? 0) eqn:E; [exact Hd|]. apply Z.eqb_neq. exact E.
Qed.

Lemma get_source_by_id_nonzero db sid src :
  get_source_by_id db sid = Some src -> trust_level src <> 0.
Proof.
  unfold get_source_by_id. destruct (sources db !! sid); [|discriminate].
  intros [= <-]. simpl. apply int_or_nonzero. discriminate.
Qed.

Lemma resolve_hit_well_formed db tf h r :
  resolve_hit db tf h = Some r ->
  well_formed db tf r /\ sr_similarity_score r = hit_similarity h.
Proof.
  unfold resolve_hit.
  destruct (get_chunk_by_id db (hit_chunk_id h)) as [c|]; [|discriminate].
  destruct (get_source_by_id db (source_id c)) as [src|] eqn:Hsrc; [|discriminate].
  destruct tf as [t|].
  - destruct (t <? trust_level src) eqn:E; [discriminate|].
    intros [= <-]. split; [|reflexivity]. exists src. simpl.
    repeat split; try assumption.
    + eapply get_source_by_id_nonzero, Hsrc.
    + apply Z.ltb_ge. exact E.
  - intros [= <-]. split; [|reflexivity]. exists src. simpl.
    repeat split; try assumption.
    eapply get_source_by_id_nonzero, Hsrc.
Qed.

Lemma resolve_hit_stale db tf h :
  resolvable db h = false -> resolve_hit db tf h = None.
Proof.
  unfold resolvable, resolve_hit.
  destruct (get_chunk_by_id db (hit_chunk_id h)) as [c|]; [|reflexivity].
  destruct (get_source_by_id db (source_id c)); [discriminate|reflexivity].
Qed.

Lemma collect_results_well_formed db tf hits r :
  In r (collect_results db tf hits) -> well_formed db tf r.
Proof.
  induction hits as [|h hs IH]; simpl; [intros []|].
  destruct (resolve_hit db tf h) as [r'|] eqn:E; [|exact IH].
  intros [<-|H]; [|exact (IH H)].
  apply (resolve_hit_well_formed db tf h). exact E.
Qed.

Lemma collect_results_skips_stale db tf hits :
  collect_results db tf hits
  = collect_results db tf (List.filter (resolvable db) hits).
Proof.
  induction hits as [|h hs IH]; simpl; [reflexivity|].
  destruct (resolvable db h) eqn:E; simpl.
  - destruct (resolve_hit db tf h); rewrite IH; reflexivity.
  - rewrite (resolve_hit_stale db tf h E). exact IH.
Qed.

(** *** Floats *)

(** Rounding to an integer goes to a nearest one. *)
Lemma round_half_even_nearest x :
  (Qabs (inject_Z (PyFloat.round_half_even x) - x) <= 1 # 2)%Q.
Proof.
  unfold PyFloat.round_half_even.
  pose proof (Qfloor_le x) as Hl. pose proof (Qlt_floor x) as Hu.
  rewrite inject_Z_plus in Hu. change (inject_Z 1) with 1%Q in Hu.
  apply Qabs_Qle_condition.
  destruct (Qcompare (x - inject_Z (Qfloor x)) (1 # 2)) eqn:E.
  - apply Qeq_alt in E.
    destruct (Z.even (Qfloor x));
      [|rewrite inject_Z_plus; change (inject_Z 1) with 1%Q]; split; lra.
  - apply Qlt_alt in E. split; lra.
  - apply Qgt_alt in E. rewrite inject_Z_plus. change (inject_Z 1) with 1%Q.
    split; lra.
Qed.

(** The floats [1/3] and [0.1], as [float.as_integer_ratio] gives them. *)
Example round64_third :
  PyFloat.round64 (1 # 3) = (6004799503160661 # 18014398509481984)%Q
  /\ PyFloat.round64 (1 # 10) = (3602879701896397 # 36028797018963968)%Q.
Proof. split; vm_compute; reflexivity. Qed.

(** Half-way cases go to the even significand: [2 ** 53 + 1] rounds
    down, [2 ** 53 + 3] rounds up. *)
Example round64_ties_to_even :
  PyFloat.of_int (2 ^ 53 + 1) = inject_Z (2 ^ 53)
  /\ PyFloat.of_int (2 ^ 53 + 3) = inject_Z (2 ^ 53 + 4).
Proof. split; vm_compute; reflexivity. Qed.

(** Below the normal range the last place stays at [2 ** -1074]: half
    of it rounds to 0, three halves of it to twice it. *)
Example round64_subnormal :
  PyFloat.round64 (PyFloat.pow2 (-1075)) = 0%Q
  /\ (PyFloat.round64 (3 * PyFloat.pow2 (-1075)) == PyFloat.pow2 (-1073))%Q.
Proof. split; vm_compute; reflexivity. Qed.

(** A float is left as it is, and the product of a float with the weight
    1.0 is that float. *)
Example round64_of_float :
  PyFloat.round64 (6004799503160661 # 18014398509481984)
  = (6004799503160661 # 18014398509481984)%Q
  /\ PyFloat.fmul (6004799503160661 # 18014398509481984)
       (PyFloat.fdiv 1 (PyFloat.of_int 1))
     = (6004799503160661 # 18014398509481984)%Q.
Proof. split; vm_compute; reflexivity. Qed.

Lemma well_formed_score db tf r :
  well_formed db tf r ->
  exists src, sr_source r = Some src /\ trust_level src <> 0
    /\ trust_weight r = Some (PyFloat.fdiv 1 (PyFloat.of_int (trust_level src)))
    /\ weighted_score r
       = Some (PyFloat.fmul (sr_similarity_score r)
                 (PyFloat.fdiv 1 (PyFloat.of_int (trust_level src)))).
Proof.
  intros (src & Hs & _ & Hnz & _). exists src.
  assert (Hw : trust_weight r
               = Some (PyFloat.fdiv 1 (PyFloat.of_int (trust_level src)))).
  { unfold trust_weight. rewrite Hs.
    destruct (trust_level src =? 0) eqn:E; [|reflexivity].
    apply Z.eqb_eq in E. contradiction. }
  repeat split; try assumption.
  unfold weighted_score. rewrite Hw. reflexivity.
Qed.

Lemma with_keys_total db tf rs :
  (forall r, In r rs -> well_formed db tf r) ->
  exists keyed, with_keys rs = Some keyed /\ map snd keyed = rs
    /\ forall p, In p keyed -> weighted_score (snd p) = Some (fst p).
Proof.
  induction rs as [|r rs IH]; intros Hwf; simpl.
  - exists []. repeat split. intros p [].
  - destruct IH as (keyed & Hk & Hm & Hs); [intros; apply Hwf; right; assumption|].
    destruct (well_formed_score db tf r (Hwf r (or_introl eq_refl)))
      as (src & _ & _ & _ & Hscore).
    rewrite Hscore, Hk. eexists. split; [reflexivity|]. split.
    + simpl. rewrite Hm. reflexivity.
    + intros p [<-|Hp]; [exact Hscore|apply Hs, Hp].
Qed.

(** *** The sort *)

Lemma insert_desc_in x l p : In p (insert_desc x l) <-> p = x \/ In p l.
Proof.
  induction l as [|y l IH]; simpl.
  - split; [intros [<-|[]]; left; reflexivity|intros [->|[]]; left; reflexivity].
  - destruct (Qle_bool (fst x) (fst y)); simpl.
    + rewrite IH. split; [intros [H|[H|H]]|intros [H|[H|H]]]; auto.
    + split; [intros [H|[H|H]]|intros [H|[H|H]]]; auto.
Qed.

Lemma insert_desc_sorted x l :
  StronglySorted key_desc l -> StronglySorted key_desc (insert_desc x l).
Proof.
  induction 1 as [|y l Hs IH Hall]; simpl.
  - constructor; constructor.
  - destruct (Qle_bool (fst x) (fst y)) eqn:E.
    + constructor; [exact IH|].
      apply List.Forall_forall. intros p Hp. apply insert_desc_in in Hp.
      destruct Hp as [->|Hp].
      * apply Qle_bool_iff. exact E.
      * rewrite List.Forall_forall in Hall. apply Hall, Hp.
    + assert (Hlt : (fst y <= fst x)%Q).
      { apply Qlt_le_weak, Qnot_le_lt. intros H. apply Qle_bool_iff in H. congruence. }
      constructor; [constructor; assumption|].
      constructor; [exact Hlt|].
      rewrite List.Forall_forall in Hall. apply List.Forall_forall. intros p Hp.
      unfold key_desc. apply Qle_trans with (fst y); [apply Hall, Hp|exact Hlt].
Qed.

Lemma sort_desc_acc l : forall acc,
  StronglySorted key_desc acc ->
  StronglySorted key_desc (fold_left (fun a x => insert_desc x a) l acc)
  /\ forall p, In p (fold_left (fun a x => insert_desc x a) l acc)
               <-> In p l \/ In p acc.
Proof.
  induction l as [|x l IH]; intros acc Hacc; simpl.
  - split; [exact Hacc|]. intros p. tauto.
  - destruct (IH (insert_desc x acc) (insert_desc_sorted x acc Hacc)) as [Hs Hin].
    split; [exact Hs|]. intros p. rewrite Hin, insert_desc_in.
    split; [intros [H|[H|H]]|intros [[H|H]|H]]; auto.
Qed.

Lemma sort_desc_sorted l : StronglySorted key_desc (sort_desc l).
Proof. apply sort_desc_acc. constructor. Qed.

Lemma sort_desc_in l p : In p (sort_desc l) <-> In p l.
Proof.
  unfold sort_desc.
  destruct (sort_desc_acc l [] (SSorted_nil _)) as [_ H].
  rewrite H. simpl. tauto.
Qed.

Lemma insert_desc_length x l : length (insert_desc x l) = S (length l).
Proof.
  induction l as [|y l IH]; simpl; [reflexivity|].
  destruct (Qle_bool (fst x) (fst y)); simpl; [rewrite IH|]; reflexivity.
Qed.

Lemma insert_desc_perm x l : Permutation (insert_desc x l) (x :: l).
Proof.
  induction l as [|y l IH]; simpl; [reflexivity|].
  destruct (Qle_bool (fst x) (fst y)); [|reflexivity].
  apply perm_trans with (y :: x :: l); [apply perm_skip, IH|apply perm_swap].
Qed.

Lemma sort_desc_perm l : Permutation (sort_desc l) l.
Proof.
  unfold sort_desc.
  assert (H : forall acc,
            Permutation (fold_left (fun a x => insert_desc x a) l acc) (l ++ acc)).
  { induction l as [|x l IH]; intros acc; simpl; [reflexivity|].
    apply perm_trans with (l ++ insert_desc x acc); [apply IH|].
    apply perm_trans with (l ++ x :: acc).
    - apply Permutation_app_head, insert_desc_perm.
    - symmetry. apply Permutation_middle. }
  specialize (H []). rewrite app_nil_r in H. exact H.
Qed.

Lemma In_firstn_In {A} n (l : list A) x : In x (firstn n l) -> In x l.
Proof.
  revert n. induction l as [|y l IH]; intros [|n]; simpl; try tauto.
  intros [H|H]; [left; exact H|right; exact (IH n H)].
Qed.

Lemma StronglySorted_firstn {A} (R : A -> A -> Prop) n l :
  StronglySorted R l -> StronglySorted R (firstn n l).
Proof.
  intros H. revert n. induction H as [|x l Hs IH Hall]; intros [|n]; simpl;
    try constructor.
  - apply IH.
  - apply List.Forall_forall. intros y Hy. rewrite List.Forall_forall in Hall.
    apply Hall. eapply In_firstn_In. exact Hy.
Qed.

Lemma py_take_firstn {A} n (l : list A) : exists k, py_take n l = firstn k l.
Proof. unfold py_take. destruct (0 <=? n); eexists; reflexivity. Qed.

Lemma py_take_length {A} n (l : list A) :
  0 <= n -> Z.of_nat (length (py_take n l)) <= n.
Proof.
  intros Hn. unfold py_take.
  destruct (0 <=? n) eqn:E; [|apply Z.leb_gt in E; lia].
  rewrite length_firstn. lia.
Qed.

Lemma keyed_sorted_scores (keyed : list (Q * SearchResult)) :
  (forall p, In p keyed -> weighted_score (snd p) = Some (fst p)) ->
  StronglySorted key_desc keyed ->
  StronglySorted score_desc (map snd keyed).
Proof.
  intros Hk H. induction H as [|x l Hs IH Hall]; simpl; constructor.
  - apply IH. intros p Hp. apply Hk. right. exact Hp.
  - apply List.Forall_forall. intros r Hr. apply in_map_iff in Hr.
    destruct Hr as [p [<- Hp]]. rewrite List.Forall_forall in Hall.
    exists (fst x), (fst p). repeat split.
    + apply Hk. left. reflexivity.
    + apply Hk. right. exact Hp.
    + apply Hall, Hp.
Qed.

(** [search] never raises, and what it returns is a leading part of the
    resolvable, admitted hits in descending order of weighted score. *)
Lemma search_spec db search_similar n_results tf :
  exists rs, search db search_similar n_results tf = Some rs
    /\ (forall r, In r rs -> well_formed db tf r)
    /\ StronglySorted score_desc rs
    /\ (0 <= n_results -> Z.of_nat (length rs) <= n_results).
Proof.
  unfold search.
  set (results := collect_results db tf (search_similar (n_results * 2))).
  destruct (with_keys_total db tf results) as (keyed & Hk & Hm & Hs).
  { intros r. apply collect_results_well_formed. }
  rewrite Hk. eexists. split; [reflexivity|].
  destruct (py_take_firstn n_results (map snd (sort_desc keyed))) as [k Hk'].
  assert (Hsub : forall r, In r (map snd (sort_desc keyed)) -> In r results).
  { intros r Hr. apply in_map_iff in Hr. destruct Hr as [p [<- Hp]].
    apply (proj1 (sort_desc_in _ _)) in Hp. rewrite <- Hm. apply in_map, Hp. }
  repeat split.
  - intros r Hr. rewrite Hk' in Hr. apply In_firstn_In in Hr.
    apply (collect_results_well_formed db tf (search_similar (n_results * 2))).
    apply Hsub, Hr.
  - rewrite Hk'. apply StronglySorted_firstn, keyed_sorted_scores.
    + intros p Hp. apply Hs. apply (proj1 (sort_desc_in _ _)) in Hp. exact Hp.
    + apply sort_desc_sorted.
  - apply py_take_length.
Qed.

(** What [search] returns is the head of the candidates in descending
    order of weighted score: the candidates left out come after it. *)
Lemma search_top db search_similar n_results tf :
  0 <= n_results ->
  exists rs rest,
    search db search_similar n_results tf = Some rs
    /\ Permutation (rs ++ rest)
         (collect_results db tf (search_similar (n_results * 2)))
    /\ StronglySorted score_desc (rs ++ rest)
    /\ (rest <> [] -> Z.of_nat (length rs) = n_results).
Proof.
  intros Hn. unfold search.
  set (results := collect_results db tf (search_similar (n_results * 2))).
  destruct (with_keys_total db tf results) as (keyed & Hk & Hm & Hs).
  { intros r. apply collect_results_well_formed. }
  rewrite Hk. unfold py_take.
  destruct (0 <=? n_results) eqn:E; [|apply Z.leb_gt in E; lia].
  exists (firstn (Z.to_nat n_results) (map snd (sort_desc keyed))),
         (skipn (Z.to_nat n_results) (map snd (sort_desc keyed))).
  split; [reflexivity|]. rewrite firstn_skipn. split; [|split].
  - rewrite <- Hm. apply Permutation_map, sort_desc_perm.
  - apply keyed_sorted_scores; [|apply sort_desc_sorted].
    intros p Hp. apply Hs. apply (proj1 (sort_desc_in _ _)) in Hp. exact Hp.
  - intros Hrest.
    assert (Hlt : (Z.to_nat n_results < length (map snd (sort_desc keyed)))%nat).
    { destruct (Nat.lt_ge_cases (Z.to_nat n_results)
                  (length (map snd (sort_desc keyed)))) as [H|H]; [exact H|].
      exfalso. apply Hrest. apply skipn_all2. exact H. }
    rewrite length_firstn. lia.
Qed.

End RetrievalFacts.

Module RetrievalClaims.
Import PyStr TextProps PyStrFacts Models Retrieval RetrievalProps RetrievalFacts RankingProps.
Local Open Scope Z_scope.

(** *** A small store for examples *)

(** C2. [search] returns a list in which every result's weighted score
    is the float product of its similarity and the trust weight
    [1.0 / trust_level] of its owning document (weight 1.0 at level 1,
    0.5 at level 2, and at level 3 the float nearest to 1/3, which is
    within [2 ** -55] of it), which is in descending order of weighted
    score, and which has at most the requested number of results; it is
    the head of the candidates so ordered: the candidates left out come
    after it in the order, and some are left out only when the limit is
    reached. *)
Theorem search_ranked (db : Db) (search_similar : Z -> list Hit)
    (n_results : Z) (trust_filter : option Z) :
  0 < n_results ->
  exists rs rest,
    search db search_similar n_results trust_filter = Some rs
    /\ Permutation (rs ++ rest)
         (collect_results db trust_filter (search_similar (n_results * 2)))
    /\ StronglySorted score_desc (rs ++ rest)
    /\ (rest <> [] -> Z.of_nat (length rs) = n_results)
    /\ (forall r, In r rs ->
          exists src w,
            sr_source r = Some src
            /\ get_source_by_id db (source_id (chunk r)) = Some src
            /\ w = PyFloat.fdiv 1 (PyFloat.of_int (trust_level src))
            /\ trust_weight r = Some w
            /\ weighted_score r = Some (PyFloat.fmul (sr_similarity_score r) w)
            /\ (trust_level src = 1 -> w = 1%Q)
            /\ (trust_level src = 2 -> w = (1 # 2)%Q)
            /\ (trust_level src = 3 ->
                  w = third /\ (Qabs (w - (1 # 3)) <= PyFloat.pow2 (-55))%Q))
    /\ StronglySorted score_desc rs
    /\ Z.of_nat (length rs) <= n_results.
Proof.
  intros Hn.
  destruct (search_spec db search_similar n_results trust_filter)
    as (rs & Hs & Hwf & Hsorted & Hlen).
  destruct (search_top db search_similar n_results trust_filter)
    as (rs' & rest & Hs' & Hperm & Hall & Hfull); [lia|].
  assert (rs' = rs) by congruence. subst rs'.
  exists rs, rest. split; [exact Hs|]. split; [exact Hperm|].
  split; [exact Hall|]. split; [exact Hfull|].
  split; [|split; [exact Hsorted|apply Hlen; lia]].
  intros r Hr.
  pose proof (Hwf r Hr) as Hw.
  destruct (well_formed_score db trust_filter r Hw) as (src & Hsrc & Hnz & Htw & Hws).
  destruct Hw as (src' & Hsrc' & Hown & _ & _).
  assert (src' = src) by congruence. subst src'.
  exists src, (PyFloat.fdiv 1 (PyFloat.of_int (trust_level src))).
  split; [exact Hsrc|]. split; [exact Hown|]. split; [reflexivity|].
  split; [exact Htw|]. split; [exact Hws|].
  split; [|split]; intros E; rewrite E.
  - vm_compute. reflexivity.
  - vm_compute. reflexivity.
  - split; [vm_compute; reflexivity|]. vm_compute. discriminate.
Qed.

Lemma search_ranked_witness :
  0 < 1
  /\ exists rs, search example_db tie_hits 1 None = Some rs
       /\ map (fun r => chunk_id (chunk r)) rs = [lit "c-note"]
       /\ StronglySorted score_desc rs
       /\ Z.of_nat (length rs) <= 1.
Proof.
  split; [lia|].
  destruct (search_ranked example_db tie_hits 1 None)
    as (rs & rest & H1 & _ & _ & _ & _ & H3 & H4); [lia|].
  exists rs. split; [exact H1|]. split; [|split; assumption].
  assert (E : option_map (map (fun r => chunk_id (chunk r)))
                (search example_db tie_hits 1 None) = Some [lit "c-note"])
    by (vm_compute; reflexivity).
  rewrite H1 in E. injection E as E. exact E.
Defined.

(** Two documents at trust levels 1 and 3 with a fragment each at
    similarity 0.75: the note comes first at 0.75, the web page second
    at 0.25. *)
Example search_trust_scenario :
  option_map (map (fun r => (chunk_id (chunk r), weighted_score r)))
             (search example_db example_hits 2 None)
  = Some [(lit "c-note", Some (3 # 4)%Q); (lit "c-web", Some (1 # 4)%Q)].
Proof. vm_compute. reflexivity. Qed.

(** Rounding decides ties.  The note, at level 1, has the float nearest
    to 1/3 as similarity; the web page, at level 3, has similarity 1.0.
    Both products are that float, the stable sort keeps the order of
    the hits, and the note is the one result returned for a limit of 1;
    in exact arithmetic the web page would score 1/3 and come first. *)
Example search_tie_scenario :
  option_map (map (fun r => (chunk_id (chunk r), weighted_score r)))
             (search example_db tie_hits 2 None)
  = Some [(lit "c-note", Some third); (lit "c-web", Some third)]
  /\ (third < 1 # 3)%Q.
Proof. split; vm_compute; reflexivity. Qed.

(** C6. A hit whose fragment row or document row is missing is skipped
    and [search] still returns: it never raises, its answer is the one
    it gives when the stale hits are removed from the index's answer,
    and with a trust filter every returned result's document has a
    trust level of at most the filter. *)
Theorem search_skips_stale_and_filters (db : Db) (search_similar : Z -> list Hit)
    (n_results : Z) (trust_filter : option Z) :
  (exists rs, search db search_similar n_results trust_filter = Some rs)
  /\ search db search_similar n_results trust_filter
     = search db (fun n => List.filter (resolvable db) (search_similar n))
         n_results trust_filter
  /\ (forall h, resolvable db h = false -> resolve_hit db trust_filter h = None)
  /\ (forall t rs r,
        trust_filter = Some t ->
        search db search_similar n_results trust_filter = Some rs ->
        In r rs ->
        exists src, sr_source r = Some src
          /\ get_source_by_id db (source_id (chunk r)) = Some src
          /\ trust_level src <= t).
Proof.
  destruct (search_spec db search_similar n_results trust_filter)
    as (rs & Hs & Hwf & _ & _).
  repeat split.
  - exists rs. exact Hs.
  - unfold search. rewrite <- collect_results_skips_stale. reflexivity.
  - intros h. apply resolve_hit_stale.
  - intros t rs' r Ht Hs' Hr. rewrite Hs in Hs'. injection Hs' as <-.
    destruct (Hwf r Hr) as (src & H1 & H2 & _ & H4).
    rewrite Ht in H4. exists src. repeat split; assumption.
Qed.

Lemma search_skips_stale_and_filters_witness :
  search example_db example_hits 2 (Some 2) = Some [example_note_result]
  /\ exists src, sr_source example_note_result = Some src
       /\ get_source_by_id example_db (source_id (chunk example_note_result))
          = Some src
       /\ trust_level src <= 2.
Proof.
  assert (Hs : search example_db example_hits 2 (Some 2) = Some [example_note_result])
    by (vm_compute; reflexivity).
  split; [exact Hs|].
  destruct (search_skips_stale_and_filters example_db example_hits 2 (Some 2))
    as (_ & _ & _ & Hf).
  apply (Hf 2 [example_note_result] example_note_result eq_refl Hs).
  left. reflexivity.
Defined.

(** With the filter at 2 the web page is dropped and the stale entry
    is passed over. *)
Example search_filter_scenario :
  option_map (map (fun r => chunk_id (chunk r)))
             (search example_db example_hits 2 (Some 2))
  = Some [lit "c-note"].
Proof. vm_compute. reflexivity. Qed.

(** *** Context assembly *)


Lemma number_from_length rs : forall i, length (number_from i rs) = length rs.
Proof. induction rs as [|r rs IH]; intros i; simpl; [|rewrite IH]; reflexivity. Qed.

Lemma context_loop_spec max_tokens results : forall i parts total,
  exists used rest,
    results = used ++ rest
    /\ context_loop max_tokens i results parts total
       = (parts ++ number_from i used, total + tokens_of used)
    /\ (used <> [] -> total + tokens_of used <= max_tokens)
    /\ (forall r rest', rest = r :: rest' ->
          max_tokens < total + tokens_of used + chunk_tokens r).
Proof.
  induction results as [|r rs IH]; intros i parts total.
  - exists [], []. simpl. rewrite app_nil_r, Z.add_0_r.
    repeat split; [congruence|discriminate].
  - simpl. destruct (max_tokens <? total + chunk_tokens r) eqn:E.
    + exists [], (r :: rs). simpl. rewrite app_nil_r, Z.add_0_r.
      repeat split; [congruence|].
      intros r' rest' [= <- <-]. apply Z.ltb_lt. exact E.
    + apply Z.ltb_ge in E.
      destruct (IH (i + 1) (parts ++ [context_part i r]) (total + chunk_tokens r))
        as (used & rest & Hres & Hloop & Hbound & Hstop).
      exists (r :: used), rest. simpl.
      repeat split.
      * rewrite Hres. reflexivity.
      * rewrite Hloop, <- app_assoc. simpl. f_equal. lia.
      * intros _. destruct used as [|u used'].
        -- simpl. lia.
        -- assert (Hne : u :: used' <> []) by discriminate.
           specialize (Hbound Hne). lia.
      * intros r' rest' Hr. specialize (Hstop r' rest' Hr). lia.
Qed.

(** A fragment whose text has a bracketed number of its own: one used
    result, two markers in the context. *)
Lemma marker_count_counterexample : ~ marker_claim [quoting_result] 10.
Proof. unfold marker_claim. vm_compute. discriminate. Qed.











(** Under a negative budget nothing is used: the sum of the token
    counts is 0, which is over the budget. *)
Example negative_budget_scenario :
  assemble_context [example_result] (-1) = ([], [])
  /\ ~ tokens_of (snd (assemble_context [example_result] (-1))) <= -1.
Proof. split; [vm_compute; reflexivity|]. vm_compute. intros H. apply H. reflexivity. Qed.

(** The second result would make two tokens: it is left out whole. *)
Example assemble_context_scenario :
  length (snd (assemble_context [example_result; example_result] 1)) = 1%nat.
Proof. vm_compute. reflexivity. Qed.

End RetrievalClaims.

Module IngestionClaims.
Import PyStr TextProps PyStrFacts Models Ingestion IngestionProps.
Local Open Scope Z_scope.

(** *** verify_source *)

(** C5. For a document whose row is in the store: when the file is
    missing, [verify_source] sets the status to [failed] with the
    message [File not found] and returns false; when the file is there
    with a digest other than the recorded one, it sets the status to
    [changed] and returns false; when the digest is the recorded one, it
    leaves the status as it is, sets [last_verified] and returns
    true.  No other row is touched. *)
Theorem verify_source_outcomes (fs : FileSystem) (now : timestamp) (db : Db)
    (src : Source) (i : Z) (row : SourceRow) :
  id src = Some i ->
  sources db !! i = Some row ->
  exists row',
    sources (fst (verify_source fs now db src)) !! i = Some row'
    /\ (forall j, j <> i ->
          sources (fst (verify_source fs now db src)) !! j = sources db !! j)
    /\ match fs_file fs (parse_path (file_path src)) with
       | None =>
           snd (verify_source fs now db src) = false
           /\ row_status row' = Some (lit "failed")
           /\ row_error_message row' = Some (lit "File not found")
           /\ infix (lit "not found") (lit "File not found")
       | Some info =>
           if bool_decide (Some (f_hash info) = file_hash src) then
             snd (verify_source fs now db src) = true
             /\ row_status row' = row_status row
             /\ row_last_verified row' = Some now
           else
             snd (verify_source fs now db src) = false
             /\ row_status row' = Some (lit "changed")
       end.
Proof.
  intros Hid Hrow. unfold verify_source. rewrite Hid.
  destruct (fs_file fs (parse_path (file_path src))) as [info|].
  - unfold opt_str_eqb.
    destruct (bool_decide (Some (f_hash info) = file_hash src)); cbn [negb fst snd].
    + exists (set_last_verified now row). unfold update_source, set_sources; simpl.
      repeat split.
      * rewrite lookup_alter_eq, Hrow. reflexivity.
      * intros j Hj. apply lookup_alter_ne. congruence.
    + exists (set_status (lit "changed") (set_last_verified now row)).
      unfold update_source, set_sources; simpl.
      repeat split.
      * rewrite !lookup_alter_eq, Hrow. reflexivity.
      * intros j Hj. rewrite !lookup_alter_ne by congruence. reflexivity.
  - exists (set_failed (lit "File not found") row).
    unfold update_source, set_sources; simpl.
    repeat split.
    + rewrite lookup_alter_eq, Hrow. reflexivity.
    + intros j Hj. apply lookup_alter_ne. congruence.
    + exists (lit "File "), []. reflexivity.
Qed.

Lemma verify_source_outcomes_witness :
  id notes_source = Some 7
  /\ sources notes_db !! 7 = Some (notes_row "h0")
  /\ (exists row',
        sources (fst (verify_source (notes_fs None) 20 notes_db notes_source)) !! 7
        = Some row'
        /\ snd (verify_source (notes_fs None) 20 notes_db notes_source) = false
        /\ row_status row' = Some (lit "failed"))
  /\ (exists row',
        sources (fst (verify_source (notes_fs (Some ("h1", "new"))) 20
                        notes_db notes_source)) !! 7 = Some row'
        /\ snd (verify_source (notes_fs (Some ("h1", "new"))) 20
                  notes_db notes_source) = false
        /\ row_status row' = Some (lit "changed"))
  /\ (exists row',
        sources (fst (verify_source (notes_fs (Some ("h0", "old"))) 20
                        notes_db notes_source)) !! 7 = Some row'
        /\ snd (verify_source (notes_fs (Some ("h0", "old"))) 20
                  notes_db notes_source) = true
        /\ row_status row' = Some (lit "indexed")
        /\ row_last_verified row' = Some 20).
Proof.
  assert (H1 : id notes_source = Some 7) by reflexivity.
  assert (H2 : sources notes_db !! 7 = Some (notes_row "h0")) by reflexivity.
  repeat split; try assumption.
  - destruct (verify_source_outcomes (notes_fs None) 20 notes_db notes_source
                7 (notes_row "h0") H1 H2) as (row' & Hl & _ & Hc).
    exists row'. simpl in Hc. tauto.
  - destruct (verify_source_outcomes (notes_fs (Some ("h1", "new"))) 20 notes_db
                notes_source 7 (notes_row "h0") H1 H2) as (row' & Hl & _ & Hc).
    exists row'. vm_compute in Hc. tauto.
  - destruct (verify_source_outcomes (notes_fs (Some ("h0", "old"))) 20 notes_db
                notes_source 7 (notes_row "h0") H1 H2) as (row' & Hl & _ & Hc).
    exists row'. vm_compute in Hc. tauto.
Defined.

(** *** create_source *)

Lemma create_source_pending fs now db file_path trust title author db' s :
  create_source fs now db file_path trust title author = inr (db', Some s) ->
  status s = lit "pending".
Proof.
  unfold create_source.
  destruct (fs_file fs (fs_resolve fs file_path)) as [info|]; [|discriminate].
  destruct (detect_file_type (fs_resolve fs file_path)) as [ftype|]; [|discriminate].
  destruct (infer_title_author info ftype title author) as [e|[t1 a1]]; [discriminate|].
  unfold get_source_by_id, set_sources. cbn [sources].
  rewrite lookup_insert_eq. intros [= _ <-]. reflexivity.
Qed.

(** C8 (evidence of the defect). A markdown file whose first level-1
    heading is not on its first line: the content has the level-1
    heading [Title], and [create_source], given no title, names the
    document after the file stem instead; the document is created in
    status [pending]. *)
Theorem create_source_misses_later_heading :
  let content := "Preface
# Title
" in
  first_h1_heading (lit content) = Some (lit "Title")
  /\ extract_title_from_markdown (lit content) = None
  /\ match create_source (notes_fs (Some ("h0", content))) 5
             {| sources := ∅; knowledge_chunks := [] |} notes_path 1 None None with
     | inr (_, Some s) =>
         title s = Some (lit "notes") /\ status s = lit "pending"
     | _ => False
     end.
Proof. vm_compute. repeat split; reflexivity. Qed.

(** When the heading is on the first line, it is the title. *)
Example create_source_first_line_heading :
  match create_source (notes_fs (Some ("h0", "# My Document Title

Content goes here."))) 5
          {| sources := ∅; knowledge_chunks := [] |} notes_path 1 None None with
  | inr (_, Some s) => title s = Some (lit "My Document Title")
  | _ => False
  end.
Proof. vm_compute. reflexivity. Qed.

(** *** discover_new_sources *)

Lemma occurrences_app p l1 l2 :
  occurrences p (l1 ++ l2) = (occurrences p l1 + occurrences p l2)%nat.
Proof. unfold occurrences. rewrite List.filter_app, length_app. reflexivity. Qed.

Lemma occurrences_filter keep p l :
  keep p = true -> occurrences p (List.filter keep l) = occurrences p l.
Proof.
  intros Hk. unfold occurrences. induction l as [|q l IH]; simpl; [reflexivity|].
  destruct (keep q) eqn:Eq; simpl.
  - destruct (bool_decide (q = p)); simpl; rewrite IH; reflexivity.
  - destruct (bool_decide (q = p)) eqn:E; [|exact IH].
    apply bool_decide_eq_true in E. congruence.
Qed.

Lemma occurrences_none p l :
  (forall q, In q l -> q <> p) -> occurrences p l = 0%nat.
Proof.
  intros H. unfold occurrences. induction l as [|q l IH]; simpl; [reflexivity|].
  destruct (bool_decide (q = p)) eqn:E.
  - apply bool_decide_eq_true in E. exfalso. apply (H q); [left; reflexivity|exact E].
  - apply IH. intros q' Hq'. apply H. right. exact Hq'.
Qed.

Lemma occurrences_NoDup p l : List.NoDup l -> (occurrences p l <= 1)%nat.
Proof.
  intros Hnd. unfold occurrences. induction Hnd as [|q l Hq Hnd IH]; simpl; [lia|].
  destruct (bool_decide (q = p)) eqn:E; [|exact IH].
  apply bool_decide_eq_true in E. subst q. simpl.
  fold (occurrences p l). rewrite occurrences_none; [lia|].
  intros q Hq' ->. contradiction.
Qed.

Lemma glob_here_length ext p es q :
  In q (glob_here ext p es) -> length q = S (length p).
Proof.
  unfold glob_here. intros H. apply in_map_iff in H. destruct H as [e [<- _]].
  rewrite length_app. simpl. lia.
Qed.

Lemma walk_dirs_deeper e : forall p d,
  In d (walk_dirs p e) -> (length p < length (fst d))%nat.
Proof.
  induction e as [n|n children IH] using Entry_tree_ind; intros p d; simpl.
  - intros [].
  - intros [<-|H].
    + simpl. rewrite length_app. simpl. lia.
    + apply in_flat_map in H. destruct H as [x [Hx Hd]].
      rewrite List.Forall_forall in IH. specialize (IH x Hx _ _ Hd).
      rewrite length_app in IH. simpl in IH. lia.
Qed.

Lemma glob_here_cons ext p e es :
  glob_here ext p (e :: es)
  = (if ends_with ext (entry_name e) then [p ++ [entry_name e]] else [])
    ++ glob_here ext p es.
Proof. unfold glob_here. simpl. destruct (ends_with ext (entry_name e)); reflexivity. Qed.

Lemma glob_here_in ext p es q :
  In q (glob_here ext p es) -> exists e, In e es /\ q = p ++ [entry_name e].
Proof.
  unfold glob_here. intros H. apply in_map_iff in H. destruct H as [e [<- He]].
  apply filter_In in He. exists e. tauto.
Qed.

(** Top-level names are found by [glob_here] once per matching entry. *)
Lemma glob_here_top ext p es name :
  List.NoDup (map entry_name es) ->
  In name (map entry_name es) ->
  occurrences (p ++ [name]) (glob_here ext p es)
  = if ends_with ext name then 1%nat else 0%nat.
Proof.
  induction es as [|e es IH]; [intros _ []|].
  cbn [map]. intros Hnd Hin. inversion Hnd as [|? ? Hnotin Hnd']; subst.
  rewrite glob_here_cons, occurrences_app.
  destruct (decide (entry_name e = name)) as [Heq|Hne].
  - subst name.
    rewrite (occurrences_none _ (glob_here ext p es)).
    + destruct (ends_with ext (entry_name e)); [|reflexivity].
      unfold occurrences. simpl.
      rewrite bool_decide_eq_true_2 by reflexivity. reflexivity.
    + intros q Hq E. subst q. apply glob_here_in in Hq.
      destruct Hq as [e' [He' E]]. apply app_inv_head in E. injection E as E.
      apply Hnotin. rewrite E. apply in_map, He'.
  - destruct Hin as [Hin|Hin]; [contradiction|].
    rewrite (IH Hnd' Hin).
    destruct (ends_with ext (entry_name e)); [|reflexivity].
    unfold occurrences. simpl.
    rewrite bool_decide_eq_false_2; [reflexivity|].
    intros E. apply app_inv_head in E. injection E as E. contradiction.
Qed.

Lemma glob_recursive_top ext p es name :
  occurrences (p ++ [name]) (glob_recursive ext p es)
  = occurrences (p ++ [name]) (glob_here ext p es).
Proof.
  unfold glob_recursive. cbn [flat_map fst snd].
  rewrite occurrences_app.
  match goal with
  | |- (_ + occurrences ?q ?l = _)%nat => rewrite (occurrences_none q l)
  end; [lia|].
  intros q Hq E. subst q.
  apply in_flat_map in Hq. destruct Hq as [d [Hd Hq]].
  apply in_flat_map in Hd. destruct Hd as [e [_ Hd]].
  apply walk_dirs_deeper in Hd. apply glob_here_length in Hq.
  rewrite length_app in Hq. simpl in Hq. lia.
Qed.

Lemma all_files_top exts p es name :
  List.NoDup (map entry_name es) ->
  In name (map entry_name es) ->
  occurrences (p ++ [name])
    (flat_map (fun ext => glob_here ext p es ++ glob_recursive ext p es) exts)
  = (2 * length (List.filter (fun ext => ends_with ext name) exts))%nat.
Proof.
  intros Hnd Hin. induction exts as [|ext exts IH]; simpl; [reflexivity|].
  rewrite !occurrences_app, glob_recursive_top, IH,
    (glob_here_top ext p es name Hnd Hin).
  destruct (ends_with ext name); simpl; lia.
Qed.

Lemma strip_prefix_Some p : forall s r, strip_prefix p s = Some r -> s = p ++ r.
Proof.
  induction p as [|a p IH]; intros s r; simpl.
  - intros [= ->]. reflexivity.
  - destruct s as [|b s]; [discriminate|].
    destruct (Ascii.eqb_spec a b) as [<-|_]; [|discriminate].
    intros H. rewrite (IH _ _ H). reflexivity.
Qed.

Lemma ends_with_rev ext name :
  ends_with ext name = true -> exists r, rev name = rev ext ++ r.
Proof.
  unfold ends_with. destruct (strip_prefix (rev ext) (rev name)) as [r|] eqn:E;
    [|discriminate].
  intros _. exists r. apply strip_prefix_Some, E.
Qed.

Lemma supported_one_extension name :
  supported name = true ->
  length (List.filter (fun ext => ends_with ext name) SUPPORTED_EXTENSIONS) = 1%nat.
Proof.
  unfold supported, SUPPORTED_EXTENSIONS. cbn [existsb List.filter].
  destruct (ends_with (lit ".pdf") name) eqn:E1;
    destruct (ends_with (lit ".md") name) eqn:E2;
    destruct (ends_with (lit ".txt") name) eqn:E3;
    try reflexivity; try discriminate;
    repeat match goal with
           | H : ends_with _ name = true |- _ =>
               apply ends_with_rev in H; destruct H as [? H]; simpl in H
           end;
    exfalso; congruence.
Qed.

Lemma filter_length_Permutation {A} (f : A -> bool) l l' :
  Permutation l l' -> length (List.filter f l) = length (List.filter f l').
Proof.
  induction 1 as [|x l l' _ IH|x y l|l l' l'' _ IH1 _ IH2]; simpl.
  - reflexivity.
  - destruct (f x); simpl; rewrite IH; reflexivity.
  - destruct (f x), (f y); reflexivity.
  - congruence.
Qed.

(** C10. A supported file lying directly in the directory and not yet
    tracked is listed twice by [discover_new_sources], once for the
    pattern [*ext] and once for [**/*ext]; the list is therefore not
    free of duplicates.  (Names within a directory are distinct; the
    supported extensions may be iterated in any order.) *)
Theorem discover_lists_top_level_twice (resolve : Path -> Path) (exts : list str)
    (db : Db) (directory : Path) (entries : list Entry) (name : str) :
  Permutation exts SUPPORTED_EXTENSIONS ->
  List.NoDup (map entry_name entries) ->
  In (FileE name) entries ->
  supported name = true ->
  path_str (resolve (directory ++ [name])) ∉ tracked_paths db ->
  occurrences (directory ++ [name])
    (discover_new_sources resolve exts db directory entries) = 2%nat
  /\ ~ List.NoDup (discover_new_sources resolve exts db directory entries).
Proof.
  intros Hperm Hnd Hin Hsup Hnew.
  assert (Hocc : occurrences (directory ++ [name])
            (discover_new_sources resolve exts db directory entries) = 2%nat).
  { unfold discover_new_sources.
    rewrite occurrences_filter
      by (rewrite bool_decide_eq_false_2 by exact Hnew; reflexivity).
    rewrite all_files_top;
      [|exact Hnd|apply (in_map entry_name _ (FileE name)), Hin].
    assert (Hlen : length (List.filter (fun ext => ends_with ext name) exts) = 1%nat).
    { rewrite <- (supported_one_extension name Hsup).
      apply filter_length_Permutation, Hperm. }
    rewrite Hlen. reflexivity. }
  split; [exact Hocc|].
  intros Hnd'. pose proof (occurrences_NoDup (directory ++ [name]) _ Hnd') as Hle.
  rewrite Hocc in Hle. lia.
Qed.

Lemma discover_lists_top_level_twice_witness :
  occurrences (sources_dir ++ [lit "doc1.txt"])
    (discover_new_sources (fun p => p) [lit ".md"; lit ".txt"; lit ".pdf"]
       notes_db sources_dir sources_entries) = 2%nat.
Proof.
  apply (discover_lists_top_level_twice (fun p => p)
           [lit ".md"; lit ".txt"; lit ".pdf"] notes_db sources_dir
           sources_entries (lit "doc1.txt")).
  - unfold SUPPORTED_EXTENSIONS.
    apply perm_trans with [lit ".md"; lit ".pdf"; lit ".txt"];
      [apply perm_skip, perm_swap|apply perm_swap].
  - simpl. repeat constructor; simpl; intros H;
      repeat (destruct H as [H|H]; [discriminate|]); exact H.
  - left. reflexivity.
  - reflexivity.
  - vm_compute. intros H. discriminate H.
Defined.

(** The listing for that directory: the top-level file twice, the file
    in the subdirectory once, the unsupported file not at all. *)
Example discover_scenario :
  discover_new_sources (fun p => p) [lit ".md"; lit ".txt"; lit ".pdf"]
    notes_db sources_dir sources_entries
  = [sources_dir ++ [lit "sub"; lit "doc2.md"];
     sources_dir ++ [lit "doc1.txt"];
     sources_dir ++ [lit "doc1.txt"]].
Proof. vm_compute. reflexivity. Qed.

End IngestionClaims.

Module QueryClaims.
Import PyStr TextProps PyStrFacts Query QueryProps.

Lemma strip_prefix_spec p : forall s,
  (exists r, strip_prefix p s = Some r) <-> (exists r, s = p ++ r).
Proof.
  induction p as [|a p IH]; intros s; simpl.
  - split; intros _; exists s; reflexivity.
  - destruct s as [|b s].
    + split; intros [r H]; discriminate.
    + destruct (Ascii.eqb_spec a b) as [<-|Hne].
      * rewrite IH. split; intros [r H]; exists r; congruence.
      * split; intros [r H]; [discriminate|congruence].
Qed.

Lemma contains_spec needle s : contains needle s = true <-> infix needle s.
Proof.
  induction s as [|c s IH].
  - simpl. destruct (strip_prefix needle []) as [r|] eqn:E.
    + split; [intros _|reflexivity].
      destruct (proj1 (strip_prefix_spec needle []) (ex_intro _ r E)) as [r' H].
      exists [], r'. exact H.
    + split; [discriminate|]. intros [pre [post H]].
      destruct pre; [|discriminate]. simpl in H.
      destruct (proj2 (strip_prefix_spec needle []) (ex_intro _ post H)) as [r' H'].
      congruence.
  - cbn [contains]. destruct (strip_prefix needle (c :: s)) as [r|] eqn:E.
    + split; [intros _|reflexivity].
      destruct (proj1 (strip_prefix_spec needle (c :: s)) (ex_intro _ r E)) as [r' H].
      exists [], r'. exact H.
    + rewrite IH. split.
      * intros [pre [post H]]. exists (c :: pre), post. rewrite H. reflexivity.
      * intros [pre [post H]]. destruct pre as [|d pre].
        -- simpl in H.
           destruct (proj2 (strip_prefix_spec needle (c :: s)) (ex_intro _ post H))
             as [r' H'].
           congruence.
        -- injection H as _ H. exists pre, post. exact H.
Qed.

Lemma nonempty_spec s : nonempty s = true <-> s <> [].
Proof. destruct s; simpl; split; congruence. Qed.

(** An answer that paraphrases the escape phrase: it does not contain
    the whole phrase, yet [has_answer] is false. *)
Lemma escape_counterexample :
  ~ escape_claim (answer_of "I don't have enough information about that.").
Proof.
  unfold escape_claim. intros [_ H].
  assert (Hf : has_answer (answer_of "I don't have enough information about that.")
               = false) by (vm_compute; reflexivity).
  rewrite H in Hf; [discriminate|].
  split; [discriminate|].
  intros Hi. apply contains_spec in Hi. vm_compute in Hi. discriminate.
Qed.

(** C9 (as the code has it). [has_answer] is true exactly when the
    answer is not empty and its lower-cased text does not contain the
    fragment [don't have enough information]; an answer that contains
    the whole escape phrase, in any letter case, therefore has no
    answer. *)
Theorem has_answer_spec (a : WikiAnswer) :
  (has_answer a = true <->
   answer a <> [] /\ ~ infix ESCAPE_FRAGMENT (lower (answer a)))
  /\ (infix (lower ESCAPE_PHRASE) (lower (answer a)) -> has_answer a = false).
Proof.
  assert (Hiff : has_answer a = true <->
                 answer a <> [] /\ ~ infix ESCAPE_FRAGMENT (lower (answer a))).
  { unfold has_answer. rewrite andb_true_iff, negb_true_iff, nonempty_spec.
    rewrite <- contains_spec. rewrite not_true_iff_false. reflexivity. }
  split; [exact Hiff|].
  intros Hi. destruct (has_answer a) eqn:E; [|reflexivity].
  exfalso. destruct (proj1 Hiff eq_refl) as [_ Hn]. apply Hn.
  apply (infix_trans _ (lower ESCAPE_PHRASE)); [|exact Hi].
  exists (lit "i "), (lit " in my sources to answer this question.").
  reflexivity.
Qed.

Lemma has_answer_spec_witness :
  infix (lower ESCAPE_PHRASE)
    (lower (answer (answer_of
       "Sorry. I DON'T have enough information in my sources to answer this question.")))
  /\ has_answer (answer_of
       "Sorry. I DON'T have enough information in my sources to answer this question.")
     = false.
Proof.
  assert (H : infix (lower ESCAPE_PHRASE)
    (lower (answer (answer_of
       "Sorry. I DON'T have enough information in my sources to answer this question.")))).
  { apply contains_spec. vm_compute. reflexivity. }
  split; [exact H|].
  exact (proj2 (has_answer_spec _) H).
Defined.

End QueryClaims.

Module ChunkingExtras.
Import PyStr TextProps PyStrFacts ScanProps ScanFacts SplitProps SplitFacts Chunking ChunkingProps ChunkingFacts TokenProps.
Local Open Scope Z_scope.

(** *** Ordinals *)

Lemma reindex_indices cs : forall i,
  map chunk_index (reindex i cs)
  = map (fun k => i + Z.of_nat k) (seq 0 (length cs)).
Proof.
  induction cs as [|c cs IH]; intros i; simpl; [reflexivity|].
  f_equal; [lia|]. rewrite IH, <- seq_shift, map_map.
  apply map_ext. intros k. lia.
Qed.

(** X1. The chunks [chunk_text] returns are numbered 0, 1, 2, ... in
    order, whatever merging and splitting did. *)
Theorem chunk_text_ordinals
    (text file_type : str) (min_tokens max_tokens overlap_tokens : Z) :
  let cs := chunk_text text file_type min_tokens max_tokens overlap_tokens in
  map chunk_index cs = map Z.of_nat (seq 0 (length cs)).
Proof.
  cbv zeta. unfold chunk_text.
  destruct (nonempty (strip text)); [|reflexivity].
  set (cs := _split_large_chunks _ _).
  rewrite reindex_indices.
  assert (Hlen : length (reindex 0 cs) = length cs).
  { generalize 0. induction cs as [|c cs' IH]; intros i; simpl;
      [reflexivity|rewrite IH; reflexivity]. }
  rewrite Hlen. apply map_ext. intros k. lia.
Qed.

(** *** Blank input *)

Lemma words_from_pending cur s : cur <> [] -> words_from cur s <> [].
Proof.
  revert cur. induction s as [|c s IH]; intros cur Hc; simpl.
  - destruct cur; [congruence|discriminate].
  - destruct (is_space c).
    + destruct cur; [congruence|discriminate].
    + apply IH. discriminate.
Qed.

Lemma words_of_nonspace s c :
  In c s -> is_space c = false -> words s <> [].
Proof.
  unfold words. generalize (@nil ascii) as cur.
  induction s as [|d s IH]; intros cur Hin Hc; [destruct Hin|].
  simpl. destruct Hin as [<-|Hin].
  - rewrite Hc. apply words_from_pending. discriminate.
  - destruct (is_space d).
    + destruct cur; [apply IH; assumption|discriminate].
    + apply IH; assumption.
Qed.

Lemma lstrip_head s c r : lstrip s = c :: r -> is_space c = false.
Proof.
  induction s as [|d s IH]; simpl; [discriminate|].
  destruct (is_space d) eqn:E; [exact IH|].
  intros [= <- _]. exact E.
Qed.

Lemma strip_nonempty_words s : strip s <> [] -> words s <> [].
Proof.
  intros H. rewrite <- words_strip.
  unfold strip, rstrip in *.
  destruct (lstrip (rev (lstrip s))) as [|c r] eqn:E; [simpl in H; congruence|].
  apply (words_of_nonspace _ c).
  - apply in_rev. rewrite rev_involutive. left. reflexivity.
  - exact (lstrip_head _ _ _ E).
Qed.

Lemma nonempty_strip_words s : nonempty (strip s) = true -> words s <> [].
Proof.
  intros H. apply strip_nonempty_words. destruct (strip s); [discriminate|discriminate].
Qed.

(** X2. [chunk_text] returns no chunk exactly when the text is empty or
    all whitespace. *)
Theorem chunk_text_empty_iff
    (text file_type : str) (min_tokens max_tokens overlap_tokens : Z) :
  chunk_text text file_type min_tokens max_tokens overlap_tokens = []
  <-> strip text = [].
Proof.
  split.
  - intros Hnil. destruct (strip text) as [|c r] eqn:E; [reflexivity|].
    assert (Hw : words text <> []).
    { apply strip_nonempty_words. rewrite E. discriminate. }
    destruct (words text) as [|t ts] eqn:Et; [congruence|].
    assert (Hin : In t (words text)) by (rewrite Et; left; reflexivity).
    pose proof (first_pass_cover text max_tokens overlap_tokens t Hin) as H1.
    apply (merge_small_chunks_cover _ min_tokens) in H1.
    apply (split_large_chunks_cover _ max_tokens) in H1.
    apply (reindex_cover _ 0) in H1.
    unfold chunk_text in Hnil. rewrite E in Hnil. simpl nonempty in Hnil.
    cbv iota in Hnil. rewrite Hnil in H1. destruct H1 as [x [[] _]].
  - intros E. unfold chunk_text. rewrite E. reflexivity.
Qed.

(** *** Pieces keep the token sequence *)

Lemma piece_tokens_append acc s pos :
  piece_tokens (append_if_nonempty acc s pos) = piece_tokens acc ++ words s.
Proof.
  unfold append_if_nonempty, piece_tokens.
  destruct s as [|c s]; simpl.
  - rewrite app_nil_r. reflexivity.
  - rewrite map_app, concat_app. simpl. rewrite app_nil_r. reflexivity.
Qed.

Lemma gen_loop_tokens ext text :
  (ext <= 1)%nat ->
  forall ms cp acc,
    (cp <= length text)%nat ->
    spans_ok text cp ms ->
    piece_tokens (fst (gen_loop ext text ms cp acc))
      ++ words (skipn (snd (gen_loop ext text ms cp acc)) text)
    = piece_tokens acc ++ words (skipn cp text).
Proof.
  intros Hext. induction ms as [|[a b] ms IH]; intros cp acc Hcp Hok; simpl.
  - reflexivity.
  - simpl in Hok. destruct Hok as (Hcpa & Hab & Hb & Hsp & Hok).
    rewrite (IH b _ Hb Hok).
    rewrite piece_tokens_append, words_strip, <- app_assoc. f_equal.
    rewrite (skipn_slice cp a text) by assumption.
    rewrite (skipn_slice a b text) by lia.
    rewrite words_sep.
    + f_equal. rewrite (slice_app cp a (a + ext)) by lia.
      apply words_space_r.
      apply (all_space_slice_prefix a (a + ext) b); [lia|lia|exact Hsp].
    + exact Hsp.
    + intros E. apply (f_equal (@length ascii)) in E.
      rewrite slice_length in E by lia. simpl in E. lia.
Qed.

Lemma split_tail_tokens text cp acc :
  piece_tokens
    (if (cp <? length text)%nat
     then append_if_nonempty acc (strip (skipn cp text)) cp
     else acc)
  = piece_tokens acc ++ words (skipn cp text).
Proof.
  destruct (cp <? length text)%nat eqn:E.
  - rewrite piece_tokens_append, words_strip. reflexivity.
  - apply Nat.ltb_ge in E. rewrite skipn_all2 by lia.
    symmetry. apply app_nil_r.
Qed.

(** X3. Splitting a text into paragraphs, or into sentences, keeps its
    token sequence: the tokens of the pieces, taken in order, are the
    tokens of the text, none dropped, repeated or moved. *)
Theorem split_keeps_token_sequence (text : str) :
  piece_tokens (split_into_paragraphs text) = words text
  /\ piece_tokens (split_into_sentences text) = words text.
Proof.
  split.
  - unfold split_into_paragraphs. rewrite paragraphs_loop_gen.
    pose proof (gen_loop_tokens 0 text (Nat.le_0_l 1)
                  (finditer match_blank_line text) 0%nat [] (Nat.le_0_l _)
                  (finditer_spans _ text match_blank_line_space)) as H.
    destruct (gen_loop 0 text (finditer match_blank_line text) 0 []) as [acc cp].
    rewrite split_tail_tokens. exact H.
  - unfold split_into_sentences. rewrite sentences_loop_gen.
    pose proof (gen_loop_tokens 1 text (Nat.le_refl 1)
                  (finditer match_sentence_gap text) 0%nat [] (Nat.le_0_l _)
                  (finditer_spans _ text match_sentence_gap_space)) as H.
    destruct (gen_loop 1 text (finditer match_sentence_gap text) 0 []) as [acc cp].
    rewrite split_tail_tokens. exact H.
Qed.

(** *** Every chunk is sound *)

Lemma estimate_tokens_nonneg s : 0 <= estimate_tokens s.
Proof.
  unfold estimate_tokens, CHARS_PER_TOKEN, len. apply Z.div_pos; lia.
Qed.

Lemma words_app_nonempty_r a sep b :
  all_space sep -> sep <> [] -> words b <> [] -> words (a ++ sep ++ b) <> [].
Proof.
  intros Hs Hne Hb. rewrite words_sep by assumption.
  intros E. apply app_eq_nil in E. tauto.
Qed.

Lemma gen_loop_pieces ext text ms : forall cp acc,
  Forall (fun p => words (fst p) <> []) acc ->
  Forall (fun p => words (fst p) <> []) (fst (gen_loop ext text ms cp acc)).
Proof.
  induction ms as [|[a b] ms IH]; intros cp acc Hacc; simpl; [exact Hacc|].
  apply IH. unfold append_if_nonempty.
  destruct (nonempty (strip (slice cp (a + ext) text))) eqn:E; [|exact Hacc].
  apply Forall_app. split; [exact Hacc|].
  constructor; [|constructor]. simpl.
  rewrite words_strip. apply nonempty_strip_words, E.
Qed.

Lemma split_tail_pieces text cp acc :
  Forall (fun p => words (fst p) <> []) acc ->
  Forall (fun p => words (fst p) <> [])
    (if (cp <? length text)%nat
     then append_if_nonempty acc (strip (skipn cp text)) cp
     else acc).
Proof.
  intros Hacc. destruct (cp <? length text)%nat; [|exact Hacc].
  unfold append_if_nonempty.
  destruct (nonempty (strip (skipn cp text))) eqn:E; [|exact Hacc].
  apply Forall_app. split; [exact Hacc|].
  constructor; [|constructor]. simpl.
  rewrite words_strip. apply nonempty_strip_words, E.
Qed.

Lemma paragraphs_have_tokens text :
  Forall (fun p => words (fst p) <> []) (split_into_paragraphs text).
Proof.
  unfold split_into_paragraphs. rewrite paragraphs_loop_gen.
  pose proof (gen_loop_pieces 0 text (finditer match_blank_line text) 0%nat []
                (List.Forall_nil _)) as H.
  destruct (gen_loop 0 text (finditer match_blank_line text) 0 []) as [acc cp].
  apply split_tail_pieces. exact H.
Qed.

Lemma sentences_have_tokens text :
  Forall (fun p => words (fst p) <> []) (split_into_sentences text).
Proof.
  unfold split_into_sentences. rewrite sentences_loop_gen.
  pose proof (gen_loop_pieces 1 text (finditer match_sentence_gap text) 0%nat []
                (List.Forall_nil _)) as H.
  destruct (gen_loop 1 text (finditer match_sentence_gap text) 0 []) as [acc cp].
  apply split_tail_pieces. exact H.
Qed.

Lemma nonempty_true_has (s : str) :
  nonempty s = true -> (s = [] \/ words s <> []) -> words s <> [].
Proof. intros Hn [->|H]; [discriminate|exact H]. Qed.

Lemma chunk_step_sound text max_tokens overlap_chars st p :
  words (fst p) <> [] ->
  (st_text st = [] \/ words (st_text st) <> []) ->
  Forall sound_chunk (st_chunks st) ->
  words (st_text (chunk_step text max_tokens overlap_chars st p)) <> []
  /\ Forall sound_chunk (st_chunks (chunk_step text max_tokens overlap_chars st p)).
Proof.
  destruct p as [para_text para_start]. cbn [fst]. intros Hp Ht Hc.
  unfold chunk_step.
  destruct (nonempty (st_text st)) eqn:Hne; cbn [andb].
  - pose proof (nonempty_true_has _ Hne Ht) as Hw.
    destruct (max_tokens <? estimate_tokens (st_text st) + estimate_tokens para_text).
    + assert (Hfin : Forall sound_chunk (st_chunks st ++ [finalize text st])).
      { apply Forall_app. split; [exact Hc|]. constructor; [|constructor].
        split; [rewrite finalize_words; exact Hw|apply estimate_tokens_nonneg]. }
      destruct ((0 <? overlap_chars) && (overlap_chars <? len (st_text st)));
        cbn [st_text st_chunks]; split; try exact Hfin; try exact Hp.
      apply words_app_nonempty_r; [apply blank_line_space..|exact Hp].
    + cbn [st_text st_chunks]. split; [|exact Hc].
      apply words_app_nonempty_r; [apply blank_line_space..|exact Hp].
  - cbn [st_text st_chunks]. split; assumption.
Qed.

Lemma chunk_loop_sound text max_tokens overlap_chars ps : forall st,
  Forall (fun p => words (fst p) <> []) ps ->
  (st_text st = [] \/ words (st_text st) <> []) ->
  Forall sound_chunk (st_chunks st) ->
  let st' := fold_left (chunk_step text max_tokens overlap_chars) ps st in
  (st_text st' = [] \/ words (st_text st') <> [])
  /\ Forall sound_chunk (st_chunks st').
Proof.
  induction ps as [|p ps IH]; intros st Hps Ht Hc; simpl.
  - split; assumption.
  - inversion Hps as [|? ? Hp Hps']; subst.
    destruct (chunk_step_sound text max_tokens overlap_chars st p Hp Ht Hc) as [H1 H2].
    apply IH; [exact Hps'|right; exact H1|exact H2].
Qed.

Lemma first_pass_sound text max_tokens overlap_tokens :
  nonempty (strip text) = true ->
  Forall sound_chunk (first_pass text max_tokens overlap_tokens).
Proof.
  intros Hne. unfold first_pass.
  set (ps := match split_into_paragraphs text with
             | [] => [(strip text, 0%nat)]
             | p :: l => p :: l
             end).
  assert (Hps : Forall (fun p => words (fst p) <> []) ps).
  { unfold ps. pose proof (paragraphs_have_tokens text) as H.
    destruct (split_into_paragraphs text); [|exact H].
    constructor; [|constructor]. simpl. rewrite words_strip.
    apply nonempty_strip_words, Hne. }
  destruct (chunk_loop_sound text max_tokens (tokens_to_chars overlap_tokens) ps
              {| st_chunks := []; st_chunk_index := 0; st_text := []; st_start := 0 |}
              Hps (or_introl eq_refl) (List.Forall_nil _)) as [Ht Hc].
  set (st := fold_left _ ps _) in *.
  destruct (nonempty (strip (st_text st))) eqn:E; [|exact Hc].
  apply Forall_app. split; [exact Hc|]. constructor; [|constructor].
  split; [rewrite finalize_words; apply nonempty_strip_words, E
         |apply estimate_tokens_nonneg].
Qed.

Lemma merge_pair_sound a b : sound_chunk a -> sound_chunk b -> sound_chunk (merge_pair a b).
Proof.
  intros [Ha1 Ha2] [Hb1 Hb2]. split; unfold merge_pair; cbn [content token_count].
  - apply words_app_nonempty_r; [apply blank_line_space..|exact Hb1].
  - lia.
Qed.

Lemma merge_loop_sound min_tokens rest : forall current,
  sound_chunk current -> Forall sound_chunk rest ->
  Forall sound_chunk (merge_loop min_tokens current rest).
Proof.
  induction rest as [|n rest IH]; intros current Hc Hr; simpl.
  - constructor; [exact Hc|constructor].
  - inversion Hr as [|? ? Hn Hr']; subst.
    destruct (token_count current <? min_tokens).
    + apply IH; [apply merge_pair_sound; assumption|exact Hr'].
    + constructor; [exact Hc|apply IH; assumption].
Qed.

Lemma merge_small_chunks_sound chunks min_tokens :
  Forall sound_chunk chunks -> Forall sound_chunk (_merge_small_chunks chunks min_tokens).
Proof.
  intros H. unfold _merge_small_chunks.
  destruct chunks as [|c [|c' rest]]; [exact H|exact H|].
  inversion H; subst. apply merge_loop_sound; assumption.
Qed.

Lemma split_step_sound chunk max_tokens st s :
  words (fst s) <> [] ->
  (snd (fst st) = [] \/ words (snd (fst st)) <> []) ->
  Forall sound_chunk (fst (fst st)) ->
  words (snd (fst (split_step chunk max_tokens st s))) <> []
  /\ Forall sound_chunk (fst (fst (split_step chunk max_tokens st s))).
Proof.
  destruct st as [[result current_text] current_start].
  destruct s as [sentence rel_pos]. cbn [fst snd]. intros Hs Ht Hr.
  unfold split_step.
  destruct (nonempty current_text) eqn:Hne; cbn [andb].
  - pose proof (nonempty_true_has _ Hne Ht) as Hw.
    destruct (max_tokens <? estimate_tokens current_text + estimate_tokens sentence);
      cbn [fst snd].
    + split; [exact Hs|]. apply Forall_app. split; [exact Hr|].
      constructor; [|constructor]. split.
      * cbn [sub_chunk content]. rewrite words_strip. exact Hw.
      * apply estimate_tokens_nonneg.
    + split; [|exact Hr].
      apply words_app_nonempty_r; [apply blank_space..|exact Hs].
  - cbn [fst snd]. split; assumption.
Qed.

Lemma split_loop_sound chunk max_tokens sentences : forall st,
  Forall (fun p => words (fst p) <> []) sentences ->
  (snd (fst st) = [] \/ words (snd (fst st)) <> []) ->
  Forall sound_chunk (fst (fst st)) ->
  Forall sound_chunk
    (fst (fst (fold_left (split_step chunk max_tokens) sentences st))).
Proof.
  induction sentences as [|s ss IH]; intros st Hss Ht Hr; simpl; [exact Hr|].
  inversion Hss as [|? ? Hs Hss']; subst.
  destruct (split_step_sound chunk max_tokens st s Hs Ht Hr) as [H1 H2].
  apply IH; [exact Hss'|right; exact H1|exact H2].
Qed.

Lemma split_one_sound max_tokens result chunk :
  Forall sound_chunk result -> sound_chunk chunk ->
  Forall sound_chunk (split_one max_tokens result chunk).
Proof.
  intros Hr Hc. unfold split_one.
  destruct (token_count chunk <=? max_tokens).
  - apply Forall_app. split; [exact Hr|]. constructor; [exact Hc|constructor].
  - pose proof (split_loop_sound chunk max_tokens
                  (split_into_sentences (content chunk))
                  (result, [], start_char chunk)
                  (sentences_have_tokens _) (or_introl eq_refl) Hr) as H.
    destruct (fold_left _ _ _) as [[result' current_text] current_start].
    cbn [fst snd] in H.
    destruct (nonempty (strip current_text)) eqn:E; [|exact H].
    apply Forall_app. split; [exact H|]. constructor; [|constructor]. split.
    + cbn [sub_chunk content]. rewrite words_strip. apply nonempty_strip_words, E.
    + apply estimate_tokens_nonneg.
Qed.

Lemma split_large_chunks_sound chunks max_tokens :
  Forall sound_chunk chunks -> Forall sound_chunk (_split_large_chunks chunks max_tokens).
Proof.
  unfold _split_large_chunks. generalize (@nil TextChunk) (List.Forall_nil sound_chunk).
  induction chunks as [|c cs IH]; intros result Hr Hcs; simpl; [exact Hr|].
  inversion Hcs; subst. apply IH; [apply split_one_sound; assumption|assumption].
Qed.

Lemma reindex_sound chunks : forall i,
  Forall sound_chunk chunks -> Forall sound_chunk (reindex i chunks).
Proof.
  induction chunks as [|c cs IH]; intros i H; simpl; [constructor|].
  inversion H as [|? ? Hc Hcs]; subst. constructor; [exact Hc|apply IH, Hcs].
Qed.

(** X4. Every chunk [chunk_text] returns has a content with at least
    one token (so it is never empty or blank) and a token count that is
    not negative. *)
Theorem chunk_text_chunks_sound
    (text file_type : str) (min_tokens max_tokens overlap_tokens : Z) :
  Forall sound_chunk
    (chunk_text text file_type min_tokens max_tokens overlap_tokens).
Proof.
  unfold chunk_text. destruct (nonempty (strip text)) eqn:E; [|constructor].
  apply reindex_sound, split_large_chunks_sound, merge_small_chunks_sound,
    first_pass_sound, E.
Qed.

(** *** Merge repair *)

Lemma merge_loop_total min_tokens rest : forall current,
  total_tokens (merge_loop min_tokens current rest)
  = token_count current + total_tokens rest.
Proof.
  induction rest as [|n rest IH]; intros current; simpl; [reflexivity|].
  destruct (token_count current <? min_tokens).
  - rewrite IH. unfold merge_pair; cbn [token_count]. lia.
  - simpl. rewrite IH. reflexivity.
Qed.

Lemma merge_loop_length min_tokens rest : forall current,
  (length (merge_loop min_tokens current rest) <= S (length rest))%nat.
Proof.
  induction rest as [|n rest IH]; intros current; simpl; [lia|].
  destruct (token_count current <? min_tokens).
  - specialize (IH (merge_pair current n)). lia.
  - simpl. specialize (IH n). lia.
Qed.

Lemma merge_loop_fixed min_tokens rest : forall current,
  Forall (fun c => min_tokens <= token_count c) (removelast (current :: rest)) ->
  merge_loop min_tokens current rest = current :: rest.
Proof.
  induction rest as [|n rest IH]; intros current H; [reflexivity|].
  cbn [merge_loop].
  change (removelast (current :: n :: rest)) with (current :: removelast (n :: rest)) in H.
  inversion H as [|? ? Hc Hr]; subst.
  destruct (token_count current <? min_tokens) eqn:E; [apply Z.ltb_lt in E; lia|].
  rewrite (IH n Hr). reflexivity.
Qed.

(** X5. The merge-repair pass keeps the sum of the token counts, never
    makes the list longer, and changes nothing when every chunk but the
    last already meets the floor. *)
Theorem merge_small_chunks_conserves (chunks : list TextChunk) (min_tokens : Z) :
  total_tokens (_merge_small_chunks chunks min_tokens) = total_tokens chunks
  /\ (length (_merge_small_chunks chunks min_tokens) <= length chunks)%nat
  /\ (Forall (fun c => min_tokens <= token_count c) (removelast chunks) ->
      _merge_small_chunks chunks min_tokens = chunks).
Proof.
  unfold _merge_small_chunks. destruct chunks as [|c [|c' rest]].
  - repeat split; lia.
  - repeat split; lia.
  - split; [|split].
    + rewrite merge_loop_total. reflexivity.
    + apply merge_loop_length.
    + apply merge_loop_fixed.
Qed.

Lemma merge_small_chunks_conserves_witness :
  Forall (fun c => 300 <= token_count c)
    (removelast [ScenarioProps.chunk_of_size 500; ScenarioProps.chunk_of_size 10])
  /\ _merge_small_chunks
       [ScenarioProps.chunk_of_size 500; ScenarioProps.chunk_of_size 10] 300
     = [ScenarioProps.chunk_of_size 500; ScenarioProps.chunk_of_size 10].
Proof.
  assert (H : Forall (fun c => 300 <= token_count c)
    (removelast [ScenarioProps.chunk_of_size 500; ScenarioProps.chunk_of_size 10])).
  { simpl. constructor; [simpl; lia|constructor]. }
  split; [exact H|].
  exact (proj2 (proj2 (merge_small_chunks_conserves _ 300)) H).
Defined.

(** *** Split repair *)

Lemma split_fold_app max_tokens cs : forall result,
  fold_left (split_one max_tokens) cs result
  = result ++ fold_left (split_one max_tokens) cs [].
Proof.
  assert (Hone : forall result c,
            split_one max_tokens result c = result ++ split_one max_tokens [] c).
  { intros result c. unfold split_one.
    destruct (token_count c <=? max_tokens); [reflexivity|].
    assert (Hloop : forall ss r t s,
              fold_left (split_step c max_tokens) ss (r, t, s)
              = (r ++ fst (fst (fold_left (split_step c max_tokens) ss ([], t, s))),
                 snd (fst (fold_left (split_step c max_tokens) ss ([], t, s))),
                 snd (fold_left (split_step c max_tokens) ss ([], t, s)))).
    { induction ss as [|x ss IHs]; intros r t s; simpl.
      - rewrite app_nil_r. reflexivity.
      - destruct x as [sentence rel_pos].
        destruct (nonempty t
                  && (max_tokens <? estimate_tokens t + estimate_tokens sentence)).
        + rewrite (IHs (r ++ [sub_chunk c t s])), (IHs [sub_chunk c t s]).
          cbn [fst snd]. rewrite <- app_assoc. reflexivity.
        + apply IHs. }
    match goal with
    | |- context [fold_left ?f ?l (@nil TextChunk, ?t, ?s)] =>
        set (R := fold_left f l (@nil TextChunk, t, s))
    end.
    match goal with
    | |- context [fold_left ?f ?l (result, ?t, ?s)] =>
        set (L := fold_left f l (result, t, s))
    end.
    assert (HLR : L = (result ++ fst (fst R), snd (fst R), snd R))
      by apply Hloop.
    clearbody L R. rewrite HLR.
    destruct R as [[r' t'] s']. cbn [fst snd].
    destruct (nonempty (strip t')); [rewrite <- app_assoc|]; reflexivity. }
  induction cs as [|c cs IH]; intros result; simpl.
  - rewrite app_nil_r. reflexivity.
  - rewrite IH, (IH (split_one max_tokens [] c)), Hone, <- app_assoc. reflexivity.
Qed.

(** X6. The split-repair pass works chunk by chunk: the result for a
    list is the results for its parts, one after the other, and a chunk
    within the maximum comes out as it went in.  A list whose chunks are
    all within the maximum is returned unchanged. *)
Theorem split_large_chunks_local (a b : list TextChunk) (max_tokens : Z) :
  _split_large_chunks (a ++ b) max_tokens
  = _split_large_chunks a max_tokens ++ _split_large_chunks b max_tokens
  /\ (Forall (fun c => token_count c <= max_tokens) a ->
      _split_large_chunks a max_tokens = a).
Proof.
  unfold _split_large_chunks. split.
  - rewrite fold_left_app. apply split_fold_app.
  - induction a as [|c cs IH]; intros H; [reflexivity|].
    inversion H as [|? ? Hc Hcs]; subst. simpl.
    rewrite split_fold_app, (IH Hcs). unfold split_one.
    destruct (token_count c <=? max_tokens) eqn:E; [reflexivity|].
    apply Z.leb_gt in E. lia.
Qed.

Lemma split_large_chunks_local_witness :
  Forall (fun c => token_count c <= 600)
    [ScenarioProps.chunk_of_size 500; ScenarioProps.chunk_of_size 10]
  /\ _split_large_chunks
       [ScenarioProps.chunk_of_size 500; ScenarioProps.chunk_of_size 10] 600
     = [ScenarioProps.chunk_of_size 500; ScenarioProps.chunk_of_size 10].
Proof.
  assert (H : Forall (fun c => token_count c <= 600)
    [ScenarioProps.chunk_of_size 500; ScenarioProps.chunk_of_size 10]).
  { repeat constructor; simpl; lia. }
  split; [exact H|].
  exact (proj2 (split_large_chunks_local _ [] 600) H).
Defined.

End ChunkingExtras.

Module LabelExtras.
Import PyStr TextProps PyStrFacts Chunking Lifecycle LabelProps.
Local Open Scope Z_scope.

Lemma digit_run_app ds c r :
  Forall (fun c => is_digit c = true) ds -> is_digit c = false ->
  digit_run (ds ++ c :: r) = ds.
Proof.
  intros Hd Hc. induction Hd as [|d ds Hd _ IH]; simpl.
  - rewrite Hc. reflexivity.
  - rewrite Hd, IH. reflexivity.
Qed.

Lemma digit_run_digits s : Forall (fun c => is_digit c = true) (digit_run s).
Proof.
  induction s as [|c s IH]; simpl; [constructor|].
  destruct (is_digit c) eqn:E; constructor; assumption.
Qed.

Lemma strip_prefix_app p r : strip_prefix p (p ++ r) = Some r.
Proof.
  induction p as [|a p IH]; simpl; [reflexivity|].
  rewrite Ascii.eqb_refl. exact IH.
Qed.

Lemma match_page_marker_digits s ds :
  match_page_marker s = Some ds ->
  ds <> [] /\ Forall (fun c => is_digit c = true) ds.
Proof.
  unfold match_page_marker.
  destruct (strip_prefix (lit "[PAGE ") s) as [r|]; [|discriminate].
  pose proof (digit_run_digits r) as Hd.
  destruct (digit_run r) as [|d ds'] eqn:E; [discriminate|].
  match goal with
  | |- context [skipn ?k r] => destruct (skipn k r) as [|c r']
  end; [discriminate|].
  destruct (Ascii.eqb c "]"); [|discriminate].
  intros [= <-]. split; [discriminate|exact Hd].
Qed.

Lemma search_page_marker_digits s ds :
  search_page_marker s = Some ds ->
  ds <> [] /\ Forall (fun c => is_digit c = true) ds.
Proof.
  induction s as [|c s IH]; simpl.
  - discriminate.
  - destruct (match_page_marker (c :: s)) eqn:E.
    + intros [= <-]. exact (match_page_marker_digits _ _ E).
    + exact IH.
Qed.

Lemma match_page_marker_at n rest :
  0 <= n -> match_page_marker (page_marker n ++ rest) = Some (of_Z n).
Proof.
  intros Hn. destruct (of_Z_digits n Hn) as [Hne Hd].
  unfold match_page_marker, page_marker.
  rewrite <- !app_assoc, strip_prefix_app.
  change (lit "]" ++ rest) with ("]"%char :: rest).
  rewrite (digit_run_app _ _ _ Hd) by reflexivity.
  destruct (of_Z n) as [|a l] eqn:E; [congruence|].
  rewrite drop_app_length. reflexivity.
Qed.

Lemma extract_page_number_at n rest :
  0 <= n ->
  extract_page_number (page_marker n ++ rest) = Some (lit "p." ++ of_Z n).
Proof.
  intros Hn. unfold extract_page_number.
  assert (H : search_page_marker (page_marker n ++ rest) = Some (of_Z n)).
  { pose proof (match_page_marker_at n rest Hn) as Hm.
    destruct (page_marker n ++ rest) as [|c s]; [discriminate Hm|].
    simpl. rewrite Hm. reflexivity. }
  rewrite H. reflexivity.
Qed.

Lemma join_head (sep a : list ascii) (l : list (list ascii)) :
  exists rest, join sep (a :: l) = a ++ rest.
Proof.
  destruct l as [|b l].
  - exists []. simpl. symmetry. apply app_nil_r.
  - eexists. reflexivity.
Qed.

Lemma pdf_text_parts_head : forall pages page_num,
  0 <= page_num ->
  match first_nonblank page_num pages with
  | Some k =>
      page_num <= k
      /\ exists rest, join (lit "

") (pdf_text_parts page_num pages) = page_marker k ++ rest
  | None => pdf_text_parts page_num pages = []
  end.
Proof.
  induction pages as [|page_text pages IH]; intros page_num Hn;
    cbn [first_nonblank pdf_text_parts]; [reflexivity|].
  destruct (nonempty (strip page_text)).
  - split; [lia|].
    match goal with
    | |- context [join ?sep (?a :: ?l)] =>
        destruct (join_head sep a l) as [rest Hr]; rewrite Hr
    end.
    exists (lit "
" ++ page_text ++ rest). unfold page_marker.
    rewrite <- !app_assoc. reflexivity.
  - specialize (IH (page_num + 1) ltac:(lia)).
    destruct (first_nonblank (page_num + 1) pages); [|exact IH].
    destruct IH as [Hle Hex]. split; [lia|exact Hex].
Qed.

Lemma label_of_page ds :
  ds <> [] -> Forall (fun c => is_digit c = true) ds -> label_shape (lit "p." ++ ds).
Proof. intros H1 H2. left. exists ds. repeat split; assumption. Qed.

(** X7. A section label, when there is one, is [p.] followed by one or
    more digits, or [## ] followed by a non-empty title; a page marker
    in the 500 characters before the position wins over any heading;
    and at position 0 there is never a label. *)
Theorem find_section_context_shape (full_text : str) (position : Z) (l : str) :
  find_section_context full_text position = Some l ->
  label_shape l
  /\ find_section_context full_text 0 = None
  /\ (forall page,
        extract_page_number
          (if 500 <? len (py_prefix full_text position)
           then py_last 500 (py_prefix full_text position)
           else py_prefix full_text position) = Some page ->
        l = page).
Proof.
  intros H. split; [|split].
  - unfold find_section_context in H.
    destruct (extract_page_number _) as [page|] eqn:Ep.
    + injection H as <-. unfold extract_page_number in Ep.
      destruct (search_page_marker _) as [ds|] eqn:Es; [|discriminate].
      injection Ep as <-.
      destruct (search_page_marker_digits _ _ Es). apply label_of_page; assumption.
    + destruct (extract_markdown_section _) as [[|c section]|]; try discriminate.
      injection H as <-. right. exists (c :: section). split; [discriminate|reflexivity].
  - reflexivity.
  - intros page Hp. unfold find_section_context in H. rewrite Hp in H. congruence.
Qed.

Lemma find_section_context_shape_witness :
  find_section_context (lit "[PAGE 5]
Some content on page 5.

More content.") 30 = Some (lit "p.5")
  /\ label_shape (lit "p.5").
Proof.
  assert (H : find_section_context (lit "[PAGE 5]
Some content on page 5.

More content.") 30 = Some (lit "p.5")) by (vm_compute; reflexivity).
  split; [exact H|].
  exact (proj1 (find_section_context_shape _ _ _ H)).
Defined.

(** X8. The page markers the PDF extraction writes are the ones the
    chunker reads: in the text built from the pages, the first marker
    found is that of the first page that is not blank, and every
    position after that marker and within the first 500 characters is
    labelled with that page; when all pages are blank the text is
    empty. *)
Theorem pdf_page_markers_read_back (pages : list str) :
  match first_nonblank 1 pages with
  | Some k =>
      extract_page_number (pdf_text pages) = Some (lit "p." ++ of_Z k)
      /\ forall position,
           len (page_marker k) <= position <= 500 ->
           find_section_context (pdf_text pages) position
           = Some (lit "p." ++ of_Z k)
  | None => pdf_text pages = []
  end.
Proof.
  pose proof (pdf_text_parts_head pages 1 ltac:(lia)) as H.
  unfold pdf_text.
  destruct (first_nonblank 1 pages) as [k|]; [|rewrite H; reflexivity].
  destruct H as [Hk [rest Hr]]. rewrite Hr. split.
  - apply extract_page_number_at. lia.
  - intros position [Hlo Hhi]. unfold find_section_context.
    assert (Hpre : exists rest', py_prefix (page_marker k ++ rest) position
                                 = page_marker k ++ rest').
    { unfold py_prefix, len in *.
      destruct (0 <=? position) eqn:E; [|apply Z.leb_gt in E; lia].
      exists (firstn (Z.to_nat position - length (page_marker k)) rest).
      rewrite firstn_app. f_equal. apply firstn_all2. lia. }
    destruct Hpre as [rest' Hpre].
    assert (Hlen : len (py_prefix (page_marker k ++ rest) position) <= 500).
    { unfold py_prefix, len in *.
      destruct (0 <=? position) eqn:E; [|apply Z.leb_gt in E; lia].
      pose proof (firstn_le_length (Z.to_nat position) (page_marker k ++ rest)).
      lia. }
    destruct (500 <? len (py_prefix (page_marker k ++ rest) position)) eqn:E;
      [apply Z.ltb_lt in E; lia|].
    rewrite Hpre, extract_page_number_at by lia. reflexivity.
Qed.

Lemma pdf_page_markers_read_back_witness :
  len (page_marker 2) <= 20 <= 500
  /\ find_section_context (pdf_text [lit "  "; lit "Second page text."]) 20
     = Some (lit "p.2").
Proof.
  split; [vm_compute; split; discriminate|].
  apply (proj2 (pdf_page_markers_read_back [lit "  "; lit "Second page text."])).
  vm_compute. split; discriminate.
Defined.

End LabelExtras.

Module RetrievalExtras.
Import PyStr TextProps PyStrFacts Models Retrieval RetrievalProps RetrievalFacts RankingProps ModelProps Embeddings Citations HitProps.
Local Open Scope Z_scope.

(** *** What search returns *)

Lemma get_chunk_by_id_key db cid c :
  get_chunk_by_id db cid = Some c -> chunk_id c = cid.
Proof.
  unfold get_chunk_by_id.
  destruct (List.find _ (knowledge_chunks db)) as [row|] eqn:E; [|discriminate].
  intros [= <-]. apply find_some in E. destruct E as [_ E].
  unfold str_eqb in E. apply bool_decide_eq_true in E. exact E.
Qed.

Lemma resolve_hit_provenance db tf h r :
  resolve_hit db tf h = Some r ->
  chunk_id (chunk r) = hit_chunk_id h
  /\ sr_similarity_score r = hit_similarity h
  /\ similarity_score (chunk r) = Some (hit_similarity h)
  /\ source (chunk r) = sr_source r
  /\ get_chunk_by_id db (hit_chunk_id h)
     = Some {| kc_id := kc_id (chunk r); source_id := source_id (chunk r);
               chunk_id := chunk_id (chunk r); content := content (chunk r);
               page_or_section := page_or_section (chunk r);
               chunk_index := chunk_index (chunk r);
               token_count := token_count (chunk r);
               start_char := start_char (chunk r); end_char := end_char (chunk r);
               source := None; similarity_score := None |}.
Proof.
  unfold resolve_hit.
  destruct (get_chunk_by_id db (hit_chunk_id h)) as [c|] eqn:Ec; [|discriminate].
  destruct (get_source_by_id db (source_id c)) as [src|]; [|discriminate].
  destruct (match tf with Some t => t <? trust_level src | None => false end);
    [discriminate|].
  intros [= <-]. cbn [chunk sr_similarity_score sr_source chunk_id
                       similarity_score source kc_id source_id content
                       page_or_section chunk_index token_count start_char end_char].
  repeat split; try reflexivity.
  - exact (get_chunk_by_id_key _ _ _ Ec).
  - f_equal. unfold get_chunk_by_id in Ec.
    destruct (List.find _ (knowledge_chunks db)); [|discriminate].
    injection Ec as <-. reflexivity.
Qed.

Lemma collect_results_from_hits db tf hits r :
  In r (collect_results db tf hits) ->
  exists h, In h hits /\ resolve_hit db tf h = Some r.
Proof.
  induction hits as [|h hs IH]; simpl; [intros []|].
  destruct (resolve_hit db tf h) as [r'|] eqn:E.
  - intros [<-|H].
    + exists h. split; [left; reflexivity|exact E].
    + destruct (IH H) as [h' [Hin Hr]]. exists h'. split; [right|]; assumption.
  - intros H. destruct (IH H) as [h' [Hin Hr]]. exists h'. split; [right|]; assumption.
Qed.

Lemma sort_desc_length l : length (sort_desc l) = length l.
Proof.
  unfold sort_desc.
  assert (H : forall acc, length (fold_left (fun a x => insert_desc x a) l acc)
                          = (length l + length acc)%nat).
  { induction l as [|x l IH]; intros acc; simpl; [reflexivity|].
    rewrite IH, insert_desc_length. lia. }
  rewrite H. simpl. lia.
Qed.

Lemma py_take_nonneg {A} n (l : list A) :
  0 <= n -> py_take n l = firstn (Z.to_nat n) l.
Proof.
  intros Hn. unfold py_take. destruct (0 <=? n) eqn:E; [reflexivity|].
  apply Z.leb_gt in E. lia.
Qed.

Lemma search_unfold db search_similar n tf :
  exists keyed,
    search db search_similar n tf = Some (py_take n (map snd (sort_desc keyed)))
    /\ map snd keyed = collect_results db tf (search_similar (n * 2)).
Proof.
  unfold search.
  destruct (with_keys_total db tf (collect_results db tf (search_similar (n * 2))))
    as (keyed & Hk & Hm & _).
  { intros r. apply collect_results_well_formed. }
  exists keyed. rewrite Hk. split; [reflexivity|exact Hm].
Qed.

Lemma resolve_hit_admitted db tf h :
  match resolve_hit db tf h with Some _ => true | None => false end
  = admitted db tf h.
Proof.
  unfold resolve_hit, admitted, get_chunk_by_id, get_source_by_id, str_eqb.
  destruct (List.find _ (knowledge_chunks db)) as [crow|]; [|reflexivity].
  cbn [source_id KnowledgeChunk_from_row].
  destruct (sources db !! crow_source_id crow) as [srow|]; [|reflexivity].
  cbn [trust_level Source_from_row].
  destruct tf as [t|]; [|reflexivity].
  rewrite Z.leb_antisym.
  destruct (t <? int_or (row_trust_level srow) 1); reflexivity.
Qed.

Lemma collect_results_admitted db tf hits :
  length (collect_results db tf hits) = length (List.filter (admitted db tf) hits).
Proof.
  induction hits as [|h hs IH]; [reflexivity|].
  cbn [collect_results List.filter]. rewrite <- (resolve_hit_admitted db tf h).
  destruct (resolve_hit db tf h); simpl; rewrite IH; reflexivity.
Qed.

(** X9. [search] invents nothing and loses nothing but by its limit:
    for a limit [k > 0] it returns exactly [min k a] results, where [a]
    is the number of fetched hits that are admitted (the fragment row
    and its document row exist and the document is within the trust
    filter), and every result carries the key and the similarity of an
    admitted hit of the index, with the resolved source attached to its
    chunk. *)
Theorem search_returns_admitted_hits (db : Db) (search_similar : Z -> list Hit)
    (n_results : Z) (trust_filter : option Z) :
  0 < n_results ->
  exists rs,
    search db search_similar n_results trust_filter = Some rs
    /\ Z.of_nat (length rs)
       = Z.min n_results
           (Z.of_nat (length (List.filter (admitted db trust_filter)
                                (search_similar (n_results * 2)))))
    /\ forall r, In r rs ->
         exists h, In h (search_similar (n_results * 2))
           /\ admitted db trust_filter h = true
           /\ chunk_id (chunk r) = hit_chunk_id h
           /\ sr_similarity_score r = hit_similarity h
           /\ similarity_score (chunk r) = Some (hit_similarity h)
           /\ source (chunk r) = sr_source r.
Proof.
  intros Hn.
  destruct (search_unfold db search_similar n_results trust_filter)
    as (keyed & Hs & Hm).
  eexists. split; [exact Hs|]. rewrite py_take_nonneg by lia. split.
  - rewrite length_firstn, length_map, sort_desc_length,
      <- collect_results_admitted, <- Hm, length_map. lia.
  - intros r Hr. apply In_firstn_In in Hr. apply in_map_iff in Hr.
    destruct Hr as [p [<- Hp]]. apply (proj1 (sort_desc_in _ _)) in Hp.
    assert (Hin : In (snd p) (collect_results db trust_filter
                                (search_similar (n_results * 2)))).
    { rewrite <- Hm. apply in_map, Hp. }
    destruct (collect_results_from_hits _ _ _ _ Hin) as [h [Hh Hr]].
    destruct (resolve_hit_provenance _ _ _ _ Hr) as (H1 & H2 & H3 & H4 & _).
    exists h. split; [exact Hh|]. split.
    { rewrite <- (resolve_hit_admitted db trust_filter h), Hr. reflexivity. }
    repeat split; assumption.
Qed.

Lemma search_returns_admitted_hits_witness :
  0 < 5
  /\ exists rs, search example_db example_hits 5 None = Some rs
       /\ Z.of_nat (length rs) = 2.
Proof.
  split; [lia|].
  destruct (search_returns_admitted_hits example_db example_hits 5 None)
    as (rs & Hs & Hl & _); [lia|].
  exists rs. split; [exact Hs|]. rewrite Hl. vm_compute. reflexivity.
Defined.

(** *** Citation strings *)

(** X10. For a result of [search] whose document has a file name, the
    citation string of the result is the one the chunk itself reports
    through its [citation_ref] property: the file name, followed by a
    comma and the section label when the chunk has one. *)
Theorem search_citation_agrees (db : Db) (search_similar : Z -> list Hit)
    (n_results : Z) (trust_filter : option Z) (rs : list SearchResult)
    (r : SearchResult) (src : Source) :
  search db search_similar n_results trust_filter = Some rs ->
  In r rs ->
  sr_source r = Some src ->
  opt_truthy (file_name src) = true ->
  citation_ref r = kc_citation_ref (chunk r)
  /\ citation_ref r
     = Retrieval.fmt_opt (file_name src)
       ++ (if opt_truthy (page_or_section (chunk r))
           then lit ", " ++ Retrieval.fmt_opt (page_or_section (chunk r))
           else []).
Proof.
  intros Hs Hr Hsrc Hname.
  destruct (search_unfold db search_similar n_results trust_filter)
    as (keyed & Hs' & Hm).
  rewrite Hs in Hs'. injection Hs' as ->.
  destruct (py_take_firstn n_results (map snd (sort_desc keyed))) as [k Hk].
  rewrite Hk in Hr. apply In_firstn_In in Hr. apply in_map_iff in Hr.
  destruct Hr as [p [<- Hp]]. apply (proj1 (sort_desc_in _ _)) in Hp.
  assert (Hin : In (snd p) (collect_results db trust_filter
                              (search_similar (n_results * 2)))).
  { rewrite <- Hm. apply in_map, Hp. }
  destruct (collect_results_from_hits _ _ _ _ Hin) as [h [_ Hres]].
  revert Hsrc Hname. generalize (snd p) Hres. clear. intros r Hres.
  unfold resolve_hit in Hres.
  destruct (get_chunk_by_id db (hit_chunk_id h)) as [c|]; [|discriminate].
  destruct (get_source_by_id db (source_id c)) as [s|]; [|discriminate].
  destruct (match trust_filter with Some t => t <? trust_level s | None => false end);
    [discriminate|].
  injection Hres as <-. cbn [sr_source citation_ref chunk]. intros [= <-] Hname.
  unfold kc_citation_ref. cbn [source page_or_section chunk_index].
  rewrite Hname.
  destruct (page_or_section c) as [[|ch sec]|]; cbn [opt_truthy fmt_opt];
    rewrite ?app_nil_r; split; reflexivity.
Qed.

Lemma search_citation_agrees_witness :
  search example_db example_hits 2 (Some 2) = Some [example_note_result]
  /\ citation_ref example_note_result = kc_citation_ref (chunk example_note_result).
Proof.
  assert (Hs : search example_db example_hits 2 (Some 2) = Some [example_note_result])
    by (vm_compute; reflexivity).
  split; [exact Hs|].
  apply (search_citation_agrees example_db example_hits 2 (Some 2)
           [example_note_result] example_note_result
           (Source_from_row 1 (example_row "note.md" 1)) Hs).
  - left. reflexivity.
  - reflexivity.
  - reflexivity.
Defined.

(** *** Quotes *)

Lemma words_from_tokens s : forall cur,
  Forall (fun c => is_space c = false) cur ->
  Forall token (words_from cur s).
Proof.
  assert (Hrev : forall cur : str, cur <> [] ->
            Forall (fun c => is_space c = false) cur -> token (rev cur)).
  { intros cur Hne Hc. split.
    - intros E. apply (f_equal (@rev ascii)) in E. rewrite rev_involutive in E.
      simpl in E. congruence.
    - apply Forall_rev. exact Hc. }
  induction s as [|c s IH]; intros cur Hcur; simpl.
  - destruct cur as [|d cur]; [constructor|].
    constructor; [apply Hrev; [discriminate|exact Hcur]|constructor].
  - destruct (is_space c) eqn:E.
    + destruct cur as [|d cur]; [apply IH; constructor|].
      constructor; [apply Hrev; [discriminate|exact Hcur]|apply IH; constructor].
    + apply IH. constructor; assumption.
Qed.

Lemma words_tokens s : Forall token (words s).
Proof. apply words_from_tokens. constructor. Qed.

Lemma words_from_nonspace w : forall cur,
  Forall (fun c => is_space c = false) w ->
  words_from cur w = match rev w ++ cur with [] => [] | x => [rev x] end.
Proof.
  induction w as [|c w IH]; intros cur Hw; simpl.
  - destruct cur; reflexivity.
  - inversion Hw as [|? ? Hc Hw']; subst. rewrite Hc, (IH _ Hw').
    rewrite <- app_assoc. reflexivity.
Qed.

Lemma words_of_token w : token w -> words w = [w].
Proof.
  intros [Hne Hw]. unfold words. rewrite (words_from_nonspace w [] Hw).
  rewrite app_nil_r. destruct (rev w) eqn:E.
  - apply (f_equal (@rev ascii)) in E. rewrite rev_involutive in E. simpl in E.
    congruence.
  - rewrite <- E, rev_involutive. reflexivity.
Qed.

Lemma words_join_tokens ws :
  Forall token ws -> words (join (lit " ") ws) = ws.
Proof.
  intros H. rewrite words_join; [|repeat constructor|discriminate].
  induction H as [|w ws Hw _ IH]; simpl; [reflexivity|].
  rewrite (words_of_token w Hw), IH. reflexivity.
Qed.

Lemma Forall_firstn_token n ws : Forall token ws -> Forall token (firstn n ws).
Proof. intros H. apply Forall_take. exact H. Qed.

(** X11. For a limit of at least 0, [extract_quote] puts between double
    quotes the first [max_words] words of the text, single-spaced, with
    three dots after them exactly when the text has more words than the
    limit: a quote never has more than [max_words] words, and a text
    within the limit is quoted in full. *)
Theorem extract_quote_words (text : str) (max_words : Z) :
  0 <= max_words ->
  exists body,
    words body = firstn (Z.to_nat max_words) (words text)
    /\ body = join (lit " ") (firstn (Z.to_nat max_words) (words text))
    /\ extract_quote text max_words
       = [dquote] ++ body
         ++ (if Z.of_nat (length (words text)) <=? max_words then [] else lit "...")
         ++ [dquote].
Proof.
  intros Hn. unfold extract_quote.
  rewrite (words_join_tokens (words text) (words_tokens text)).
  exists (join (lit " ") (firstn (Z.to_nat max_words) (words text))).
  split; [|split].
  - apply words_join_tokens, Forall_firstn_token, words_tokens.
  - reflexivity.
  - destruct (Z.of_nat (length (words text)) <=? max_words) eqn:E.
    + apply Z.leb_le in E. rewrite firstn_all2 by lia. reflexivity.
    + rewrite py_take_nonneg by exact Hn. reflexivity.
Qed.

Lemma extract_quote_words_witness :
  0 <= 2
  /\ extract_quote (lit "  one   two
three ") 2 = [dquote] ++ lit "one two..." ++ [dquote].
Proof.
  split; [lia|].
  destruct (extract_quote_words (lit "  one   two
three ") 2) as (body & _ & Hb & Hq); [lia|].
  rewrite Hq, Hb. vm_compute. reflexivity.
Defined.

(** *** Distances and similarities *)






End RetrievalExtras.

Module AskingExtras.
Import PyStr TextProps PyStrFacts Models Retrieval RetrievalProps RetrievalFacts RankingProps Query Citations Asking AskingProps.
Local Open Scope Z_scope.

(** *** From search to context *)

Lemma join_nonempty (sep p : list ascii) (ps : list (list ascii)) :
  p <> [] -> join sep (p :: ps) <> [].
Proof.
  intros Hp. destruct ps as [|q ps]; [exact Hp|].
  change (join sep (p :: q :: ps)) with (p ++ sep ++ join sep (q :: ps)).
  destruct p; [congruence|discriminate].
Qed.

Lemma number_from_join_empty i used :
  join (lit "
---
") (number_from i used) = [] <-> used = [].
Proof.
  split.
  - destruct used as [|r used]; [reflexivity|]. intros H. exfalso.
    cbn [number_from] in H. revert H. apply join_nonempty. discriminate.
  - intros ->. reflexivity.
Qed.

Lemma assemble_context_spec results max_tokens :
  exists used rest,
    results = used ++ rest
    /\ assemble_context results max_tokens
       = (join (lit "
---
") (number_from 1 used), used).
Proof.
  unfold assemble_context. destruct results as [|r0 rs0] eqn:E.
  - exists [], []. split; reflexivity.
  - rewrite <- E.
    destruct (RetrievalClaims.context_loop_spec max_tokens results 1 [] 0)
      as (used & rest & Hres & Hloop & _ & _).
    exists used, rest. split; [exact Hres|]. rewrite Hloop. cbn [app].
    f_equal. unfold py_take.
    rewrite RetrievalClaims.number_from_length.
    destruct (0 <=? Z.of_nat (length used)) eqn:E0; [|apply Z.leb_gt in E0; lia].
    rewrite Nat2Z.id, Hres, firstn_app, Nat.sub_diag, firstn_all. simpl.
    apply app_nil_r.
Qed.

(** X13. Once the vector index has answered,
    [get_context_for_query] returns without raising.  The results it
    reports as used are a leading part of what [search] returns for the same
    arguments, so there are at most [n_chunks] of them (for
    [n_chunks >= 0]) and with a trust filter each of them is within the
    filter; and the context is empty exactly when no result is used. *)
Theorem get_context_for_query_composes (db : Db) (search_similar : Z -> list Hit)
    (n_chunks max_tokens : Z) (trust_filter : option Z) :
  exists rs context used,
    search db search_similar n_chunks trust_filter = Some rs
    /\ get_context_for_query db search_similar n_chunks max_tokens trust_filter
       = Some (context, used)
    /\ (exists rest, rs = used ++ rest)
    /\ (0 <= n_chunks -> Z.of_nat (length used) <= n_chunks)
    /\ (context = [] <-> used = [])
    /\ (forall t r, trust_filter = Some t -> In r used ->
          exists src, sr_source r = Some src /\ trust_level src <= t).
Proof.
  destruct (search_spec db search_similar n_chunks trust_filter)
    as (rs & Hs & Hwf & _ & Hlen).
  destruct (assemble_context_spec rs max_tokens) as (used & rest & Hres & Ha).
  exists rs, (join (lit "
---
") (number_from 1 used)), used.
  unfold get_context_for_query. rewrite Hs, Ha.
  repeat split.
  - exists rest. exact Hres.
  - intros Hn. specialize (Hlen Hn). rewrite Hres, length_app in Hlen. lia.
  - apply number_from_join_empty.
  - intros ->. reflexivity.
  - intros t r Ht Hr.
    destruct (Hwf r) as (src & H1 & _ & _ & H4).
    { rewrite Hres. apply in_or_app. left. exact Hr. }
    rewrite Ht in H4. exists src. split; assumption.
Qed.

Lemma get_context_for_query_composes_witness :
  0 <= 2
  /\ exists context used,
       get_context_for_query example_db example_hits 2 1 None
       = Some (context, used)
       /\ Z.of_nat (length used) <= 2.
Proof.
  split; [lia|].
  destruct (get_context_for_query_composes example_db example_hits 2 1 None)
    as (rs & context & used & _ & Hg & _ & Hl & _).
  exists context, used. split; [exact Hg|]. apply Hl. lia.
Defined.

(** *** ask *)

Lemma footer_nonempty results :
  results <> [] -> format_citations_footer results <> [].
Proof.
  destruct results as [|r rs]; [congruence|]. intros _.
  unfold format_citations_footer. apply join_nonempty. discriminate.
Qed.

(** X14. Once the vector index has answered, [ask] returns without
    raising (the generator reports its own failures as text) and echoes
    the question and the model.
    When the assembler used no result (nothing found, or the first
    result alone is over the budget), the answer is the fixed no-sources
    message, with no citations and a context of 0 tokens, whatever the
    generator would have said; [has_answer] is true of that message.
    Otherwise the answer is the generator's text for the prompt built
    from the context and the question, the sources are the used
    results, the footer is not empty, and the context tokens are a
    quarter of the context length. *)
Theorem ask_outcomes (db : Db) (search_similar : Z -> list Hit)
    (query_llm : str -> str -> str) (question : str)
    (n_sources max_context_tokens : Z) (trust_filter : option Z) (model : str) :
  exists a context used,
    ask db search_similar query_llm question n_sources max_context_tokens
      trust_filter model = Some a
    /\ get_context_for_query db search_similar n_sources max_context_tokens
         trust_filter = Some (context, used)
    /\ Query.query a = question /\ model_used a = model
    /\ sources_used a = used
    /\ (used = [] ->
          answer a = NO_SOURCES_ANSWER /\ citations a = []
          /\ context_tokens a = 0 /\ has_answer a = true
          /\ forall other_llm,
               ask db search_similar other_llm question n_sources
                 max_context_tokens trust_filter model = Some a)
    /\ (used <> [] ->
          answer a = query_llm (build_prompt context question) model
          /\ citations a = format_citations_footer used
          /\ citations a <> []
          /\ context_tokens a = len context / 4).
Proof.
  destruct (get_context_for_query_composes db search_similar n_sources
              max_context_tokens trust_filter)
    as (rs & context & used & _ & Hg & _ & _ & Hempty & _).
  unfold ask. rewrite Hg.
  destruct context as [|c context']; cbn [nonempty].
  - assert (Hu : used = []) by (apply Hempty; reflexivity). subst used.
    eexists; exists [], []. cbn [Query.query model_used sources_used answer
                                  citations context_tokens].
    repeat split; try reflexivity; try congruence.
  - assert (Hu : used <> []).
    { intros E. apply Hempty in E. discriminate. }
    eexists; exists (c :: context'), used.
    cbn [Query.query model_used sources_used answer citations context_tokens].
    do 5 (split; [reflexivity|]).
    split; [intros E; congruence|]. intros _.
    split; [reflexivity|]. split; [reflexivity|].
    split; [apply footer_nonempty, Hu|reflexivity].
Qed.

Lemma ask_outcomes_witness :
  exists a,
    ask example_db (fun _ => []) echo_llm (lit "why?") 5 3000 None (lit "m") = Some a
    /\ answer a = NO_SOURCES_ANSWER
    /\ ask example_db (fun _ => []) silent_llm (lit "why?") 5 3000 None (lit "m")
       = Some a.
Proof.
  destruct (ask_outcomes example_db (fun _ => []) echo_llm (lit "why?") 5 3000
              None (lit "m"))
    as (a & context & used & Ha & Hg & _ & _ & _ & Hnone & _).
  assert (Hu : used = []).
  { vm_compute in Hg. injection Hg as _ <-. reflexivity. }
  destruct (Hnone Hu) as (H1 & _ & _ & _ & H5).
  exists a. repeat split; [exact Ha|exact H1|apply H5].
Defined.

(** *** simple_search *)

Lemma snippet_bound content :
  len (snippet content) <= 303
  /\ (len content <= 300 -> snippet content = content)
  /\ firstn 300 (snippet content) = firstn 300 content.
Proof.
  unfold snippet, len.
  destruct (300 <? Z.of_nat (length content)) eqn:E.
  - apply Z.ltb_lt in E. repeat split.
    + pose proof (firstn_le_length 300 content) as Hle.
      rewrite length_app. change (length (lit "...")) with 3%nat. lia.
    + intros H. lia.
    + rewrite firstn_app, length_firstn.
      replace (300 - Nat.min 300 (length content))%nat with 0%nat by lia.
      simpl. rewrite app_nil_r. apply firstn_firstn.
  - apply Z.ltb_ge in E. split; [lia|]. split; reflexivity.
Qed.

(** X15. [simple_search] returns one entry per result of [search], in
    the same order, with the result's citation and similarity; its
    snippet has at most 303 characters, is the whole content when the
    content has at most 300, and agrees with the content on the first
    300 characters. *)
Theorem simple_search_entries (db : Db) (search_similar : Z -> list Hit)
    (n_results : Z) (trust_filter : option Z) :
  exists rs out,
    search db search_similar n_results trust_filter = Some rs
    /\ simple_search db search_similar n_results trust_filter = Some out
    /\ map (fun e => (snd (fst e), snd e)) out
       = map (fun r => (citation_ref r, sr_similarity_score r)) rs
    /\ Forall2 (fun e r =>
                  len (fst (fst e)) <= 303
                  /\ (len (content (chunk r)) <= 300 ->
                      fst (fst e) = content (chunk r))
                  /\ firstn 300 (fst (fst e)) = firstn 300 (content (chunk r)))
               out rs.
Proof.
  destruct (search_spec db search_similar n_results trust_filter)
    as (rs & Hs & _).
  exists rs. eexists. unfold simple_search. rewrite Hs.
  split; [reflexivity|]. split; [reflexivity|]. split.
  - rewrite map_map. reflexivity.
  - clear. induction rs as [|r rs IH]; simpl; constructor; [|exact IH].
    cbn [fst snd]. apply snippet_bound.
Qed.

End AskingExtras.

Module IngestionExtras.
Import PyStr TextProps PyStrFacts Models Ingestion IngestionProps ModelProps ChunkStore Lifecycle PathProps.
Local Open Scope Z_scope.

(** *** Paths *)

Lemma parse_path_from_part part : forall cur s,
  Forall (fun c => Ascii.eqb c "/" = false) part ->
  parse_path_from cur (part ++ s) = parse_path_from (rev part ++ cur) s.
Proof.
  induction part as [|c part IH]; intros cur s H; [reflexivity|].
  inversion H as [|? ? Hc Hp]; subst. simpl. rewrite Hc, (IH _ _ Hp).
  rewrite <- app_assoc. reflexivity.
Qed.

Lemma parse_path_from_str p : forall cur,
  Forall path_part p ->
  parse_path_from cur (path_str p)
  = match cur with [] => [] | _ :: _ => [rev cur] end ++ p.
Proof.
  induction p as [|part p IH]; intros cur H.
  - simpl. destruct cur; reflexivity.
  - inversion H as [|? ? [Hne Hpart] Hp]; subst.
    change (path_str (part :: p)) with ("/"%char :: part ++ path_str p).
    assert (Hrest : parse_path_from [] (part ++ path_str p) = part :: p).
    { rewrite (parse_path_from_part part [] _ Hpart), app_nil_r, (IH _ Hp).
      destruct (rev part) eqn:E.
      - apply (f_equal (@rev ascii)) in E. rewrite rev_involutive in E.
        simpl in E. congruence.
      - rewrite <- E, rev_involutive. reflexivity. }
    simpl. destruct cur; rewrite Hrest; reflexivity.
Qed.

(** X16. Writing a path as a string and reading it back gives the same
    path, whenever its components are not empty and contain no slash:
    the path a document is stored under is the path [verify_source]
    looks for. *)
Theorem parse_path_of_path_str (p : Path) :
  Forall path_part p -> parse_path (path_str p) = p.
Proof. intros H. exact (parse_path_from_str p [] H). Qed.

Lemma parse_path_of_path_str_witness :
  Forall path_part notes_path /\ parse_path (path_str notes_path) = notes_path.
Proof.
  assert (H : Forall path_part notes_path).
  { repeat constructor; try discriminate. }
  split; [exact H|]. exact (parse_path_of_path_str notes_path H).
Defined.

Lemma rfind_dot_dotless s : forall i best,
  dotless s -> rfind_dot s i best = best.
Proof.
  induction s as [|c s IH]; intros i best H; [reflexivity|].
  inversion H as [|? ? Hc Hs]; subst. simpl. rewrite Hc. apply IH, Hs.
Qed.

Lemma rfind_dot_last base e : forall i best,
  dotless e ->
  rfind_dot (base ++ "."%char :: e) i best = Some (i + length base)%nat.
Proof.
  induction base as [|c base IH]; intros i best He.
  - simpl. rewrite (rfind_dot_dotless e _ _ He). f_equal. lia.
  - simpl. rewrite (IH _ _ He). f_equal. lia.
Qed.

Lemma path_name_last (dir : Path) name : path_name (dir ++ [name]) = name.
Proof. unfold path_name. apply last_last. Qed.

Lemma suffix_of_name (dir : Path) base e :
  dotless e -> e <> [] ->
  path_suffix (dir ++ [base ++ "."%char :: e])
  = match base with [] => [] | _ :: _ => "."%char :: e end
  /\ path_stem (dir ++ [base ++ "."%char :: e])
     = match base with [] => "."%char :: e | _ :: _ => base end.
Proof.
  intros He Hne. unfold path_suffix, path_stem, suffix_index.
  rewrite path_name_last, (rfind_dot_last base e 0 None He). simpl Nat.add.
  destruct base as [|b base].
  - simpl. split; reflexivity.
  - assert (Hc : ((0 <? length (b :: base)) &&
                  (S (length (b :: base)) <? length ((b :: base) ++ "."%char :: e)))%nat
                 = true).
    { apply andb_true_iff. split; apply Nat.ltb_lt.
      - simpl. lia.
      - rewrite length_app. simpl. destruct e; [congruence|simpl; lia]. }
    rewrite Hc. split.
    + rewrite skipn_app, skipn_all, Nat.sub_diag. reflexivity.
    + rewrite firstn_app, firstn_all, Nat.sub_diag. simpl. rewrite app_nil_r.
      reflexivity.
Qed.

(** X17. A file whose name is a non-empty base followed by a supported
    extension is given the type of that extension, so every such file
    that [discover_new_sources] lists can be registered; a file named
    by the extension alone (such as [.md]) has no suffix for [pathlib],
    so it is listed by the glob but its type is not detected. *)
Theorem detect_file_type_of_supported (dir : Path) (base ext : str) :
  In ext SUPPORTED_EXTENSIONS ->
  supported (base ++ ext) = true
  /\ detect_file_type (dir ++ [base ++ ext])
     = match base with
       | [] => None
       | _ :: _ => Some (type_of_extension ext)
       end.
Proof.
  intros Hext.
  assert (Hcases : exists e, ext = "."%char :: e /\ dotless e /\ e <> []
                     /\ (e = lit "pdf" \/ e = lit "md" \/ e = lit "txt")).
  { destruct Hext as [<-|[<-|[<-|[]]]]; eexists; (split; [reflexivity|]);
      (split; [repeat constructor|]); (split; [discriminate|]); tauto. }
  destruct Hcases as [e [Heq [He [Hne Hwhich]]]]. subst ext. split.
  - unfold supported, ends_with, SUPPORTED_EXTENSIONS. rewrite rev_app_distr.
    destruct Hwhich as [-> | [-> | ->]]; cbn [existsb]; simpl rev;
      rewrite ?strip_prefix_app; simpl; rewrite ?orb_true_r; reflexivity.
  - unfold detect_file_type.
    destruct (suffix_of_name dir base e He Hne) as [Hs _]. rewrite Hs.
    destruct base as [|b base]; [reflexivity|].
    destruct Hwhich as [-> | [-> | ->]]; reflexivity.
Qed.

Lemma detect_file_type_of_supported_witness :
  In (lit ".md") SUPPORTED_EXTENSIONS
  /\ detect_file_type (sources_dir ++ [lit "doc2" ++ lit ".md"]) = Some (lit "md")
  /\ detect_file_type (sources_dir ++ [[] ++ lit ".md"]) = None.
Proof.
  assert (H : In (lit ".md") SUPPORTED_EXTENSIONS) by (right; left; reflexivity).
  split; [exact H|]. split.
  - exact (proj2 (detect_file_type_of_supported sources_dir (lit "doc2") _ H)).
  - exact (proj2 (detect_file_type_of_supported sources_dir [] _ H)).
Defined.

Lemma rfind_dot_spec s : forall i best k,
  rfind_dot s i best = Some k ->
  best = Some k /\ dotless s
  \/ (i <= k)%nat /\ exists pre e, s = pre ++ "."%char :: e
        /\ length pre = (k - i)%nat /\ dotless e.
Proof.
  induction s as [|c s IH]; intros i best k; simpl.
  - intros ->. left. split; [reflexivity|constructor].
  - intros H. apply IH in H. destruct H as [[Hb Hd]|(Hle & pre & e & -> & Hlen & He)].
    + destruct (Ascii.eqb_spec c ".") as [->|Hne].
      * injection Hb as <-. right. split; [lia|].
        exists [], s. rewrite Nat.sub_diag. repeat split. exact Hd.
      * left. split; [exact Hb|]. constructor; [|exact Hd].
        apply Ascii.eqb_neq. exact Hne.
    + right. split; [lia|]. exists (c :: pre), e. simpl.
      repeat split; [lia|exact He].
Qed.

(** X18. The stem and the suffix of a path put together are its name;
    the suffix, when there is one, is a dot followed by at least one
    character and no further dot, and then the stem is not empty. *)
Theorem stem_suffix_name (p : Path) :
  path_stem p ++ path_suffix p = path_name p
  /\ (path_suffix p = []
      \/ exists e, path_suffix p = "."%char :: e /\ e <> [] /\ dotless e
                   /\ path_stem p <> []).
Proof.
  unfold path_stem, path_suffix, suffix_index.
  destruct (rfind_dot (path_name p) 0 None) as [i|] eqn:E;
    [|split; [apply app_nil_r|left; reflexivity]].
  destruct ((0 <? i)%nat && (S i <? length (path_name p))%nat) eqn:Hc;
    [|split; [apply app_nil_r|left; reflexivity]].
  split; [apply firstn_skipn|]. right.
  apply andb_true_iff in Hc. destruct Hc as [H0 H1].
  apply Nat.ltb_lt in H0, H1.
  apply rfind_dot_spec in E.
  destruct E as [[E _]|(_ & pre & e & Hn & Hlen & He)]; [discriminate|].
  rewrite Nat.sub_0_r in Hlen. rewrite Hn in *. exists e.
  rewrite <- Hlen, skipn_app, skipn_all, Nat.sub_diag,
    firstn_app, firstn_all, Nat.sub_diag. simpl. rewrite app_nil_r.
  repeat split; [|exact He|].
  - rewrite length_app in H1. simpl in H1. destruct e; [simpl in H1; lia|discriminate].
  - destruct pre; [simpl in Hlen; lia|discriminate].
Qed.

(** *** create_source *)

Lemma max_list_ge k l : In k l -> k <= fold_right Z.max 0 l.
Proof.
  induction l as [|x l IH]; [intros []|]. intros [->|H]; simpl.
  - lia.
  - specialize (IH H). lia.
Qed.

Lemma next_rowid_fresh (m : gmap Z SourceRow) : m !! next_rowid m = None.
Proof.
  destruct (m !! next_rowid m) as [row|] eqn:E; [|reflexivity]. exfalso.
  apply elem_of_map_to_list in E. apply list_elem_of_In in E.
  apply (in_map fst) in E. apply max_list_ge in E. simpl in E.
  unfold next_rowid in E. lia.
Qed.

Lemma create_source_row (fs : FileSystem) (now : timestamp) (db : Db)
    (file_path : Path) (trust : Z) (title author : option str)
    (db' : Db) (s : option Source) :
  create_source fs now db file_path trust title author = inr (db', s) ->
  exists i row,
    sources db !! i = None
    /\ sources db' = <[i := row]> (sources db)
    /\ row_file_path row = path_str (fs_resolve fs file_path).
Proof.
  unfold create_source.
  destruct (fs_file fs (fs_resolve fs file_path)) as [info|]; [|discriminate].
  destruct (detect_file_type (fs_resolve fs file_path)) as [ftype|]; [|discriminate].
  destruct (infer_title_author info ftype title author) as [e|[t1 a1]];
    [discriminate|].
  intros [= <- <-]. eexists; eexists. cbn [sources set_sources].
  split; [apply next_rowid_fresh|]. split; reflexivity.
Qed.

(** X19. When [create_source] succeeds it adds exactly one row, under a
    row id no document had, and changes nothing else in the store; the
    row records the resolved path, the file's digest and size, the
    given trust level and the status [pending]; a title given by the
    caller is stored as it is, whatever the file contains; and the
    document returned is that row as read back. *)
Theorem create_source_inserts (fs : FileSystem) (now : timestamp) (db : Db)
    (file_path : Path) (trust : Z) (title author : option str)
    (db' : Db) (s : option Source) :
  create_source fs now db file_path trust title author = inr (db', s) ->
  exists i row info,
    sources db !! i = None
    /\ sources db' = <[i := row]> (sources db)
    /\ knowledge_chunks db' = knowledge_chunks db
    /\ s = Some (Source_from_row i row)
    /\ fs_file fs (fs_resolve fs file_path) = Some info
    /\ row_file_path row = path_str (fs_resolve fs file_path)
    /\ row_file_hash row = Some (f_hash info)
    /\ row_file_size_bytes row = Some (f_size info)
    /\ row_trust_level row = Some trust
    /\ row_status row = Some (lit "pending")
    /\ (truthy title = true -> row_title row = title /\ row_author row = author).
Proof.
  unfold create_source.
  destruct (fs_file fs (fs_resolve fs file_path)) as [info|] eqn:Ef; [|discriminate].
  destruct (detect_file_type (fs_resolve fs file_path)) as [ftype|]; [|discriminate].
  destruct (infer_title_author info ftype title author) as [e|[t1 a1]] eqn:Ei;
    [discriminate|].
  intros [= <- <-].
  eexists; eexists; exists info. cbn [sources knowledge_chunks set_sources].
  split; [apply next_rowid_fresh|]. split; [reflexivity|]. split; [reflexivity|].
  split.
  { unfold get_source_by_id. cbn [sources set_sources].
    rewrite lookup_insert_eq. reflexivity. }
  cbn [row_file_path row_file_hash row_file_size_bytes row_trust_level
       row_status row_title row_author].
  do 6 (split; [reflexivity|]).
  intros Ht. unfold infer_title_author in Ei. rewrite Ht in Ei.
  injection Ei as <- <-. rewrite Ht. split; reflexivity.
Qed.

Lemma create_source_inserts_witness :
  exists db' s i row,
    create_source (notes_fs (Some ("h0", "text"))) 5 notes_db notes_path 2
      (Some (lit "My title")) None = inr (db', s)
    /\ sources notes_db !! i = None
    /\ sources db' = <[i := row]> (sources notes_db)
    /\ s = Some (Source_from_row i row)
    /\ row_title row = Some (lit "My title").
Proof.
  destruct (create_source (notes_fs (Some ("h0", "text"))) 5 notes_db notes_path 2
              (Some (lit "My title")) None) as [e|[db' s]] eqn:E;
    [vm_compute in E; discriminate|].
  destruct (create_source_inserts _ _ _ _ _ _ _ _ _ E)
    as (i & row & info & Hfresh & Hins & _ & Hs & _ & _ & _ & _ & _ & _ & Ht).
  exists db', s, i, row. split; [reflexivity|].
  split; [exact Hfresh|]. split; [exact Hins|]. split; [exact Hs|].
  exact (proj1 (Ht eq_refl)).
Defined.

(** X20. A document that was just registered verifies as unchanged
    against the same file system: [verify_source] returns true, leaves
    the status [pending] and records the time of the check (the path
    written in the row is read back to the path of the file, its
    components being well formed). *)
Theorem create_then_verify (fs : FileSystem) (now later : timestamp) (db : Db)
    (file_path : Path) (trust : Z) (title author : option str)
    (db' : Db) (s : Source) :
  create_source fs now db file_path trust title author = inr (db', Some s) ->
  Forall path_part (fs_resolve fs file_path) ->
  snd (verify_source fs later db' s) = true
  /\ exists i row',
       id s = Some i
       /\ sources (fst (verify_source fs later db' s)) !! i = Some row'
       /\ row_status row' = Some (lit "pending")
       /\ row_last_verified row' = Some later.
Proof.
  intros Hc Hwf.
  destruct (create_source_inserts _ _ _ _ _ _ _ _ _ Hc)
    as (i & row & info & _ & Hins & _ & Hs & Hfile & Hpath & Hhash & _ & _ & Hst & _).
  injection Hs as ->.
  unfold verify_source. cbn [Models.file_path Models.id Models.file_hash Source_from_row].
  rewrite Hpath, (parse_path_of_path_str _ Hwf), Hfile, Hhash.
  unfold opt_str_eqb. rewrite bool_decide_eq_true_2 by reflexivity.
  cbn [negb fst snd]. split; [reflexivity|].
  exists i, (set_last_verified later row).
  split; [reflexivity|]. unfold update_source, set_sources. cbn [sources].
  rewrite Hins, lookup_alter_eq, lookup_insert_eq.
  repeat split. exact Hst.
Qed.

Lemma create_then_verify_witness :
  exists db' s,
    create_source (notes_fs (Some ("h0", "text"))) 5 notes_db notes_path 2 None None
    = inr (db', Some s)
    /\ snd (verify_source (notes_fs (Some ("h0", "text"))) 9 db' s) = true.
Proof.
  destruct (create_source (notes_fs (Some ("h0", "text"))) 5 notes_db notes_path 2
              None None) as [e|[db' [s|]]] eqn:E;
    [vm_compute in E; discriminate| |vm_compute in E; discriminate].
  exists db', s. split; [reflexivity|].
  apply (create_then_verify _ 5 9 notes_db notes_path 2 None None db' s E).
  repeat constructor; discriminate.
Defined.

(** *** discover_new_sources *)

Lemma glob_here_spec ext p es q :
  In q (glob_here ext p es) ->
  exists e, In e es /\ q = p ++ [entry_name e] /\ ends_with ext (entry_name e) = true.
Proof.
  unfold glob_here. intros H. apply in_map_iff in H. destruct H as [e [<- He]].
  apply filter_In in He. exists e. tauto.
Qed.

Lemma walk_dirs_below e : forall p d,
  In d (walk_dirs p e) -> exists rest, rest <> [] /\ fst d = p ++ rest.
Proof.
  induction e as [n|n children IH] using Entry_tree_ind; intros p d; simpl.
  - intros [].
  - intros [<-|H].
    + exists [n]. split; [discriminate|reflexivity].
    + apply in_flat_map in H. destruct H as [x [Hx Hd]].
      rewrite List.Forall_forall in IH.
      destruct (IH x Hx _ _ Hd) as [rest [_ E]].
      exists (n :: rest). split; [discriminate|].
      rewrite E, <- app_assoc. reflexivity.
Qed.

Lemma tracked_paths_row (db : Db) i row :
  sources db !! i = Some row -> row_file_path row ∈ tracked_paths db.
Proof.
  intros H. unfold tracked_paths. apply elem_of_list_to_set.
  apply list_elem_of_In. apply (in_map (fun kv => row_file_path (snd kv)) _ (i, row)).
  apply list_elem_of_In. apply elem_of_map_to_list. exact H.
Qed.

(** X21. Every path [discover_new_sources] lists lies below the
    directory searched, has a name ending in one of the extensions
    looked for, and resolves to a path that no registered document
    has. *)
Theorem discover_new_sources_sound (resolve : Path -> Path) (exts : list str)
    (db : Db) (directory : Path) (entries : list Entry) (q : Path) :
  In q (discover_new_sources resolve exts db directory entries) ->
  (exists rest, rest <> [] /\ q = directory ++ rest)
  /\ (exists ext, In ext exts /\ ends_with ext (path_name q) = true)
  /\ forall i row, sources db !! i = Some row ->
       row_file_path row <> path_str (resolve q).
Proof.
  unfold discover_new_sources. intros H. apply filter_In in H.
  destruct H as [Hall Hnew].
  assert (Hq : exists ext p e rest,
            In ext exts /\ p = directory ++ rest /\ q = p ++ [entry_name e]
            /\ ends_with ext (entry_name e) = true).
  { apply in_flat_map in Hall. destruct Hall as [ext [Hext Hq]].
    apply in_app_or in Hq. destruct Hq as [Hq|Hq].
    - apply glob_here_spec in Hq. destruct Hq as [e [_ [E He]]].
      exists ext, directory, e, []. rewrite app_nil_r. tauto.
    - unfold glob_recursive in Hq. apply in_flat_map in Hq.
      destruct Hq as [d [Hd Hq]]. apply glob_here_spec in Hq.
      destruct Hq as [e [_ [E He]]]. destruct Hd as [<-|Hd].
      + exists ext, directory, e, []. rewrite app_nil_r. tauto.
      + apply in_flat_map in Hd. destruct Hd as [x [_ Hd]].
        apply walk_dirs_below in Hd. destruct Hd as [rest [_ Ed]].
        exists ext, (fst d), e, rest. tauto. }
  destruct Hq as (ext & p & e & rest & Hext & -> & -> & He).
  split; [|split].
  - exists (rest ++ [entry_name e]). split.
    + intros E. apply app_eq_nil in E. destruct E as [_ E]. discriminate E.
    + rewrite app_assoc. reflexivity.
  - exists ext. split; [exact Hext|]. unfold path_name. rewrite last_last. exact He.
  - intros i row Hrow E. apply tracked_paths_row in Hrow. rewrite E in Hrow.
    rewrite bool_decide_eq_true_2 in Hnew by exact Hrow. discriminate Hnew.
Qed.

Lemma discover_new_sources_sound_witness :
  (exists ext, In ext [lit ".md"; lit ".txt"; lit ".pdf"]
               /\ ends_with ext (path_name (sources_dir ++ [lit "sub"; lit "doc2.md"])) = true)
  /\ forall i row, sources notes_db !! i = Some row ->
       row_file_path row <> path_str (sources_dir ++ [lit "sub"; lit "doc2.md"]).
Proof.
  apply (discover_new_sources_sound (fun p => p) [lit ".md"; lit ".txt"; lit ".pdf"]
           notes_db sources_dir sources_entries
           (sources_dir ++ [lit "sub"; lit "doc2.md"])).
  vm_compute. left. reflexivity.
Defined.

(** X22. Registering a file takes it off the list of new files:
    after a successful [create_source], a path that
    [discover_new_sources] lists was already listed before, and it does
    not resolve to the file just registered. *)
Theorem create_source_then_discover (fs : FileSystem) (now : timestamp) (db : Db)
    (file_path : Path) (trust : Z) (title author : option str)
    (db' : Db) (s : option Source)
    (exts : list str) (directory : Path) (entries : list Entry) (q : Path) :
  create_source fs now db file_path trust title author = inr (db', s) ->
  In q (discover_new_sources (fs_resolve fs) exts db' directory entries) ->
  In q (discover_new_sources (fs_resolve fs) exts db directory entries)
  /\ fs_resolve fs q <> fs_resolve fs file_path.
Proof.
  intros Hc Hq.
  destruct (create_source_row _ _ _ _ _ _ _ _ _ Hc)
    as (i & row & Hfresh & Hins & Hpath).
  unfold discover_new_sources in *. apply filter_In in Hq.
  destruct Hq as [Hall Hnew]. apply negb_true_iff, bool_decide_eq_false in Hnew.
  split.
  - apply filter_In. split; [exact Hall|].
    apply negb_true_iff, bool_decide_eq_false. intros Hin. apply Hnew.
    unfold tracked_paths in *. apply elem_of_list_to_set in Hin.
    apply list_elem_of_In, in_map_iff in Hin. destruct Hin as [[j r] [Er Hin]].
    apply list_elem_of_In, elem_of_map_to_list in Hin. simpl in Er.
    rewrite <- Er. apply (tracked_paths_row db' j r).
    rewrite Hins. rewrite lookup_insert_ne; [exact Hin|].
    intros ->. rewrite Hfresh in Hin. discriminate Hin.
  - intros E. apply Hnew. rewrite E, <- Hpath.
    apply (tracked_paths_row db' i row). rewrite Hins. apply lookup_insert_eq.
Qed.

Lemma create_source_then_discover_witness :
  exists db' s,
    create_source sources_fs 5 empty_db (sources_dir ++ [lit "doc1.txt"]) 1 None None
    = inr (db', s)
    /\ discover_new_sources (fun p => p) [lit ".md"; lit ".txt"; lit ".pdf"]
         empty_db sources_dir sources_entries
       = [sources_dir ++ [lit "sub"; lit "doc2.md"];
          sources_dir ++ [lit "doc1.txt"]; sources_dir ++ [lit "doc1.txt"]]
    /\ sources_dir ++ [lit "sub"; lit "doc2.md"] <> sources_dir ++ [lit "doc1.txt"].
Proof.
  destruct (create_source sources_fs 5 empty_db (sources_dir ++ [lit "doc1.txt"]) 1
              None None) as [e|[db' s]] eqn:E;
    [vm_compute in E; discriminate|].
  exists db', s. split; [reflexivity|]. split; [vm_compute; reflexivity|].
  refine (proj2 (create_source_then_discover sources_fs 5 empty_db
                   (sources_dir ++ [lit "doc1.txt"]) 1 None None db' s
                   [lit ".md"; lit ".txt"; lit ".pdf"] sources_dir sources_entries
                   (sources_dir ++ [lit "sub"; lit "doc2.md"]) E _)).
  vm_compute in E. injection E as <- _. vm_compute. left. reflexivity.
Defined.

End IngestionExtras.

Module StoreExtras.
Import PyStr TextProps PyStrFacts Models Retrieval RetrievalProps RetrievalFacts RankingProps Ingestion IngestionProps ModelProps ChunkStore Lifecycle StoreProps.
Local Open Scope Z_scope.

(** *** save_chunks *)

Lemma int_or_0 n : int_or (Some n) 0 = n.
Proof. unfold int_or. destruct (n =? 0) eqn:E; [apply Z.eqb_eq in E; lia|reflexivity]. Qed.

Lemma save_chunks_loop_spec uuid4 sid chunks : forall k rows saved,
  exists new,
    save_chunks_loop uuid4 k sid chunks rows saved
    = (rows ++ new, saved ++ map KnowledgeChunk_from_row new)
    /\ length new = length chunks
    /\ forall j c, nth_error chunks j = Some c ->
         exists row, nth_error new j = Some row
           /\ crow_source_id row = sid
           /\ crow_chunk_id row = uuid4 (k + j)%nat
           /\ stored_as sid (uuid4 (k + j)%nat) c (KnowledgeChunk_from_row row).
Proof.
  induction chunks as [|c chunks IH]; intros k rows saved.
  - exists []. simpl. rewrite !app_nil_r. split; [reflexivity|]. split; [reflexivity|].
    intros [|j] c H; discriminate H.
  - cbn [save_chunks_loop].
    match goal with
    | |- context [save_chunks_loop _ _ _ _ (rows ++ [?r]) (saved ++ [?s])] =>
        set (row := r); set (sv := s)
    end.
    destruct (IH (S k) (rows ++ [row]) (saved ++ [sv])) as (new & Hl & Hlen & Hnth).
    exists (row :: new). rewrite Hl. split.
    + rewrite <- !app_assoc. cbn [app map]. f_equal. f_equal. f_equal.
      unfold sv, KnowledgeChunk_from_row, row.
      cbn [crow_id crow_source_id crow_chunk_id crow_content crow_page_or_section
           crow_chunk_index crow_token_count crow_start_char crow_end_char].
      rewrite int_or_0. reflexivity.
    + split; [simpl; rewrite Hlen; reflexivity|].
      intros [|j] c' Hc.
      * injection Hc as <-. exists row. rewrite Nat.add_0_r.
        split; [reflexivity|]. split; [reflexivity|]. split; [reflexivity|].
        unfold stored_as, KnowledgeChunk_from_row, row.
        cbn [source_id chunk_id content page_or_section chunk_index token_count
             start_char end_char
             crow_id crow_source_id crow_chunk_id crow_content crow_page_or_section
             crow_chunk_index crow_token_count crow_start_char crow_end_char].
        rewrite int_or_0. repeat split.
      * destruct (Hnth j c' Hc) as (r & H1 & H2 & H3 & H4).
        exists r. replace (k + S j)%nat with (S k + j)%nat by lia.
        split; [exact H1|]. split; [exact H2|]. split; [exact H3|exact H4].
Qed.

Lemma find_app_first {A} (f : A -> bool) l1 l2 x :
  List.find f l1 = Some x -> List.find f (l1 ++ l2) = Some x.
Proof.
  induction l1 as [|y l1 IH]; simpl; [discriminate|].
  destruct (f y); [trivial|exact IH].
Qed.

Lemma find_app_none {A} (f : A -> bool) l1 l2 :
  (forall y, In y l1 -> f y = false) -> List.find f (l1 ++ l2) = List.find f l2.
Proof.
  induction l1 as [|y l1 IH]; intros H; simpl; [reflexivity|].
  rewrite (H y) by (left; reflexivity). apply IH. intros z Hz. apply H. right. exact Hz.
Qed.

Lemma find_nth {A} (f : A -> bool) l : forall k x,
  nth_error l k = Some x -> f x = true ->
  (forall j y, (j < k)%nat -> nth_error l j = Some y -> f y = false) ->
  List.find f l = Some x.
Proof.
  induction l as [|y l IH]; intros [|k] x Hn Hx Hb; try discriminate Hn.
  - injection Hn as ->. simpl. rewrite Hx. reflexivity.
  - simpl. rewrite (Hb 0%nat y) by (try lia; reflexivity).
    apply (IH k x Hn Hx). intros j z Hj Hz. apply (Hb (S j) z); [lia|exact Hz].
Qed.

(** X23. Saving and looking up agree: when the identifiers generated
    are fresh and distinct, [save_chunks] returns one fragment for each
    text chunk, in order, recording the document, the text, the label,
    the ordinal, the token count and the offsets of its chunk, and
    [get_chunk_by_id] at the identifier of a returned fragment gives a
    fragment with the same row id that records the same chunk; the
    documents are untouched and every fragment that could be looked up
    before still can. *)
Theorem save_chunks_round_trip (uuid4 : nat -> str) (db : Db) (sid : Z)
    (chunks : list Chunking.TextChunk) :
  fresh_ids uuid4 (length chunks) (knowledge_chunks db) ->
  let db' := fst (save_chunks uuid4 db sid chunks) in
  let saved := snd (save_chunks uuid4 db sid chunks) in
  sources db' = sources db
  /\ length saved = length chunks
  /\ (forall k c, nth_error chunks k = Some c ->
        exists s s', nth_error saved k = Some s
          /\ stored_as sid (uuid4 k) c s
          /\ get_chunk_by_id db' (uuid4 k) = Some s'
          /\ kc_id s' = kc_id s
          /\ stored_as sid (uuid4 k) c s')
  /\ (forall cid c, get_chunk_by_id db cid = Some c ->
        get_chunk_by_id db' cid = Some c).
Proof.
  intros [Hdistinct Hfresh]. unfold save_chunks.
  destruct (save_chunks_loop_spec uuid4 sid chunks O (knowledge_chunks db) [])
    as (new & Hl & Hlen & Hnth).
  rewrite Hl. cbn [fst snd app sources set_chunks].
  split; [reflexivity|]. split; [rewrite length_map; exact Hlen|]. split.
  - intros k c Hc. destruct (Hnth k c Hc) as (row & Hrow & Hsid & Hcid & Hst).
    cbn [Nat.add] in Hcid, Hst.
    exists (KnowledgeChunk_from_row row), (KnowledgeChunk_from_row row). split.
    { rewrite nth_error_map, Hrow. reflexivity. }
    split; [exact Hst|].
    split; [|split; [reflexivity|exact Hst]].
    unfold get_chunk_by_id. cbn [knowledge_chunks set_chunks].
    assert (Hk : (k < length chunks)%nat).
    { apply nth_error_Some. rewrite Hc. discriminate. }
    rewrite find_app_none.
    + rewrite (find_nth _ new k row Hrow); [reflexivity| |].
      * unfold str_eqb. apply bool_decide_eq_true_2. exact Hcid.
      * intros j y Hj Hy. unfold str_eqb. apply bool_decide_eq_false_2.
        assert (Hjc : exists cj, nth_error chunks j = Some cj).
        { destruct (nth_error chunks j) as [cj|] eqn:E; [exists cj; reflexivity|].
          apply nth_error_None in E. lia. }
        destruct Hjc as [cj Hcj].
        destruct (Hnth j cj Hcj) as (row' & Hrow' & _ & Hcid' & _).
        rewrite Hy in Hrow'. injection Hrow' as <-. cbn [Nat.add] in Hcid'.
        rewrite Hcid'. apply Hdistinct; assumption.
    + intros y Hy. unfold str_eqb. apply bool_decide_eq_false_2.
      apply Hfresh; assumption.
  - intros cid c. unfold get_chunk_by_id. cbn [knowledge_chunks set_chunks].
    destruct (List.find _ (knowledge_chunks db)) as [row|] eqn:E; [|discriminate].
    intros H. rewrite (find_app_first _ _ new row E). exact H.
Qed.

Lemma numbered_ids_fresh : fresh_ids numbered_ids 2 (knowledge_chunks example_db).
Proof.
  split.
  - intros j k Hj Hk. assert (E : j = 0%nat /\ k = 1%nat) by lia.
    destruct E as [-> ->]. vm_compute. discriminate.
  - intros k row Hk Hin.
    assert (E : k = 0%nat \/ k = 1%nat) by lia.
    destruct E as [-> | ->];
      (destruct Hin as [<-|[<-|[]]]; vm_compute; discriminate).
Defined.

Lemma save_chunks_round_trip_witness :
  length (snd (save_chunks numbered_ids example_db 1 two_chunks)) = 2%nat
  /\ forall cid c, get_chunk_by_id example_db cid = Some c ->
       get_chunk_by_id (fst (save_chunks numbered_ids example_db 1 two_chunks)) cid
       = Some c.
Proof.
  pose proof (save_chunks_round_trip numbered_ids example_db 1 two_chunks
                numbered_ids_fresh) as H.
  cbv zeta in H. destruct H as (_ & H2 & _ & H4). split; [exact H2|exact H4].
Defined.

(** *** delete_chunks_for_source *)

Lemma find_filter_kept {A} (f g : A -> bool) l x :
  List.find f l = Some x -> g x = true -> List.find f (List.filter g l) = Some x.
Proof.
  induction l as [|y l IH]; simpl; [discriminate|].
  destruct (f y) eqn:Ef.
  - intros [= ->] Hg. rewrite Hg. simpl. rewrite Ef. reflexivity.
  - intros H Hg. destruct (g y); [simpl; rewrite Ef|]; apply IH; assumption.
Qed.

Lemma filter_length_split {A} (f : A -> bool) l :
  (length (List.filter f l) + length (List.filter (fun x => negb (f x)) l))%nat
  = length l.
Proof.
  induction l as [|y l IH]; simpl; [reflexivity|].
  destruct (f y); simpl; lia.
Qed.

Lemma get_chunk_after_delete db sid cid c :
  get_chunk_by_id (fst (delete_chunks_for_source db sid)) cid = Some c ->
  source_id c <> sid.
Proof.
  unfold get_chunk_by_id, delete_chunks_for_source. cbn [fst knowledge_chunks set_chunks].
  destruct (List.find _ (List.filter _ _)) as [row|] eqn:E; [|discriminate].
  intros [= <-]. apply find_some in E. destruct E as [E _].
  apply filter_In in E. destruct E as [_ E].
  apply negb_true_iff, Z.eqb_neq in E. exact E.
Qed.

Lemma get_chunk_kept_by_delete db sid cid c :
  get_chunk_by_id db cid = Some c -> source_id c <> sid ->
  get_chunk_by_id (fst (delete_chunks_for_source db sid)) cid = Some c.
Proof.
  unfold get_chunk_by_id, delete_chunks_for_source. cbn [fst knowledge_chunks set_chunks].
  destruct (List.find _ (knowledge_chunks db)) as [row|] eqn:E; [|discriminate].
  intros [= <-] Hne.
  rewrite (find_filter_kept _ (fun r => negb (crow_source_id r =? sid)) _ row E).
  - reflexivity.
  - apply negb_true_iff, Z.eqb_neq. exact Hne.
Qed.

(** X24. [delete_chunks_for_source] removes the fragments of one
    document and nothing else: the count it returns is the number of
    fragments of that document, which is the number of rows that
    disappear; afterwards no lookup gives a fragment of that document;
    a fragment of another document that could be looked up still can;
    the documents are untouched. *)
Theorem delete_chunks_for_source_effect (db : Db) (sid : Z) :
  let db' := fst (delete_chunks_for_source db sid) in
  let n := snd (delete_chunks_for_source db sid) in
  n = Z.of_nat (chunks_of db sid)
  /\ Z.of_nat (length (knowledge_chunks db')) + n
     = Z.of_nat (length (knowledge_chunks db))
  /\ chunks_of db' sid = 0%nat
  /\ sources db' = sources db
  /\ (forall cid c, get_chunk_by_id db' cid = Some c -> source_id c <> sid)
  /\ (forall cid c, get_chunk_by_id db cid = Some c -> source_id c <> sid ->
        get_chunk_by_id db' cid = Some c).
Proof.
  cbv zeta. split; [reflexivity|]. split.
  { unfold delete_chunks_for_source. cbn [fst snd knowledge_chunks set_chunks].
    pose proof (filter_length_split (fun r => crow_source_id r =? sid)
                  (knowledge_chunks db)) as H. lia. }
  split.
  { unfold chunks_of, delete_chunks_for_source. cbn [fst knowledge_chunks set_chunks].
    induction (knowledge_chunks db) as [|r l IH]; simpl; [reflexivity|].
    destruct (crow_source_id r =? sid) eqn:E; simpl; [exact IH|].
    rewrite E. exact IH. }
  split; [reflexivity|]. split.
  - intros cid c. apply get_chunk_after_delete.
  - intros cid c. apply get_chunk_kept_by_delete.
Qed.

Lemma filter_all_false {A} (f : A -> bool) l :
  (forall x, In x l -> f x = false) -> List.filter f l = [].
Proof.
  induction l as [|y l IH]; intros H; simpl; [reflexivity|].
  rewrite (H y) by (left; reflexivity). apply IH. intros z Hz. apply H. right. exact Hz.
Qed.

Lemma filter_all_true {A} (f : A -> bool) l :
  (forall x, In x l -> f x = true) -> List.filter f l = l.
Proof.
  induction l as [|y l IH]; intros H; simpl; [reflexivity|].
  rewrite (H y) by (left; reflexivity). f_equal. apply IH.
  intros z Hz. apply H. right. exact Hz.
Qed.

(** X25. Deleting undoes saving: deleting the fragments of a document
    right after [save_chunks] stored [n] chunks for it leaves the store
    that deleting alone would have left, and reports [n] fragments more. *)
Theorem save_then_delete_chunks (uuid4 : nat -> str) (db : Db) (sid : Z)
    (chunks : list Chunking.TextChunk) :
  delete_chunks_for_source (fst (save_chunks uuid4 db sid chunks)) sid
  = (fst (delete_chunks_for_source db sid),
     snd (delete_chunks_for_source db sid) + Z.of_nat (length chunks)).
Proof.
  unfold save_chunks.
  destruct (save_chunks_loop_spec uuid4 sid chunks O (knowledge_chunks db) [])
    as (new & Hl & Hlen & Hnth).
  rewrite Hl. unfold delete_chunks_for_source.
  cbn [fst snd knowledge_chunks set_chunks sources].
  assert (Hnew : forall r, In r new -> (crow_source_id r =? sid) = true).
  { intros r Hr. apply In_nth_error in Hr. destruct Hr as [j Hj].
    assert (Hjc : exists cj, nth_error chunks j = Some cj).
    { destruct (nth_error chunks j) as [cj|] eqn:E; [exists cj; reflexivity|].
      apply nth_error_None in E.
      assert (j < length new)%nat by (apply nth_error_Some; rewrite Hj; discriminate).
      lia. }
    destruct Hjc as [cj Hcj]. destruct (Hnth j cj Hcj) as (row & Hrow & Hs & _).
    rewrite Hj in Hrow. injection Hrow as <-. apply Z.eqb_eq. exact Hs. }
  rewrite !List.filter_app.
  rewrite (filter_all_false (fun r => negb (crow_source_id r =? sid)) new)
    by (intros r Hr; rewrite (Hnew r Hr); reflexivity).
  rewrite (filter_all_true (fun r => crow_source_id r =? sid) new) by exact Hnew.
  rewrite app_nil_r, length_app, Hlen, Nat2Z.inj_add. reflexivity.
Qed.

(** *** delete_source *)

(** X26. [delete_source] reports whether the document existed;
    afterwards the document cannot be looked up and no lookup gives one
    of its fragments, also when the document did not exist and only
    fragments carried its number; every other document, and every
    fragment of another document that could be looked up, is as
    before. *)
Theorem delete_source_effect (db : Db) (sid : Z) :
  let db' := fst (delete_source db sid) in
  (snd (delete_source db sid) = true <-> get_source_by_id db sid <> None)
  /\ get_source_by_id db' sid = None
  /\ (forall j, j <> sid -> get_source_by_id db' j = get_source_by_id db j)
  /\ (forall cid c, get_chunk_by_id db' cid = Some c -> source_id c <> sid)
  /\ (forall cid c, get_chunk_by_id db cid = Some c -> source_id c <> sid ->
        get_chunk_by_id db' cid = Some c).
Proof.
  cbv zeta. unfold delete_source. cbn [fst snd].
  split.
  { unfold get_source_by_id, delete_chunks_for_source. cbn [fst sources set_chunks].
    destruct (sources db !! sid); split; congruence. }
  split.
  { unfold get_source_by_id. cbn [sources set_sources]. rewrite lookup_delete_eq.
    reflexivity. }
  split.
  { intros j Hj. unfold get_source_by_id. cbn [sources set_sources].
    rewrite lookup_delete_ne by congruence. reflexivity. }
  split.
  - intros cid c. apply get_chunk_after_delete.
  - intros cid c. apply get_chunk_kept_by_delete.
Qed.

Lemma resolve_hit_source_id db tf h r :
  resolve_hit db tf h = Some r ->
  exists c, get_chunk_by_id db (hit_chunk_id h) = Some c
    /\ source_id (chunk r) = source_id c
    /\ sr_source r = get_source_by_id db (source_id c).
Proof.
  unfold resolve_hit.
  destruct (get_chunk_by_id db (hit_chunk_id h)) as [c|] eqn:Ec; [|discriminate].
  destruct (get_source_by_id db (source_id c)) as [src|] eqn:Es; [|discriminate].
  destruct (match tf with Some t => t <? trust_level src | None => false end);
    [discriminate|].
  intros [= <-]. exists c. cbn [chunk sr_source source_id].
  split; [reflexivity|]. split; [reflexivity|]. symmetry. exact Es.
Qed.

(** X27. A deleted document is out of every search, whatever the vector
    index still answers: after [delete_source], no result of [search]
    is a fragment of the deleted document. *)
Theorem search_after_delete_source (db : Db) (sid : Z)
    (search_similar : Z -> list Hit) (n_results : Z) (trust_filter : option Z)
    (rs : list SearchResult) (r : SearchResult) :
  search (fst (delete_source db sid)) search_similar n_results trust_filter = Some rs ->
  In r rs ->
  source_id (chunk r) <> sid
  /\ forall src, sr_source r = Some src -> id src <> Some sid.
Proof.
  intros Hs Hr.
  destruct (RetrievalExtras.search_unfold (fst (delete_source db sid)) search_similar
              n_results trust_filter) as (keyed & Hs' & Hm).
  rewrite Hs in Hs'. injection Hs' as ->.
  assert (Hin : In r (map snd (sort_desc keyed))).
  { unfold py_take in Hr. destruct (0 <=? n_results);
      apply In_firstn_In in Hr; exact Hr. }
  apply in_map_iff in Hin. destruct Hin as [p [<- Hp]].
  apply (proj1 (sort_desc_in _ _)) in Hp.
  assert (Hc : In (snd p) (collect_results (fst (delete_source db sid)) trust_filter
                             (search_similar (n_results * 2)))).
  { rewrite <- Hm. apply in_map, Hp. }
  destruct (RetrievalExtras.collect_results_from_hits _ _ _ _ Hc) as [h [_ Hres]].
  destruct (resolve_hit_source_id _ _ _ _ Hres) as (c & Hget & Hsid & Hsrc).
  assert (Hne : source_id c <> sid).
  { unfold delete_source in Hget. cbn [fst] in Hget.
    unfold get_chunk_by_id in Hget. cbn [knowledge_chunks set_sources] in Hget.
    apply (get_chunk_after_delete db sid (hit_chunk_id h) c). exact Hget. }
  split; [rewrite Hsid; exact Hne|].
  intros src Hsome. rewrite Hsrc in Hsome. unfold get_source_by_id in Hsome.
  destruct (sources (fst (delete_source db sid)) !! source_id c); [|discriminate].
  injection Hsome as <-. cbn [id Source_from_row]. congruence.
Qed.

Lemma search_after_delete_source_witness :
  exists r,
    search (fst (delete_source example_db 2)) example_hits 5 None = Some [r]
    /\ source_id (chunk r) <> 2.
Proof.
  destruct (search (fst (delete_source example_db 2)) example_hits 5 None)
    as [[|r [|r' rs]]|] eqn:E; try (vm_compute in E; discriminate).
  exists r. split; [reflexivity|].
  apply (search_after_delete_source example_db 2 example_hits 5 None [r] r E).
  left. reflexivity.
Defined.

(** *** update_source_status *)

(** X28. [update_source_status] touches one row of one table: a
    document that is not registered leaves the store as it is; for a
    registered one the new status is written, [indexed] also writes the
    fragment count (0 when none is given), stamps the ingestion time
    and clears the error message, [failed] also writes the given
    message, and any other status leaves the message of an earlier
    failure in place; the file data of the row, the other rows and the
    fragments are unchanged. *)
Theorem update_source_status_effect (now : timestamp) (db : Db) (sid : Z)
    (st : str) (count : option Z) (msg : option str) :
  let db' := update_source_status now db sid st count msg in
  knowledge_chunks db' = knowledge_chunks db
  /\ (forall j, j <> sid -> sources db' !! j = sources db !! j)
  /\ (sources db !! sid = None -> sources db' !! sid = None)
  /\ forall row, sources db !! sid = Some row ->
       exists row', sources db' !! sid = Some row'
         /\ row_status row' = Some st
         /\ row_file_path row' = row_file_path row
         /\ row_file_hash row' = row_file_hash row
         /\ row_trust_level row' = row_trust_level row
         /\ row_last_verified row' = row_last_verified row
         /\ (st = lit "indexed" ->
               row_chunk_count row' = Some (int_or count 0)
               /\ row_ingested_at row' = Some now
               /\ row_error_message row' = None)
         /\ (st = lit "failed" ->
               row_error_message row' = msg
               /\ row_chunk_count row' = row_chunk_count row
               /\ row_ingested_at row' = row_ingested_at row)
         /\ (st <> lit "indexed" -> st <> lit "failed" ->
               row_error_message row' = row_error_message row
               /\ row_chunk_count row' = row_chunk_count row
               /\ row_ingested_at row' = row_ingested_at row).
Proof.
  cbv zeta. unfold update_source_status, str_eqb.
  destruct (bool_decide (st = lit "indexed")) eqn:E1;
    [apply bool_decide_eq_true in E1|apply bool_decide_eq_false in E1;
     destruct (bool_decide (st = lit "failed")) eqn:E2;
     [apply bool_decide_eq_true in E2|apply bool_decide_eq_false in E2]];
    unfold update_source; cbn [sources knowledge_chunks set_sources];
    (split; [reflexivity|]);
    (split; [intros j Hj; apply lookup_alter_ne; congruence|]);
    (split; [intros Hnone; rewrite lookup_alter_eq, Hnone; reflexivity|]);
    intros row Hrow; rewrite lookup_alter_eq, Hrow; cbn [fmap option_fmap option_map];
    eexists; (split; [reflexivity|]);
    cbn [row_status row_file_path row_file_hash row_trust_level row_last_verified
         row_chunk_count row_ingested_at row_error_message
         set_indexed set_failed_with set_status].
  - subst st. repeat split; try reflexivity; try discriminate; intros; congruence.
  - subst st. repeat split; try reflexivity; try discriminate; intros; congruence.
  - repeat split; try reflexivity; intros; congruence.
Qed.

(** X29. The life of an indexed document: once [update_source_status]
    has marked a registered document [indexed] with [n] fragments, it
    reads back as indexed with that count; a later [verify_source]
    against a file with the recorded digest leaves it indexed, and
    against a file with another digest makes it need re-indexing, the
    fragment count staying as recorded in both cases. *)
Theorem indexed_then_verified (fs : FileSystem) (now later : timestamp) (db : Db)
    (sid : Z) (n : Z) (row : SourceRow) (info : FileInfo) :
  sources db !! sid = Some row ->
  fs_file fs (parse_path (row_file_path row)) = Some info ->
  exists s1,
    get_source_by_id (update_source_status now db sid (lit "indexed") (Some n) None) sid
    = Some s1
    /\ is_indexed s1 = true
    /\ chunk_count s1 = n
    /\ exists s2,
         get_source_by_id
           (fst (verify_source fs later
                   (update_source_status now db sid (lit "indexed") (Some n) None) s1))
           sid = Some s2
         /\ chunk_count s2 = n
         /\ last_verified s2 = Some later
         /\ (row_file_hash row = Some (f_hash info) ->
               is_indexed s2 = true /\ needs_reindex s2 = false)
         /\ (row_file_hash row <> Some (f_hash info) ->
               is_indexed s2 = false /\ needs_reindex s2 = true).
Proof.
  intros Hrow Hfile.
  unfold update_source_status, str_eqb.
  rewrite bool_decide_eq_true_2 by reflexivity.
  unfold get_source_by_id at 1, update_source. cbn [sources set_sources].
  rewrite lookup_alter_eq, Hrow. cbn [fmap option_fmap option_map].
  eexists. split; [reflexivity|].
  split; [reflexivity|].
  split.
  { cbn [chunk_count Source_from_row set_indexed row_chunk_count].
    rewrite !int_or_0. reflexivity. }
  unfold verify_source.
  cbn [Models.file_path Models.id Models.file_hash Source_from_row set_indexed
       row_file_path row_file_hash].
  rewrite Hfile. unfold opt_str_eqb.
  destruct (bool_decide (Some (f_hash info) = row_file_hash row)) eqn:Eh;
    [apply bool_decide_eq_true in Eh|apply bool_decide_eq_false in Eh];
    cbn [negb fst]; unfold get_source_by_id, update_source;
    cbn [sources set_sources];
    rewrite ?lookup_alter_eq, Hrow; cbn [fmap option_fmap option_map];
    eexists; (split; [reflexivity|]);
    (split; [cbn [chunk_count Source_from_row set_indexed set_last_verified set_status
                  row_chunk_count];
             rewrite !int_or_0; reflexivity|]);
    (split; [reflexivity|]);
    split; intros H; try congruence; split; reflexivity.
Qed.

Lemma indexed_then_verified_witness :
  exists s2,
    get_source_by_id
      (fst (verify_source (notes_fs (Some ("h1", "new"))) 20
              (update_source_status 12 notes_db 7 (lit "indexed") (Some 3) None)
              (Source_from_row 7 (set_indexed 12 (Some 3) (notes_row "h0")))))
      7 = Some s2
    /\ chunk_count s2 = 3
    /\ needs_reindex s2 = true.
Proof.
  destruct (indexed_then_verified (notes_fs (Some ("h1", "new"))) 12 20 notes_db 7 3
              (notes_row "h0")
              {| f_hash := lit "h1"; f_size := 16; f_text := lit "new";
                 f_pdf_metadata := None |} eq_refl eq_refl)
    as (s1 & H1 & _ & _ & s2 & H2 & H3 & _ & _ & H5).
  vm_compute in H1. injection H1 as <-.
  exists s2. split; [exact H2|]. split; [exact H3|].
  apply H5. vm_compute. discriminate.
Defined.

End StoreExtras.
